(** * Multi-GPU synchronous data-parallel training: caffe/parallel.cpp

    A shallow embedding of [src/caffe/parallel.cpp] (hipCaffe) and the
    properties its design document states about it.

    - Part 1: the flat buffer manager ([apply_buffers], [total_size],
      the [GPUParams] constructor) over an explicit device memory and an
      explicit HIP runtime state.
    - Part 2: the topology planner [DevicePair::compute].
    - Part 3: the replica tree built by [P2PSync::Prepare] and the
      coordinator [P2PSync::Run].
    - Part 4: the gradient gather round of [P2PSync::on_gradients_ready]
      as an interleaving semantics over per-replica mailboxes.
    - Part 5: the parameter broadcast round of [P2PSync::on_start], in
      the same style. *)

From Stdlib Require Import ZArith Lia QArith Qcanon.
From stdpp Require Import base tactics option list gmap.

Local Open Scope Z_scope.

(** ** Fatal errors

    [HIP_CHECK] and glog's [CHECK] abort the process.  An access outside
    a [std::vector] is undefined behaviour in the source; the embedding
    makes it an explicit outcome so that it can be stated and excluded. *)

Inductive error : Type :=
  | HipError      (* a HIP runtime call returned an error: HIP_CHECK aborts *)
  | CheckFailed   (* CHECK / CHECK_EQ failed *)
  | OutOfRange    (* vector index or erase position past the end *)
  | NullPointer   (* member call through a null shared_ptr *)
  | OutOfFuel.    (* loop bound of the embedding exhausted; shown unreachable *)

Inductive result (A : Type) : Type :=
  | Ok (a : A)
  | Err (e : error).
Arguments Ok {A} a.
Arguments Err {A} e.

#[global] Instance result_ret : MRet result := λ A a, Ok a.
#[global] Instance result_bind : MBind result := λ A B f m,
  match m with Ok a => f a | Err e => Err e end.

Definition CHECK (b : bool) : result unit :=
  if b then Ok tt else Err CheckFailed.

Definition is_Ok {A} (r : result A) : Prop := ∃ a, r = Ok a.

(** ** Machine integers *)

Definition INT_MAX : Z := 2 ^ 31 - 1.
Definition SIZE_MODULUS : Z := 2 ^ 64.

(** Conversion to [size_t] (unsigned 64 bit). *)
Definition to_size_t (x : Z) : Z := x mod SIZE_MODULUS.

(** Conversion to [int] (signed 32 bit, two's complement). *)
Definition to_int (x : Z) : Z := (x + 2 ^ 31) mod 2 ^ 32 - 2 ^ 31.

(** * Part 1: flat buffer manager *)

Inductive Op : Type :=
  | copy
  | replace_cpu
  | replace_gpu
  | replace_cpu_diff
  | replace_gpu_diff.

Definition is_rebind (op : Op) : bool :=
  match op with copy => false | _ => true end.

Section Buffers.

Context {Dtype : Type}.

(** Device memory, addressed in units of [Dtype] elements: [Dtype* p]
    is the address [p], and [p + n] is pointer arithmetic. *)
Abbreviation memory := (gmap Z Dtype).

(** [SyncedMemory]: the two storage pointers that [set_cpu_data] and
    [set_gpu_data] rebind, and the values [cpu_data()] currently yields. *)
Record SyncedMemory : Type := mkSyncedMemory {
  cpu_ptr_ : Z;
  gpu_ptr_ : Z;
  cpu_data : list Dtype
}.

Definition set_cpu_data (ptr : Z) (m : SyncedMemory) : SyncedMemory :=
  {| cpu_ptr_ := ptr; gpu_ptr_ := gpu_ptr_ m; cpu_data := cpu_data m |}.

Definition set_gpu_data (ptr : Z) (m : SyncedMemory) : SyncedMemory :=
  {| cpu_ptr_ := cpu_ptr_ m; gpu_ptr_ := ptr; cpu_data := cpu_data m |}.

(** [Blob]: element count, value storage [data()] and gradient storage
    [diff()]. *)
Record Blob : Type := mkBlob {
  count : Z;
  data : SyncedMemory;
  diff : SyncedMemory
}.

Definition with_data (f : SyncedMemory → SyncedMemory) (b : Blob) : Blob :=
  {| count := count b; data := f (data b); diff := diff b |}.

Definition with_diff (f : SyncedMemory → SyncedMemory) (b : Blob) : Blob :=
  {| count := count b; data := data b; diff := f (diff b) |}.

(** A [Blob]'s count is a non-negative [int] ... *)
Definition count_in_range (b : Blob) : Prop := 0 ≤ count b ≤ INT_MAX.

(** ... and [cpu_data()] points to that many elements. *)
Definition Blob_wf (b : Blob) : Prop :=
  count_in_range b ∧ Z.of_nat (length (cpu_data (data b))) = count b.

(** The storage pointer an operation rebinds. *)
Definition storage_ptr (op : Op) (b : Blob) : Z :=
  match op with
  | copy => gpu_ptr_ (data b)
  | replace_cpu => cpu_ptr_ (data b)
  | replace_gpu => gpu_ptr_ (data b)
  | replace_cpu_diff => cpu_ptr_ (diff b)
  | replace_gpu_diff => gpu_ptr_ (diff b)
  end.

(** Writing an array into memory at [dst]. *)
Fixpoint write_array (dst : Z) (vs : list Dtype) (mem : memory) : memory :=
  match vs with
  | [] => mem
  | v :: vs' => write_array (dst + 1) vs' (<[dst := v]> mem)
  end.

(** [caffe_copy(n, src, dst)]. *)
Definition caffe_copy (n : Z) (src : list Dtype) (dst : Z) (mem : memory)
  : memory :=
  write_array dst (take (Z.to_nat n) src) mem.

(** [caffe_gpu_set(n, alpha, dst)]. *)
Definition caffe_gpu_set (n : Z) (alpha : Dtype) (dst : Z) (mem : memory)
  : memory :=
  write_array dst (replicate (Z.to_nat n) alpha) mem.

(** The loop of [apply_buffers]: walks the blobs with the running
    pointer [ptr] and returns the blobs, the memory and the final [ptr]. *)
Fixpoint apply_buffers_loop (blobs : list Blob) (ptr : Z) (op : Op)
    (mem : memory) : list Blob * memory * Z :=
  match blobs with
  | [] => ([], mem, ptr)
  | b :: rest =>
      let size := count b in
      let '(b', mem') :=
        match op with
        | copy => (b, caffe_copy size (cpu_data (data b)) ptr mem)
        | replace_cpu => (with_data (set_cpu_data ptr) b, mem)
        | replace_gpu => (with_data (set_gpu_data ptr) b, mem)
        | replace_cpu_diff => (with_diff (set_cpu_data ptr) b, mem)
        | replace_gpu_diff => (with_diff (set_gpu_data ptr) b, mem)
        end in
      let '(rest', mem'', ptr') :=
        apply_buffers_loop rest (ptr + size) op mem' in
      (b' :: rest', mem'', ptr')
  end.

(** [apply_buffers(blobs, buffer, total_size, op)], ending in
    [CHECK_EQ(total_size, (ptr == buffer ? 1 : ptr - buffer))]. *)
Definition apply_buffers (blobs : list Blob) (buffer : Z) (total_size : Z)
    (op : Op) (mem : memory) : result (list Blob * memory) :=
  let '(blobs', mem', ptr) := apply_buffers_loop blobs buffer op mem in
  _ ← CHECK (bool_decide
        (total_size = to_size_t (if decide (ptr = buffer) then 1 else ptr - buffer)));
  Ok (blobs', mem').

(** [total_size(params)]: a [size_t] accumulator over the [int] counts. *)
Definition total_size (params : list Blob) : Z :=
  let size := fold_left (λ size b, to_size_t (size + count b)) params 0 in
  if decide (size > 0) then size else 1.

(** Sum of the element counts, as a mathematical integer. *)
Definition sum_counts (blobs : list Blob) : Z :=
  foldr (λ b acc, count b + acc) 0 blobs.

(** The host-side values of a tensor list, in list order. *)
Definition host_values (blobs : list Blob) : list Dtype :=
  mjoin ((λ b, cpu_data (data b)) <$> blobs).

(** The contents of the [n] elements at [src]. *)
Definition read_array (mem : memory) (src : Z) (n : nat) : list (option Dtype) :=
  (λ k, mem !! (src + Z.of_nat k)) <$> seq 0 n.

End Buffers.

Arguments SyncedMemory : clear implicits.
Arguments Blob : clear implicits.

(** ** The HIP runtime and the constructors that allocate the buffers

    The code of the GPU build (without [CPU_ONLY]). *)

(** Solver configuration ([SolverParameter]) and the part of a [Solver]
    this file reads: its parameters, the learnable parameter blobs of its
    net, its iteration counter and its registered callbacks. *)
Record SolverParameter : Type := mkSolverParameter {
  device_id : Z;
  max_iter : Z;
  random_seed : Z
}.

Definition set_device_id (d : Z) (p : SolverParameter) : SolverParameter :=
  {| device_id := d; max_iter := max_iter p; random_seed := random_seed p |}.

(** What the accelerator runtime answers; the runtime itself is not part
    of the repository. *)
Record HipRuntime : Type := mkHipRuntime {
  device_count : Z;                              (* hipSetDevice accepts 0 .. device_count-1 *)
  heap_limit : Z;                                (* hipMalloc fails past this address *)
  hipDeviceCanAccessPeer : Z → Z → option bool;  (* None: the call returns an error *)
  hipGetDeviceProperties : Z → bool              (* false: the call returns an error *)
}.

Module Hip.
Section Runtime.

Context {Dtype : Type}.
Variable zero : Dtype.
Variable rt : HipRuntime.

Record Solver : Type := mkSolver {
  param : SolverParameter;
  learnable_params : list (Blob Dtype);
  iter : Z;
  callbacks : list Z   (* registered callbacks, named by their device *)
}.

Definition add_callback (cb : Z) (s : Solver) : Solver :=
  {| param := param s; learnable_params := learnable_params s;
     iter := iter s; callbacks := callbacks s ++ [cb] |}.

Definition with_learnable_params (bs : list (Blob Dtype)) (s : Solver) : Solver :=
  {| param := param s; learnable_params := bs;
     iter := iter s; callbacks := callbacks s |}.

(** Runtime state: the calling thread's active device, device memory, a
    bump allocator with the live allocations (pointer, length, device),
    and the enabled peer links (device, peer). *)
Record HipState : Type := mkHipState {
  current_device : Z;
  device_memory : gmap Z Dtype;
  next_free : Z;
  allocations : list (Z * Z * Z);
  peer_enabled : list (Z * Z)
}.

Definition hip (A : Type) : Type := HipState → result (A * HipState).

#[local] Instance hip_ret : MRet hip := λ A a s, Ok (a, s).
#[local] Instance hip_bind : MBind hip := λ A B f m s,
  match m s with Ok (a, s') => f a s' | Err e => Err e end.

Definition hipGetDevice : hip Z := λ s, Ok (current_device s, s).

Definition hipSetDevice (d : Z) : hip unit := λ s,
  if bool_decide (0 ≤ d < device_count rt)
  then Ok (tt, {| current_device := d; device_memory := device_memory s;
                  next_free := next_free s; allocations := allocations s;
                  peer_enabled := peer_enabled s |})
  else Err HipError.

(** [hipMalloc(&p, n * sizeof(Dtype))], on the active device. *)
Definition hipMalloc (n : Z) : hip Z := λ s,
  if bool_decide (next_free s + n ≤ heap_limit rt)
  then Ok (next_free s,
           {| current_device := current_device s; device_memory := device_memory s;
              next_free := next_free s + n;
              allocations := (next_free s, n, current_device s) :: allocations s;
              peer_enabled := peer_enabled s |})
  else Err HipError.

Definition hipFree (p : Z) : hip unit := λ s,
  if bool_decide (p = 0) then Ok (tt, s)
  else if bool_decide (p ∈ (λ a, a.1.1) <$> allocations s)
  then Ok (tt, {| current_device := current_device s; device_memory := device_memory s;
                  next_free := next_free s;
                  allocations := filter (λ a, a.1.1 ≠ p) (allocations s);
                  peer_enabled := peer_enabled s |})
  else Err HipError.

Definition CanAccessPeer (dev peer : Z) : hip bool := λ s,
  match hipDeviceCanAccessPeer rt dev peer with
  | Some b => Ok (b, s)
  | None => Err HipError
  end.

Definition set_peer_enabled (l : list (Z * Z)) (s : HipState) : HipState :=
  {| current_device := current_device s; device_memory := device_memory s;
     next_free := next_free s; allocations := allocations s; peer_enabled := l |}.

Definition hipDeviceEnablePeerAccess (peer : Z) : hip unit := λ s,
  if bool_decide ((current_device s, peer) ∈ peer_enabled s) then Err HipError
  else Ok (tt, set_peer_enabled ((current_device s, peer) :: peer_enabled s) s).

Definition hipDeviceDisablePeerAccess (peer : Z) : hip unit := λ s,
  if bool_decide ((current_device s, peer) ∈ peer_enabled s)
  then Ok (tt, set_peer_enabled
                 (filter (λ l, l ≠ (current_device s, peer)) (peer_enabled s)) s)
  else Err HipError.

Definition set_memory (m : gmap Z Dtype) (s : HipState) : HipState :=
  {| current_device := current_device s; device_memory := m;
     next_free := next_free s; allocations := allocations s;
     peer_enabled := peer_enabled s |}.

(** [apply_buffers] acting on device memory. *)
Definition apply_buffers_hip (blobs : list (Blob Dtype)) (buffer total : Z)
    (op : Op) : hip (list (Blob Dtype)) := λ s,
  '(blobs', mem') ← apply_buffers blobs buffer total op (device_memory s);
  Ok (blobs', set_memory mem' s).

Definition gpu_set (n : Z) (alpha : Dtype) (dst : Z) : hip unit := λ s,
  Ok (tt, set_memory (caffe_gpu_set n alpha dst (device_memory s)) s).

(** [Params]/[GPUParams]: buffer length and the two device pointers. *)
Record GPUParams : Type := mkGPUParams {
  size_ : Z;
  data_ : Z;
  diff_ : Z
}.

(** [Params::Params]: [size_(total_size(...)), data_(), diff_()]. *)
Definition Params_ctor (root_solver : Solver) : GPUParams :=
  {| size_ := total_size (learnable_params root_solver); data_ := 0; diff_ := 0 |}.

(** [GPUParams::GPUParams(root_solver, device)]. *)
Definition GPUParams_ctor (root_solver : Solver) (device : Z) : hip GPUParams :=
  let base := Params_ctor root_solver in
  initial_device ← hipGetDevice;
  _ ← hipSetDevice device;
  data ← hipMalloc (size_ base);
  let net := learnable_params root_solver in
  _ ← apply_buffers_hip net data (size_ base) copy;
  diff ← hipMalloc (size_ base);
  _ ← gpu_set (size_ base) zero diff;
  _ ← hipSetDevice initial_device;
  mret {| size_ := size_ base; data_ := data; diff_ := diff |}.

(** [GPUParams::~GPUParams]. *)
Definition GPUParams_dtor (this : GPUParams) : hip unit :=
  _ ← hipFree (data_ this);
  hipFree (diff_ this).

(** [GPUParams::configure(solver)]: rebinds the solver's blobs. *)
Definition configure (this : GPUParams) (solver : Solver) : hip Solver :=
  let net := learnable_params solver in
  net ← apply_buffers_hip net (data_ this) (size_ this) replace_gpu;
  net ← apply_buffers_hip net (diff_ this) (size_ this) replace_gpu_diff;
  mret (with_learnable_params net solver).

(** The replica object at the level of its allocations.  The parent
    pointer is represented by what is read through it in this file's
    constructor and destructor: [parent->solver_->param().device_id()]. *)
Record P2PSync : Type := mkP2PSync {
  base : GPUParams;
  parent_ : option Z;
  initial_iter_ : Z;
  solver_ : Solver;
  device_ : Z;
  parent_grads_ : Z
}.

(** [new WorkerSolver(param, root_solver)] belongs to the training
    driver: any effect on the runtime, or failure, is allowed. *)
Variable WorkerSolver : SolverParameter → Solver → hip Solver.

(** [P2PSync::P2PSync(root_solver, parent, param)], after the base
    class constructor.  ([Caffe::set_root_solver], which brackets the
    construction of the worker solver, does not touch the runtime.) *)
Definition P2PSync_ctor (root_solver : Solver) (parent : option Z)
    (prm : SolverParameter) : hip P2PSync :=
  b ← GPUParams_ctor root_solver (device_id prm);
  initial_device ← hipGetDevice;
  let device := device_id prm in
  _ ← hipSetDevice device;
  solver ← match parent with
           | None => mret root_solver
           | Some _ => WorkerSolver prm root_solver
           end;
  solver ← configure b solver;
  let solver := add_callback device solver in
  parent_grads ←
    match parent with
    | Some peer =>
        access ← CanAccessPeer device peer;
        _ ← (if access : bool then hipDeviceEnablePeerAccess peer else mret tt);
        _ ← hipSetDevice peer;
        pg ← hipMalloc (size_ b);
        _ ← hipSetDevice device;
        mret pg
    | None => mret 0
    end;
  _ ← hipSetDevice initial_device;
  mret {| base := b; parent_ := parent; initial_iter_ := iter root_solver;
          solver_ := solver; device_ := device; parent_grads_ := parent_grads |}.

(** [P2PSync::~P2PSync], followed by the base class destructor. *)
Definition P2PSync_dtor (this : P2PSync) : hip unit :=
  initial_device ← hipGetDevice;
  let self := device_id (param (solver_ this)) in
  _ ← hipSetDevice self;
  _ ← match parent_ this with
      | Some peer =>
          _ ← hipFree (parent_grads_ this);
          access ← CanAccessPeer self peer;
          if access : bool then hipDeviceDisablePeerAccess peer else mret tt
      | None => mret tt
      end;
  _ ← hipSetDevice initial_device;
  GPUParams_dtor (base this).

End Runtime.
End Hip.

(** * Part 2: topology planner *)

(** [DevicePair(parent, device)]. *)
Record DevicePair : Type := mkDevicePair {
  parent : Z;
  device : Z
}.

#[global] Instance DevicePair_eq_dec : EqDecision DevicePair.
Proof. solve_decision. Defined.

(** [v[i]] on a [std::vector]. *)
Definition vec_at {A} (v : list A) (i : nat) : result A :=
  match v !! i with
  | Some x => Ok x
  | None => Err OutOfRange
  end.

(** [v.erase(v.begin() + i)]. *)
Definition vec_erase {A} (v : list A) (i : nat) : result (list A) :=
  if bool_decide (i < length v)%nat then Ok (delete i v) else Err OutOfRange.

(** [for (i = i0; cond; ++i) body], whose condition is evaluated again
    before every iteration and whose body may [break] (it returns
    [true]). *)
Fixpoint for_loop {St} (fuel : nat) (cond : nat → St → bool)
    (body : nat → St → result (St * bool)) (i : nat) (s : St) : result St :=
  match fuel with
  | O => Err OutOfFuel
  | S fuel' =>
      if cond i s then
        '(s', brk) ← body i s;
        if brk : bool then Ok s' else for_loop fuel' cond body (S i) s'
      else Ok s
  end.

(** [static_cast<int>(ceil(log2((float)n)))].  For [n = 0] the source
    converts minus infinity to [int]; every loop bounded by the result
    then runs zero times, as it does for depth 0. *)
Definition remaining_depth (n : nat) : nat :=
  Z.to_nat (Z.log2_up (Z.of_nat n)).

Section Planner.

Variable rt : HipRuntime.

(** The planner's working state: [remaining] and [*pairs]. *)
Definition plan : Type := list Z * list DevicePair.

Definition HIP_CHECK_properties (d : Z) : result unit :=
  if hipGetDeviceProperties rt d then Ok tt else Err HipError.

Definition HIP_CHECK_access (a b : Z) : result bool :=
  match hipDeviceCanAccessPeer rt a b with
  | Some access => Ok access
  | None => Err HipError
  end.

(** Phase 1, one value of [d]: the board grouping, whose pairing code is
    commented out in the source; the two property queries remain. *)
Definition board_pass (s : plan) : result plan :=
  for_loop (S (length s.1))
    (λ i s, bool_decide (i < length s.1)%nat)
    (λ i s,
       s' ← for_loop (S (length s.1))
              (λ j s, bool_decide (j < length s.1)%nat)
              (λ j s,
                 a ← vec_at s.1 i;
                 b ← vec_at s.1 j;
                 _ ← HIP_CHECK_properties a;
                 _ ← HIP_CHECK_properties b;
                 Ok (s, false))
              (S i) s;
       Ok (s', false))
    0%nat s.

(** Phase 2, one value of [d]: pairing by peer-to-peer accessibility. *)
Definition p2p_pass (s : plan) : result plan :=
  for_loop (S (length s.1))
    (λ i s, bool_decide (i < length s.1)%nat)
    (λ i s,
       s' ← for_loop (S (length s.1))
              (λ j s, bool_decide (j < length s.1)%nat)
              (λ j s,
                 a ← vec_at s.1 i;
                 b ← vec_at s.1 j;
                 access ← HIP_CHECK_access a b;
                 if access : bool then
                   remaining' ← vec_erase s.1 j;
                   Ok ((remaining', s.2 ++ [mkDevicePair a b]), true)
                 else Ok (s, false))
              (S i) s;
       Ok (s', false))
    0%nat s.

(** Phase 3, one value of [d]: pairing what is left, [remaining[i]] with
    [remaining[i + 1]]. *)
Definition fallback_pass (s : plan) : result plan :=
  for_loop (S (length s.1))
    (λ i s, bool_decide (i < length s.1)%nat)
    (λ i s,
       a ← vec_at s.1 i;
       b ← vec_at s.1 (i + 1);
       remaining' ← vec_erase s.1 (i + 1);
       Ok ((remaining', s.2 ++ [mkDevicePair a b]), false))
    0%nat s.

(** [for (int d = 0; d < remaining_depth; ++d) pass]. *)
Definition depth_loop (depth : nat) (pass : plan → result plan) (s : plan)
  : result plan :=
  for_loop (S depth) (λ d _, bool_decide (d < depth)%nat)
    (λ _ s, s' ← pass s; Ok (s', false)) 0%nat s.

(** The closing checks: no pair is its own parent, devices are pairwise
    different. *)
Fixpoint CHECK_pairs (ps : list DevicePair) : result unit :=
  match ps with
  | [] => Ok tt
  | p :: rest =>
      _ ← CHECK (bool_decide (parent p ≠ device p));
      _ ← CHECK (forallb (λ q, bool_decide (device p ≠ device q)) rest);
      CHECK_pairs rest
  end.

(** What the three phases keep: the devices of the pairs emitted so far
    together with the devices still [remaining] are the input devices,
    and every emitted parent is an input device. *)
Definition plan_inv (devices : list Z) (s : plan) : Prop :=
  (device <$> s.2) ++ s.1 ≡ₚ devices ∧ Forall (λ p, parent p ∈ devices) s.2.

(** A device is covered when it is still [remaining] or was emitted
    below a covered parent. *)
Inductive covered (s : plan) : Z → Prop :=
  | covered_remaining d : d ∈ s.1 → covered s d
  | covered_pair pr : pr ∈ s.2 → covered s (parent pr) → covered s (device pr).

Definition all_covered (s : plan) : Prop :=
  ∀ pr, pr ∈ s.2 → covered s (device pr).

(** The passes never lengthen [remaining]. *)
Definition shrinks_to (n : nat) (s : plan) : Prop := (length s.1 ≤ n)%nat.

(** [DevicePair::compute(devices, pairs)]. *)
Definition compute (devices : list Z) (pairs : list DevicePair)
  : result (list DevicePair) :=
  let s : plan := (devices, pairs) in
  s ← depth_loop (remaining_depth (length s.1)) board_pass s;
  s ← depth_loop (remaining_depth (length s.1)) p2p_pass s;
  s ← depth_loop (remaining_depth (length s.1)) fallback_pass s;
  _ ← CHECK (bool_decide (length s.1 = 1%nat));
  root ← vec_at s.1 0;
  let pairs := mkDevicePair (-1) root :: s.2 in
  _ ← CHECK (bool_decide (length pairs = length devices));
  _ ← CHECK_pairs pairs;
  Ok pairs.

End Planner.

(** * Part 3: the replica tree and the coordinator *)

(** A replica as a node of the tree.  Pointers to replicas are slot
    numbers of the coordinator's [syncs] vector; slot 0 stands for [this],
    the root replica on which [Prepare] and [Run] are called. *)
Record P2PSync : Type := mkP2PSync {
  device_ : Z;             (* solver()->param().device_id() *)
  parent_ : option nat;
  children_ : list nat
}.

Definition push_child (c : nat) (n : P2PSync) : P2PSync :=
  {| device_ := device_ n; parent_ := parent_ n; children_ := children_ n ++ [c] |}.

Inductive event : Type :=
  | NewP2PSync (slot : nat)           (* a replica is constructed *)
  | StartInternalThread (slot : nat)  (* a worker thread is spawned *)
  | Solve                             (* the root solver runs *)
  | StopInternalThread (slot : nat).

(** The coordinator's view: the root replica, the vector of replica
    slots, and what has been done so far. *)
Record Coordinator : Type := mkCoordinator {
  this : P2PSync;
  syncs : list (option P2PSync);
  trace : list event
}.

(** A run either returns or aborts; the state reached is kept in both
    cases. *)
Inductive outcome : Type :=
  | Done (st : Coordinator)
  | Abort (e : error) (st : Coordinator).

Definition and_then (o : outcome) (k : Coordinator → outcome) : outcome :=
  match o with
  | Done st => k st
  | Abort e st => Abort e st
  end.

(** [for (i = lo; i < lo + n; ++i) body], the bound being fixed. *)
Fixpoint for_range (n lo : nat) (body : nat → Coordinator → outcome)
    (st : Coordinator) : outcome :=
  match n with
  | O => Done st
  | S n' => and_then (body lo st) (for_range n' (S lo) body)
  end.

(** [j == 0 ? this : syncs->at(j).get()]. *)
Definition sync_at (st : Coordinator) (j : nat) : option P2PSync :=
  match j with
  | O => Some (this st)
  | S _ => mjoin (syncs st !! j)
  end.

(** The search over [j] in [Prepare]: the last filled slot whose device
    is [dev] (the loop has no [break]). *)
Definition find_parent (st : Coordinator) (dev : Z) : option nat :=
  foldl (λ found j,
           match sync_at st j with
           | Some sync => if bool_decide (device_ sync = dev) then Some j else found
           | None => found
           end)
        None (seq 0 (length (syncs st))).

(** [parent->children_.push_back(...)]. *)
Definition add_child (p c : nat) (st : Coordinator) : Coordinator :=
  match p with
  | O => {| this := push_child c (this st); syncs := syncs st; trace := trace st |}
  | S _ => {| this := this st;
              syncs := alter (fmap (push_child c)) p (syncs st);
              trace := trace st |}
  end.

(** [syncs->at(i).reset(new P2PSync(solver_, parent, param))]. *)
Definition reset_slot (i : nat) (n : P2PSync) (st : Coordinator) : Coordinator :=
  {| this := this st; syncs := <[i := Some n]> (syncs st);
     trace := trace st ++ [NewP2PSync i] |}.

(** Body of the loop over [i] in [Prepare]. *)
Definition Prepare_slot (pairs : list DevicePair) (i : nat) (st : Coordinator)
  : outcome :=
  match syncs st !! i with
  | None => Abort OutOfRange st              (* syncs->at(i) throws *)
  | Some (Some _) => Done st
  | Some None =>
      match pairs !! i with
      | None => Abort OutOfRange st
      | Some pr =>
          match find_parent st (parent pr) with
          | Some p =>
              Done (add_child p i
                      (reset_slot i {| device_ := device pr; parent_ := Some p;
                                       children_ := [] |} st))
          | None => Done st
          end
      end
  end.

(** One sweep: [for (int i = 1; i < pairs.size(); ++i)]. *)
Definition Prepare_sweep (pairs : list DevicePair) (st : Coordinator) : outcome :=
  for_range (length pairs - 1) 1 (Prepare_slot pairs) st.

(** The tree-building loop of [Prepare]:
    [for (attempts = 0; attempts < pairs.size(); ++attempts)]. *)
Definition Prepare_build (pairs : list DevicePair) (st : Coordinator) : outcome :=
  for_range (length pairs) 0 (λ _, Prepare_sweep pairs) st.

(** The pair list as an in-tree: [d] reaches the root device through
    the parents named by the pairs after the first. *)
Inductive dev_reaches (pairs : list DevicePair) (root : Z) : Z → Prop :=
  | dev_reaches_root : dev_reaches pairs root root
  | dev_reaches_pair i pr :
      (1 ≤ i)%nat → pairs !! i = Some pr →
      dev_reaches pairs root (parent pr) →
      dev_reaches pairs root (device pr).

(** [pairs] describes an in-tree whose root device [root] is the one
    of slot 0. *)
Definition pairs_in_tree (root : Z) (pairs : list DevicePair) : Prop :=
  pairs !! 0%nat = Some (mkDevicePair (-1) root) ∧
  NoDup (device <$> pairs) ∧
  ∀ i pr, pairs !! i = Some pr → dev_reaches pairs root (device pr).

(** What holds of the coordinator between two steps of [Prepare]: every
    filled slot holds the replica of its pair, linked to the slot of its
    parent's device, and the children of a replica are, once each, the
    filled slots that name it as parent. *)
Record Prepare_inv (root : Z) (pairs : list DevicePair) (st : Coordinator)
  : Prop := mkPrepare_inv {
  inv_length : length (syncs st) = length pairs;
  inv_root : device_ (this st) = root;
  inv_slot : ∀ i n, (1 ≤ i)%nat → sync_at st i = Some n →
    ∃ pr p pn, pairs !! i = Some pr ∧ device_ n = device pr ∧
               parent_ n = Some p ∧ sync_at st p = Some pn ∧
               device_ pn = parent pr;
  inv_children : ∀ q qn, sync_at st q = Some qn →
    NoDup (children_ qn) ∧
    ∀ c, c ∈ children_ qn ↔
         (1 ≤ c)%nat ∧ ∃ n, sync_at st c = Some n ∧ parent_ n = Some q
}.

(** The slots after the first that are still empty. *)
Definition unfilled (st : Coordinator) : list nat :=
  filter (λ j, sync_at st j = None) (seq 1 (length (syncs st) - 1)).

(** [st'] has every replica [st] has, on the same device and with the
    same parent. *)
Definition grows (st st' : Coordinator) : Prop :=
  length (syncs st') = length (syncs st) ∧
  ∀ j n, sync_at st j = Some n →
         ∃ n', sync_at st' j = Some n' ∧ device_ n' = device_ n ∧
               parent_ n' = parent_ n.

(** Some replica already built is on device [d]. *)
Definition present (st : Coordinator) (d : Z) : Prop :=
  ∃ p pn, (p < length (syncs st))%nat ∧ sync_at st p = Some pn ∧ device_ pn = d.

Section Coordinator.

Variable rt : HipRuntime.

(** [P2PSync::Prepare(gpus, syncs)]. *)
Definition Prepare (gpus : list Z) (st : Coordinator) : outcome :=
  match compute rt gpus [] with
  | Err e => Abort e st
  | Ok pairs => Prepare_build pairs st
  end.

(** [syncs[i]->StartInternalThread()] and [syncs[i]->StopInternalThread()]. *)
Definition call_slot (ev : nat → event) (i : nat) (st : Coordinator) : outcome :=
  match sync_at st i with
  | Some _ => Done {| this := this st; syncs := syncs st;
                      trace := trace st ++ [ev i] |}
  | None => Abort NullPointer st
  end.

Definition root_Solve (st : Coordinator) : outcome :=
  Done {| this := this st; syncs := syncs st; trace := trace st ++ [Solve] |}.

(** [P2PSync::Run(gpus)], called on the root replica [root]. *)
Definition Run (root : P2PSync) (gpus : list Z) : outcome :=
  let st := {| this := root; syncs := replicate (length gpus) None; trace := [] |} in
  and_then (Prepare gpus st) (λ st,
  and_then (for_range (length (syncs st) - 1) 1 (call_slot StartInternalThread) st) (λ st,
  and_then (root_Solve st) (λ st,
  for_range (length (syncs st) - 1) 1 (call_slot StopInternalThread) st))).

End Coordinator.

(** The replicas of the coordinator as the gather round sees them: the
    root first, then the replicas of slots 1, 2, ... *)
Definition tree_of (st : Coordinator) : list P2PSync :=
  this st :: omap id (drop 1 (syncs st)).

(** * Part 4: the gradient gather round *)

Section Gather.

Context {Dtype : Type}.
Variable zero : Dtype.
Variable add : Dtype → Dtype → Dtype.
Variable mul : Dtype → Dtype → Dtype.

(** [Dtype(1.0 / n)]. *)
Variable recip : Z → Dtype.

(** [Caffe::solver_count()], a process-wide setting read by the root. *)
Variable solver_count : Z.

(** The tree built by [Prepare]: entry [r] is replica [r]; it is not
    changed by the per-step hooks. *)
Variable tree : list P2PSync.

(** [size_], the common length of every replica's buffers. *)
Variable size_ : nat.

(** Where a replica stands in [on_gradients_ready]: in its loop over the
    children with loop counter [i], or returned. *)
Inductive hook_state : Type :=
  | Reducing (i : nat)
  | Returned.

(** The part of a replica the hook reads and writes: its mailbox, the
    contents of its [diff_] buffer and of its [parent_grads_] buffer
    (which lives on the parent's device). *)
Record Replica : Type := mkReplica {
  queue_ : list nat;
  diff_ : list Dtype;
  parent_grads_ : list Dtype;
  progress : hook_state
}.

(** [caffe_gpu_add(n, a, b, y)]: [y[k] = a[k] + b[k]] for [k < n]. *)
Definition caffe_gpu_add (n : nat) (a b y : list Dtype) : list Dtype :=
  zip_with add (take n a) (take n b) ++ drop n y.

(** [caffe_gpu_scal(n, alpha, x)]: [x[k] = alpha * x[k]] for [k < n]. *)
Definition caffe_gpu_scal (n : nat) (alpha : Dtype) (x : list Dtype) : list Dtype :=
  (mul alpha <$> take n x) ++ drop n x.

(** [hipMemcpyAsync(dst, src, n * sizeof(Dtype), ...)] followed by
    [hipStreamSynchronize]. *)
Definition hipMemcpy (n : nat) (src dst : list Dtype) : list Dtype :=
  take n src ++ drop n dst.

Definition queue_push (x : nat) (me : Replica) : Replica :=
  {| queue_ := queue_ me ++ [x]; diff_ := diff_ me;
     parent_grads_ := parent_grads_ me; progress := progress me |}.

(** One atomic action of replica [r] inside [on_gradients_ready]:
    - one iteration of the loop over the children: [queue_.pop()], which
      blocks on an empty mailbox, then [caffe_gpu_add] of the popped
      child's [parent_grads_] into [diff_];
    - or, after the loop, the copy of [diff_] into [parent_grads_] and the
      push to the parent's mailbox; at the root, the scaling of [diff_].
    [None]: the replica cannot move (blocked in [pop], or returned). *)
Definition on_gradients_ready (r : nat) (cfg : list Replica) : option (list Replica) :=
  node ← tree !! r;
  me ← cfg !! r;
  match progress me with
  | Returned => None
  | Reducing i =>
      if bool_decide (i < length (children_ node))%nat then
        match queue_ me with
        | [] => None
        | child :: q =>
            ch ← cfg !! child;
            let src := parent_grads_ ch in
            let dst := diff_ me in
            Some (<[r := {| queue_ := q;
                            diff_ := caffe_gpu_add size_ src dst dst;
                            parent_grads_ := parent_grads_ me;
                            progress := Reducing (S i) |}]> cfg)
        end
      else
        match parent_ node with
        | Some p =>
            let sent := {| queue_ := queue_ me; diff_ := diff_ me;
                           parent_grads_ := hipMemcpy size_ (diff_ me) (parent_grads_ me);
                           progress := Returned |} in
            Some (alter (queue_push r) p (<[r := sent]> cfg))
        | None =>
            Some (<[r := {| queue_ := queue_ me;
                            diff_ := caffe_gpu_scal size_ (recip solver_count) (diff_ me);
                            parent_grads_ := parent_grads_ me;
                            progress := Returned |}]> cfg)
        end
  end.

(** The threads interleave: a schedule names the replica that moves
    next; a replica that cannot move is skipped. *)
Definition step (cfg : list Replica) (r : nat) : list Replica :=
  default cfg (on_gradients_ready r cfg).

Definition run (schedule : list nat) (cfg : list Replica) : list Replica :=
  foldl step cfg schedule.

(** Entry of the round: every replica enters the hook with an empty
    mailbox and its local gradient in [diff_]. *)
Definition enters (me : Replica) : Prop :=
  queue_ me = [] ∧ progress me = Reducing 0 ∧
  length (diff_ me) = size_ ∧ length (parent_grads_ me) = size_.

Definition round_complete (cfg : list Replica) : Prop :=
  Forall (λ me, progress me = Returned) cfg.

(** Element-wise sum of a list of vectors of length [size_]. *)
Definition vsum (vs : list (list Dtype)) : list Dtype :=
  foldr (zip_with add) (replicate size_ zero) vs.

(** [r] reaches [root] by following parent pointers. *)
Inductive reaches (root : nat) : nat → Prop :=
  | reaches_root : reaches root root
  | reaches_child c n p :
      tree !! c = Some n → parent_ n = Some p → reaches root p → reaches root c.

(** The in-tree of the data model: the root has no parent, every replica
    reaches the root, and a node's children are exactly the replicas
    whose parent it is. *)
Definition in_tree (root : nat) : Prop :=
  (∃ n, tree !! root = Some n ∧ parent_ n = None) ∧
  (∀ r, (r < length tree)%nat → reaches root r) ∧
  (∀ p n, tree !! p = Some n →
     NoDup (children_ n) ∧
     ∀ c, c ∈ children_ n ↔ ∃ m, tree !! c = Some m ∧ parent_ m = Some p).

(** The three actions of a replica. *)
Definition popped (me ch : Replica) (q : list nat) (i : nat) : Replica :=
  {| queue_ := q;
     diff_ := caffe_gpu_add size_ (parent_grads_ ch) (diff_ me) (diff_ me);
     parent_grads_ := parent_grads_ me;
     progress := Reducing (S i) |}.

Definition sent (me : Replica) : Replica :=
  {| queue_ := queue_ me; diff_ := diff_ me;
     parent_grads_ := hipMemcpy size_ (diff_ me) (parent_grads_ me);
     progress := Returned |}.

Definition scaled (me : Replica) : Replica :=
  {| queue_ := queue_ me;
     diff_ := caffe_gpu_scal size_ (recip solver_count) (diff_ me);
     parent_grads_ := parent_grads_ me;
     progress := Returned |}.

(** Bookkeeping for the round.  The gradients still on their way to the
    root: the [diff_] of every replica that has not returned, and the
    [parent_grads_] of every replica waiting in a mailbox. *)
Definition live (me : Replica) : list (list Dtype) :=
  match progress me with
  | Reducing _ => [diff_ me]
  | Returned => []
  end.

Definition inbox (cfg : list Replica) (me : Replica) : list (list Dtype) :=
  omap (λ c, parent_grads_ <$> cfg !! c) (queue_ me).

Definition mass (cfg : list Replica) : list (list Dtype) :=
  (cfg ≫= live) ++ (cfg ≫= inbox cfg).

Definition is_returned (cfg : list Replica) (c : nat) : bool :=
  match cfg !! c with
  | Some cm => match progress cm with Returned => true | Reducing _ => false end
  | None => false
  end.

Definition returned_count (cfg : list Replica) (l : list nat) : nat :=
  length (filter (λ c, is_returned cfg c = true) l).

(** The depth of a replica in the tree. *)
Inductive depth_is (root : nat) : nat → nat → Prop :=
  | depth_root : depth_is root root 0
  | depth_child c n p k :
      tree !! c = Some n → parent_ n = Some p → depth_is root p k →
      depth_is root c (S k).

(** The actions a replica still has to take in this round. *)
Definition work_of (node : P2PSync) (me : Replica) : nat :=
  match progress me with
  | Reducing i => S (length (children_ node) - i)
  | Returned => 0
  end.

Definition work (cfg : list Replica) : nat :=
  sum_list (zip_with work_of tree cfg).

(** What every reachable configuration of the round satisfies. *)
Record Gather_inv (cfg : list Replica) : Prop := mkGather_inv {
  ginv_length : length cfg = length tree;
  ginv_buffers : ∀ r me, cfg !! r = Some me →
    length (diff_ me) = size_ ∧ length (parent_grads_ me) = size_;
  ginv_queue : ∀ r me c, cfg !! r = Some me → c ∈ queue_ me →
    is_returned cfg c = true ∧ ∃ cn, tree !! c = Some cn ∧ parent_ cn = Some r;
  ginv_reducing : ∀ r me node i,
    cfg !! r = Some me → tree !! r = Some node → progress me = Reducing i →
    (i + length (queue_ me))%nat = returned_count cfg (children_ node);
  ginv_returned : ∀ r me node,
    cfg !! r = Some me → tree !! r = Some node → progress me = Returned →
    queue_ me = [] ∧ ∀ c, c ∈ children_ node → is_returned cfg c = true
}.

End Gather.

(** * Part 5: the parameter broadcast round *)

(** [P2PSync::on_start], the hook a solver calls at the start of every
    iteration, in the build without [DEBUG]: a replica waits for its
    parent's push, then copies its [data_] into the [data_] of each of its
    children, last child first, and pushes itself to that child's
    mailbox.  As for the gather round, the threads interleave and the
    model has one atomic action per blocking call or loop iteration. *)
Module Broadcast.
Section Start.

Context {Dtype : Type}.

(** The tree built by [Prepare], and [size_]. *)
Variable tree : list P2PSync.
Variable size_ : nat.

(** Where a replica stands in [on_start]: before the wait for its
    parent, in the loop over its children with loop counter [i] (an
    [int] that counts down), or returned. *)
Inductive hook_state : Type :=
  | Waiting
  | Updating (i : Z)
  | Returned.

(** The part of a replica the hook reads and writes: its mailbox and
    the contents of its [data_] buffer. *)
Record Replica : Type := mkReplica {
  queue_ : list nat;
  data_ : list Dtype;
  progress : hook_state
}.

(** [int i = children_.size() - 1]: the subtraction is done in
    [size_t], the result converted to [int]. *)
Definition first_index (node : P2PSync) : Z :=
  to_int (to_size_t (Z.of_nat (length (children_ node)) - 1)).

(** What a child sees of one iteration of its parent's loop:
    [hipMemcpyAsync(dst, src, size_ * sizeof(Dtype), ...)] into its
    [data_], [hipStreamSynchronize], and [queue_.push(this)].  The two
    HIP calls are taken to succeed; the child does not look at its
    [data_] before it has popped the push. *)
Definition receive (p : nat) (src : list Dtype) (ch : Replica) : Replica :=
  {| queue_ := queue_ ch ++ [p];
     data_ := hipMemcpy size_ src (data_ ch);
     progress := progress ch |}.

(** One atomic action of replica [r] inside [on_start]:
    - the wait: [queue_.pop()], which blocks on an empty mailbox, and
      [CHECK(parent == parent_)]; the root does not wait;
    - one iteration of the loop over the children;
    - the exit of the loop.
    [Ok None]: the replica cannot move (blocked in [pop], or returned). *)
Definition on_start (r : nat) (cfg : list Replica)
  : result (option (list Replica)) :=
  match tree !! r, cfg !! r with
  | Some node, Some me =>
      match progress me with
      | Waiting =>
          match parent_ node with
          | Some p =>
              match queue_ me with
              | [] => Ok None
              | parent :: q =>
                  _ ← CHECK (bool_decide (parent = p));
                  Ok (Some (<[r := {| queue_ := q; data_ := data_ me;
                                      progress := Updating (first_index node) |}]> cfg))
              end
          | None =>
              Ok (Some (<[r := {| queue_ := queue_ me; data_ := data_ me;
                                  progress := Updating (first_index node) |}]> cfg))
          end
      | Updating i =>
          if bool_decide (0 ≤ i) then
            c ← vec_at (children_ node) (Z.to_nat i);
            match cfg !! c with
            | Some _ =>
                Ok (Some (alter (receive r (data_ me)) c
                            (<[r := {| queue_ := queue_ me; data_ := data_ me;
                                       progress := Updating (i - 1) |}]> cfg)))
            | None => Err NullPointer
            end
          else
            Ok (Some (<[r := {| queue_ := queue_ me; data_ := data_ me;
                                progress := Returned |}]> cfg))
      | Returned => Ok None
      end
  | _, _ => Ok None
  end.

(** The threads interleave: a schedule names the replica that moves
    next; a replica that cannot move is skipped; a failed [CHECK] ends
    the run. *)
Definition step (cfg : list Replica) (r : nat) : result (list Replica) :=
  o ← on_start r cfg; Ok (default cfg o).

Fixpoint run (schedule : list nat) (cfg : list Replica) : result (list Replica) :=
  match schedule with
  | [] => Ok cfg
  | r :: rest => cfg' ← step cfg r; run rest cfg'
  end.

(** Entry of the round: every replica enters the hook with an empty
    mailbox. *)
Definition enters (me : Replica) : Prop :=
  queue_ me = [] ∧ progress me = Waiting ∧ length (data_ me) = size_.

Definition round_complete (cfg : list Replica) : Prop :=
  Forall (λ me, progress me = Returned) cfg.

(** The parent [pm] has pushed to its child number [j]. *)
Definition served (pm : Replica) (j : nat) : bool :=
  match progress pm with
  | Waiting => false
  | Updating i => bool_decide (i < Z.of_nat j)
  | Returned => true
  end.

(** What every reachable configuration of the round satisfies, [D]
    being the root's parameters. *)
Record Start_inv (D : list Dtype) (cfg : list Replica) : Prop := mkStart_inv {
  sinv_length : length cfg = length tree;
  sinv_buffers : ∀ r me, cfg !! r = Some me → length (data_ me) = size_;
  sinv_data : ∀ r me node, cfg !! r = Some me → tree !! r = Some node →
    parent_ node = None ∨ progress me ≠ Waiting ∨ queue_ me ≠ [] → data_ me = D;
  sinv_queue : ∀ r me node, cfg !! r = Some me → tree !! r = Some node →
    queue_ me = [] ∨
    (progress me = Waiting ∧ ∃ p, parent_ node = Some p ∧ queue_ me = [p]);
  sinv_index : ∀ r me node i, cfg !! r = Some me → tree !! r = Some node →
    progress me = Updating i → -1 ≤ i < Z.of_nat (length (children_ node));
  sinv_child : ∀ p pm pnode j c cm,
    cfg !! p = Some pm → tree !! p = Some pnode →
    children_ pnode !! j = Some c → cfg !! c = Some cm →
    if served pm j then progress cm ≠ Waiting ∨ queue_ cm = [p]
    else progress cm = Waiting ∧ queue_ cm = []
}.

(** The actions a replica still has to take in this round. *)
Definition work_of (node : P2PSync) (me : Replica) : nat :=
  match progress me with
  | Waiting => length (children_ node) + 2
  | Updating i => Z.to_nat (i + 2)
  | Returned => 0
  end.

Definition work (cfg : list Replica) : nat :=
  sum_list (zip_with work_of tree cfg).

End Start.
End Broadcast.

(** * Example inputs *)

(** A tensor of [n] elements holding [vs] on the host side. *)
Definition ex_blob (n : Z) (vs : list Z) : Blob Z :=
  {| count := n;
     data := {| cpu_ptr_ := 0; gpu_ptr_ := 0; cpu_data := vs |};
     diff := {| cpu_ptr_ := 0; gpu_ptr_ := 0; cpu_data := [] |} |}.

Definition ex_blobs : list (Blob Z) :=
  [ex_blob 3 [7; 8; 9]; ex_blob 0 []; ex_blob 2 [4; 5]].

(** Four devices, every pair of different devices peer-accessible. *)
Definition ex_rt : HipRuntime :=
  {| device_count := 4; heap_limit := 4096;
     hipDeviceCanAccessPeer := λ a b, Some (bool_decide (a ≠ b));
     hipGetDeviceProperties := λ _, true |}.

(** Devices without any peer-to-peer link. *)
Definition ex_rt_no_p2p : HipRuntime :=
  {| device_count := 4; heap_limit := 4096;
     hipDeviceCanAccessPeer := λ _ _, Some false;
     hipGetDeviceProperties := λ _, true |}.

Definition ex_solver : @Hip.Solver Z :=
  {| Hip.param := {| device_id := 0; max_iter := 100; random_seed := -1 |};
     Hip.learnable_params := ex_blobs; Hip.iter := 0; Hip.callbacks := [] |}.

Definition ex_state : @Hip.HipState Z :=
  {| Hip.current_device := 0; Hip.device_memory := ∅; Hip.next_free := 16;
     Hip.allocations := []; Hip.peer_enabled := [] |}.

(** A worker solver with a net of the same shape as the root's. *)
Definition ex_WorkerSolver (prm : SolverParameter) (root : @Hip.Solver Z)
  : @Hip.hip Z (@Hip.Solver Z) := λ s,
  Ok ({| Hip.param := prm; Hip.learnable_params := Hip.learnable_params root;
         Hip.iter := Hip.iter root; Hip.callbacks := [] |}, s).

(** The root replica, on device 0, before [Prepare]. *)
Definition ex_root : P2PSync :=
  {| device_ := 0; parent_ := None; children_ := [] |}.

(** Four replicas: 1 and 2 below the root 0, and 3 below 1. *)
Definition ex_tree : list P2PSync :=
  [ {| device_ := 0; parent_ := None; children_ := [1; 2]%nat |};
    {| device_ := 1; parent_ := Some 0%nat; children_ := [3%nat] |};
    {| device_ := 2; parent_ := Some 0%nat; children_ := [] |};
    {| device_ := 3; parent_ := Some 1%nat; children_ := [] |} ].

Definition qc (z : Z) : Qc := Q2Qc (inject_Z z).

(** [Dtype(1.0 / n)] in exact arithmetic. *)
Definition qc_recip (n : Z) : Qc := Qcinv (qc n).

(** A replica entering the hook with the local gradient [g]; its
    [parent_grads_] buffer holds whatever the last round left there. *)
Definition ex_replica (g stale : list Z) : @Replica Qc :=
  {| queue_ := []; diff_ := qc <$> g; parent_grads_ := qc <$> stale;
     progress := Reducing 0 |}.

Definition ex_cfg0 : list (@Replica Qc) :=
  [ ex_replica [1; 2] [0; 0]; ex_replica [10; 20] [5; 5];
    ex_replica [100; 200] [6; 6]; ex_replica [1000; 2000] [7; 7] ].

(** The root is tried first and finds its mailbox empty; replica 2 sends
    before replica 1, so the root pops 2 first. *)
Definition ex_schedule : list nat := [0; 2; 0; 3; 1; 1; 0; 0]%nat.

(** Four replicas entering [on_start]: the root holds the parameters
    [1, 2], the others hold what the last iteration left. *)
Definition ex_start_replica (d : list Z) : @Broadcast.Replica Z :=
  {| Broadcast.queue_ := []; Broadcast.data_ := d;
     Broadcast.progress := Broadcast.Waiting |}.

Definition ex_start_cfg0 : list (@Broadcast.Replica Z) :=
  [ ex_start_replica [1; 2]; ex_start_replica [0; 0];
    ex_start_replica [5; 5]; ex_start_replica [7; 7] ].

(** Replica 1 is tried first and finds its mailbox empty; the root
    serves replica 2 before replica 1. *)
Definition ex_start_schedule : list nat :=
  [1; 0; 0; 2; 0; 0; 1; 1; 2; 3; 1; 3]%nat.

(** * Properties *)

(** ** The error monad *)

Lemma bind_Ok {A B} (f : A → result B) (m : result A) (b : B) :
  m ≫= f = Ok b ↔ ∃ a, m = Ok a ∧ f a = Ok b.
Proof.
  destruct m as [a|e]; simpl; split.
  - intros H. by exists a.
  - by intros (a' & [= <-] & H).
  - intros H. discriminate H.
  - by intros (a' & [=] & _).
Qed.

Lemma CHECK_Ok (b : bool) (u : unit) : CHECK b = Ok u ↔ b = true.
Proof. destruct b, u; simpl; split; congruence. Qed.

(** ** Part 1: the flat buffer manager *)

Section BufferFacts.

Context {Dtype : Type}.
Implicit Types (blobs : list (Blob Dtype)) (mem : gmap Z Dtype).

Lemma sum_counts_range blobs :
  Forall count_in_range blobs →
  0 ≤ sum_counts blobs ≤ Z.of_nat (length blobs) * INT_MAX.
Proof.
  unfold sum_counts, count_in_range.
  induction 1 as [|b bs Hb _ IH]; simpl; [lia|]. nia.
Qed.

Lemma sum_counts_zero blobs :
  Forall count_in_range blobs →
  (sum_counts blobs = 0 ↔ Forall (λ b, count b = 0) blobs).
Proof.
  intros Hwf. induction Hwf as [|b bs Hb Hbs IH].
  - split; [constructor|done].
  - pose proof (sum_counts_range bs Hbs) as Hr.
    unfold count_in_range in Hb. change (sum_counts (b :: bs)) with (count b + sum_counts bs).
    rewrite Forall_cons. split.
    + intros H. split; [lia|]. apply IH. lia.
    + intros [H0 H]. apply IH in H. lia.
Qed.

(** The [size_t] accumulator of [total_size] never wraps. *)
Lemma total_size_accumulator blobs acc :
  Forall count_in_range blobs →
  0 ≤ acc → acc + Z.of_nat (length blobs) * INT_MAX < SIZE_MODULUS →
  fold_left (λ size b, to_size_t (size + count b)) blobs acc
  = acc + sum_counts blobs.
Proof.
  intros Hwf. revert acc.
  induction Hwf as [|b bs Hb Hbs IH]; intros acc Hacc Hlt; simpl.
  - unfold sum_counts. simpl. lia.
  - unfold count_in_range in Hb.
    change (sum_counts (b :: bs)) with (count b + sum_counts bs).
    rewrite length_cons, Nat2Z.inj_succ in Hlt.
    assert (0 ≤ INT_MAX) by (unfold INT_MAX; lia).
    unfold to_size_t at 2. rewrite Z.mod_small by nia.
    rewrite IH by nia. lia.
Qed.

Lemma INT_MAX_squared : INT_MAX * INT_MAX < SIZE_MODULUS.
Proof. unfold INT_MAX, SIZE_MODULUS. lia. Qed.

Lemma total_size_max blobs :
  Forall count_in_range blobs →
  Z.of_nat (length blobs) ≤ INT_MAX →
  total_size blobs = Z.max 1 (sum_counts blobs).
Proof.
  intros Hwf Hlen. unfold total_size.
  pose proof INT_MAX_squared. pose proof (sum_counts_range blobs Hwf).
  assert (0 ≤ INT_MAX) by (unfold INT_MAX; lia).
  rewrite total_size_accumulator by (try done; nia).
  case_decide; lia.
Qed.

(** The walk of [apply_buffers]: final pointer, and the blob list. *)
Lemma apply_buffers_loop_ptr blobs ptr op mem :
  (apply_buffers_loop blobs ptr op mem).2 = ptr + sum_counts blobs.
Proof.
  revert ptr mem. induction blobs as [|b bs IH]; intros ptr mem; simpl.
  - unfold sum_counts. simpl. lia.
  - change (sum_counts (b :: bs)) with (count b + sum_counts bs).
    destruct op; simpl;
      match goal with
      | |- context [apply_buffers_loop bs ?p ?o ?m] =>
          specialize (IH p m); destruct (apply_buffers_loop bs p o m) as [[??]?]
      end; simpl in *; lia.
Qed.

Lemma apply_buffers_loop_length blobs ptr op mem :
  length (apply_buffers_loop blobs ptr op mem).1.1 = length blobs.
Proof.
  revert ptr mem. induction blobs as [|b bs IH]; intros ptr mem; simpl; [done|].
  destruct op; simpl;
    match goal with
    | |- context [apply_buffers_loop bs ?p ?o ?m] =>
        specialize (IH p m); destruct (apply_buffers_loop bs p o m) as [[??]?]
    end; simpl in *; lia.
Qed.

Lemma apply_buffers_loop_rebind blobs ptr op mem i b' :
  is_rebind op = true →
  (apply_buffers_loop blobs ptr op mem).1.1 !! i = Some b' →
  storage_ptr op b' = ptr + sum_counts (take i blobs).
Proof.
  intros Hop. revert ptr mem i.
  induction blobs as [|b bs IH]; intros ptr mem i; simpl; [done|].
  destruct op; try discriminate Hop; simpl;
    match goal with
    | |- context [apply_buffers_loop bs ?p ?o ?m] =>
        specialize (IH p m); destruct (apply_buffers_loop bs p o m) as [[??]?]
    end; simpl in *;
    (destruct i as [|i]; simpl;
     [ intros [= <-]; unfold sum_counts; simpl; lia
     | intros Hi; apply IH in Hi; rewrite Hi;
       change (sum_counts (b :: take i bs)) with (count b + sum_counts (take i bs)); lia ]).
Qed.

Lemma apply_buffers_Ok blobs buffer total op mem r :
  apply_buffers blobs buffer total op mem = Ok r ↔
  r = (apply_buffers_loop blobs buffer op mem).1 ∧
  total = to_size_t (if decide (sum_counts blobs = 0) then 1 else sum_counts blobs).
Proof.
  unfold apply_buffers.
  pose proof (apply_buffers_loop_ptr blobs buffer op mem) as Hptr.
  destruct (apply_buffers_loop blobs buffer op mem) as [[bs' mem'] ptr].
  simpl in Hptr. subst ptr. simpl.
  replace (buffer + sum_counts blobs - buffer) with (sum_counts blobs) by lia.
  assert ((if decide (buffer + sum_counts blobs = buffer) then 1 else sum_counts blobs)
          = (if decide (sum_counts blobs = 0) then 1 else sum_counts blobs)) as ->.
  { do 2 case_decide; lia. }
  case_bool_decide as Hc; simpl; split.
  - intros [= <-]. done.
  - intros [-> _]. done.
  - discriminate.
  - intros [_ ?]. done.
Qed.

End BufferFacts.

Section MemoryFacts.

Context {Dtype : Type}.
Implicit Types (blobs : list (Blob Dtype)) (mem : gmap Z Dtype) (vs : list Dtype).

Lemma write_array_lookup dst vs mem a :
  write_array dst vs mem !! a =
  if decide (dst ≤ a < dst + Z.of_nat (length vs))
  then vs !! Z.to_nat (a - dst) else mem !! a.
Proof.
  revert dst mem. induction vs as [|v vs IH]; intros dst mem; cbn [write_array].
  - simpl. case_decide; [lia|done].
  - rewrite IH. rewrite length_cons, Nat2Z.inj_succ.
    destruct (decide (a = dst)) as [->|Hne].
    + rewrite decide_False by lia. rewrite decide_True by lia.
      rewrite lookup_insert_eq. by replace (Z.to_nat (dst - dst)) with O by lia.
    + rewrite lookup_insert_ne by done.
      destruct (decide (dst + 1 ≤ a < dst + 1 + Z.of_nat (length vs))).
      * rewrite decide_True by lia.
        replace (Z.to_nat (a - dst)) with (S (Z.to_nat (a - (dst + 1)))) by lia. done.
      * rewrite decide_False by lia. done.
Qed.

Lemma host_values_length blobs :
  Forall Blob_wf blobs →
  Z.of_nat (length (host_values blobs)) = sum_counts blobs.
Proof.
  induction 1 as [|b bs [_ Hb] _ IH]; [done|].
  change (sum_counts (b :: bs)) with (count b + sum_counts bs).
  change (host_values (b :: bs)) with (cpu_data (data b) ++ host_values bs).
  rewrite length_app. lia.
Qed.

(** With [copy], the walk leaves the blobs alone and lays their host
    values out one after the other from [ptr] on. *)
Lemma apply_buffers_loop_copy blobs ptr mem :
  Forall Blob_wf blobs →
  (apply_buffers_loop blobs ptr copy mem).1.1 = blobs ∧
  ∀ a, (apply_buffers_loop blobs ptr copy mem).1.2 !! a =
       if decide (ptr ≤ a < ptr + sum_counts blobs)
       then host_values blobs !! Z.to_nat (a - ptr) else mem !! a.
Proof.
  intros Hwf. revert ptr mem.
  induction Hwf as [|b bs Hb Hbs IH]; intros ptr mem.
  - simpl. split; [done|]. intros a. unfold sum_counts. simpl. case_decide; [lia|done].
  - simpl. specialize (IH (ptr + count b) (caffe_copy (count b) (cpu_data (data b)) ptr mem)).
    destruct (apply_buffers_loop bs _ copy _) as [[bs' mem'] p'] eqn:E.
    simpl in *. destruct IH as [-> IH]. split; [done|]. intros a.
    rewrite IH. clear IH E.
    change (sum_counts (b :: bs)) with (count b + sum_counts bs).
    change (host_values (b :: bs)) with (cpu_data (data b) ++ host_values bs).
    destruct Hb as [Hr Hlen]. unfold count_in_range in Hr.
    pose proof (sum_counts_range bs (Forall_impl _ _ _ Hbs (λ _ H, proj1 H))) as Hs.
    unfold caffe_copy. rewrite write_array_lookup.
    rewrite take_ge by lia. rewrite Hlen.
    repeat case_decide; try lia.
    + rewrite lookup_app_r by lia. f_equal. lia.
    + rewrite lookup_app_l by lia. done.
    + done.
Qed.

Lemma read_array_lookup mem src n (k : nat) :
  read_array mem src n !! k =
  if decide (k < n)%nat then Some (mem !! (src + Z.of_nat k)) else None.
Proof.
  unfold read_array. rewrite list_lookup_fmap.
  case_decide.
  - rewrite lookup_seq_lt by done. done.
  - rewrite lookup_seq_ge by lia. done.
Qed.

End MemoryFacts.

(** ** Part 1: constructors over the HIP runtime *)

Section HipFacts.

Context {Dtype : Type}.
Variable zero : Dtype.
Variable rt : HipRuntime.
Variable WorkerSolver :
  SolverParameter → @Hip.Solver Dtype → @Hip.hip Dtype (@Hip.Solver Dtype).

#[local] Existing Instance Hip.hip_bind.
#[local] Existing Instance Hip.hip_ret.

Implicit Types (s : @Hip.HipState Dtype).

Lemma hip_bind_Ok {A B} (m : Hip.hip A) (f : A → Hip.hip B) s r :
  (m ≫= f) s = Ok r ↔ ∃ a s1, m s = Ok (a, s1) ∧ f a s1 = Ok r.
Proof.
  unfold mbind, Hip.hip_bind. destruct (m s) as [[a s1]|e]; split.
  - intros H. by exists a, s1.
  - by intros (? & ? & [= <- <-] & H).
  - discriminate.
  - by intros (? & ? & [=] & _).
Qed.

Lemma hip_ret_Ok {A} (a : A) s r :
  (mret a : Hip.hip A) s = Ok r ↔ r = (a, s).
Proof. unfold mret, Hip.hip_ret. split; congruence. Qed.

Lemma hipGetDevice_Ok s d s1 :
  Hip.hipGetDevice s = Ok (d, s1) → d = Hip.current_device s ∧ s1 = s.
Proof. unfold Hip.hipGetDevice. by intros [= <- <-]. Qed.

Lemma hipSetDevice_Ok d s u s1 :
  Hip.hipSetDevice rt d s = Ok (u, s1) →
  Hip.current_device s1 = d ∧
  Hip.device_memory s1 = Hip.device_memory s ∧
  Hip.next_free s1 = Hip.next_free s.
Proof. unfold Hip.hipSetDevice. case_bool_decide; [|done]. by intros [= <- <-]. Qed.

Lemma hipMalloc_Ok n s p s1 :
  Hip.hipMalloc rt n s = Ok (p, s1) →
  p = Hip.next_free s ∧
  Hip.next_free s1 = Hip.next_free s + n ∧
  Hip.device_memory s1 = Hip.device_memory s ∧
  Hip.current_device s1 = Hip.current_device s.
Proof. unfold Hip.hipMalloc. case_bool_decide; [|done]. by intros [= <- <-]. Qed.

Lemma apply_buffers_hip_Ok blobs buffer total op s blobs' s1 :
  Hip.apply_buffers_hip blobs buffer total op s = Ok (blobs', s1) →
  ∃ mem', apply_buffers blobs buffer total op (Hip.device_memory s) = Ok (blobs', mem') ∧
          s1 = Hip.set_memory mem' s.
Proof.
  unfold Hip.apply_buffers_hip. intros H.
  apply bind_Ok in H as ([bs mem'] & H1 & [= <- <-]). eauto.
Qed.

Lemma gpu_set_Ok n alpha dst s u s1 :
  Hip.gpu_set n alpha dst s = Ok (u, s1) →
  s1 = Hip.set_memory (caffe_gpu_set n alpha dst (Hip.device_memory s)) s.
Proof. unfold Hip.gpu_set. by intros [= <-]. Qed.

(** Inversion of a successful run of a sequence of runtime calls. *)
Ltac hip_inv H :=
  repeat (apply hip_bind_Ok in H as (? & ? & ? & H); cbv beta in H);
  try apply hip_ret_Ok in H.

(** Every function that rebinds the active device reads it first and
    sets it back last. *)
Lemma GPUParams_ctor_device root_solver dev s this s' :
  Hip.GPUParams_ctor zero rt root_solver dev s = Ok (this, s') →
  Hip.current_device s' = Hip.current_device s.
Proof.
  unfold Hip.GPUParams_ctor. intros H.
  apply hip_bind_Ok in H as (d0 & s0 & Hget & H). cbv beta zeta in H.
  apply hipGetDevice_Ok in Hget as [-> ->].
  hip_inv H. injection H as -> ->.
  match goal with
  | Hset : Hip.hipSetDevice rt (Hip.current_device s) _ = Ok (_, ?s2) |- _ =>
      by apply hipSetDevice_Ok in Hset as [? _]
  end.
Qed.

Lemma hipFree_device p s u s1 :
  Hip.hipFree p s = Ok (u, s1) → Hip.current_device s1 = Hip.current_device s.
Proof.
  unfold Hip.hipFree. repeat case_bool_decide; try done; by intros [= <- <-].
Qed.

Lemma GPUParams_dtor_device this s u s' :
  Hip.GPUParams_dtor this s = Ok (u, s') →
  Hip.current_device s' = Hip.current_device s.
Proof.
  unfold Hip.GPUParams_dtor. intros H.
  apply hip_bind_Ok in H as (? & s1 & H1 & H2).
  apply hipFree_device in H1, H2. congruence.
Qed.

Lemma P2PSync_ctor_device root_solver parent prm s this s' :
  Hip.P2PSync_ctor zero rt WorkerSolver root_solver parent prm s = Ok (this, s') →
  Hip.current_device s' = Hip.current_device s.
Proof.
  unfold Hip.P2PSync_ctor. intros H.
  apply hip_bind_Ok in H as (b & s0 & Hbase & H). cbv beta zeta in H.
  apply GPUParams_ctor_device in Hbase.
  apply hip_bind_Ok in H as (d0 & s1 & Hget & H). cbv beta zeta in H.
  apply hipGetDevice_Ok in Hget as [-> ->].
  hip_inv H. injection H as -> ->.
  match goal with
  | Hset : Hip.hipSetDevice rt (Hip.current_device s0) _ = Ok (_, ?s2) |- _ =>
      apply hipSetDevice_Ok in Hset as [-> _]
  end.
  done.
Qed.

Lemma P2PSync_dtor_device this s u s' :
  Hip.P2PSync_dtor rt this s = Ok (u, s') →
  Hip.current_device s' = Hip.current_device s.
Proof.
  unfold Hip.P2PSync_dtor. intros H.
  apply hip_bind_Ok in H as (d0 & s0 & Hget & H). cbv beta zeta in H.
  apply hipGetDevice_Ok in Hget as [-> ->].
  apply hip_bind_Ok in H as (? & s1 & _ & H). cbv beta in H.
  apply hip_bind_Ok in H as (? & s2 & _ & H). cbv beta in H.
  apply hip_bind_Ok in H as (? & s3 & Hset & H). cbv beta in H.
  apply hipSetDevice_Ok in Hset as [Hset _].
  apply GPUParams_dtor_device in H. congruence.
Qed.

End HipFacts.

Section ConstructorBuffers.

Context {Dtype : Type}.
Variable zero : Dtype.
Variable rt : HipRuntime.

#[local] Existing Instance Hip.hip_bind.
#[local] Existing Instance Hip.hip_ret.

(** What the [GPUParams] constructor leaves in device memory. *)
Lemma GPUParams_ctor_memory (root_solver : @Hip.Solver Dtype) dev s this s' :
  Hip.GPUParams_ctor zero rt root_solver dev s = Ok (this, s') →
  let net := Hip.learnable_params root_solver in
  Hip.size_ this = total_size net ∧
  Hip.data_ this = Hip.next_free s ∧
  Hip.diff_ this = Hip.next_free s + total_size net ∧
  Hip.device_memory s' =
    caffe_gpu_set (total_size net) zero (Hip.diff_ this)
      (apply_buffers_loop net (Hip.data_ this) copy (Hip.device_memory s)).1.2.
Proof.
  unfold Hip.GPUParams_ctor. intros H.
  apply hip_bind_Ok in H as (d0 & s0 & Hget & H). cbv beta zeta in H.
  apply hipGetDevice_Ok in Hget as [-> ->].
  apply hip_bind_Ok in H as (? & s1 & Hset1 & H). cbv beta in H.
  apply (hipSetDevice_Ok rt) in Hset1 as (_ & Hm1 & Hn1).
  apply hip_bind_Ok in H as (data & s2 & Hmalloc1 & H). cbv beta in H.
  apply (hipMalloc_Ok rt) in Hmalloc1 as (-> & Hn2 & Hm2 & _).
  apply hip_bind_Ok in H as (? & s3 & Hcopy & H). cbv beta in H.
  apply apply_buffers_hip_Ok in Hcopy as (mem' & Hcopy & ->).
  apply apply_buffers_Ok in Hcopy as [Hcopy _].
  apply hip_bind_Ok in H as (diff & s4 & Hmalloc2 & H). cbv beta in H.
  apply (hipMalloc_Ok rt) in Hmalloc2 as (-> & _ & Hm4 & _).
  apply hip_bind_Ok in H as (? & s5 & Hzero & H). cbv beta in H.
  apply gpu_set_Ok in Hzero as ->.
  apply hip_bind_Ok in H as (? & s6 & Hset2 & H). cbv beta in H.
  apply (hipSetDevice_Ok rt) in Hset2 as (_ & Hm6 & _).
  apply hip_ret_Ok in H. injection H as -> ->.
  simpl in *. rewrite Hm2, Hm1, Hn1 in Hcopy. rewrite Hm6, Hm4, Hn2, Hn1.
  repeat split; try done.
  f_equal. by rewrite <- Hcopy.
Qed.

End ConstructorBuffers.

(** ** Claims about the flat buffer manager *)

(** C6. After [apply_buffers] has run with a rebind operation
    ([replace_cpu], [replace_gpu], [replace_cpu_diff], [replace_gpu_diff])
    over [buffer], the storage pointer of the i-th tensor is [buffer]
    plus the sum of the element counts of tensors 0..i-1, for every i. *)
Theorem apply_buffers_rebinds_storage {Dtype : Type}
    (blobs : list (Blob Dtype)) (buffer total : Z) (op : Op)
    (mem : gmap Z Dtype) (blobs' : list (Blob Dtype)) (mem' : gmap Z Dtype) :
  is_rebind op = true →
  apply_buffers blobs buffer total op mem = Ok (blobs', mem') →
  length blobs' = length blobs ∧
  ∀ i b', blobs' !! i = Some b' →
          storage_ptr op b' = buffer + sum_counts (take i blobs).
Proof.
  intros Hop H. apply apply_buffers_Ok in H as [H _].
  assert (blobs' = (apply_buffers_loop blobs buffer op mem).1.1) as ->
    by (by rewrite <- H).
  split.
  - apply apply_buffers_loop_length.
  - intros i b' Hi. by eapply apply_buffers_loop_rebind.
Qed.

Lemma apply_buffers_rebinds_storage_witness :
  is_rebind replace_gpu_diff = true ∧
  ∃ blobs',
    apply_buffers ex_blobs 100 5 replace_gpu_diff ∅ = Ok (blobs', ∅) ∧
    length blobs' = length ex_blobs ∧
    ∀ i b', blobs' !! i = Some b' →
            storage_ptr replace_gpu_diff b' = 100 + sum_counts (take i ex_blobs).
Proof.
  split; [reflexivity|]. eexists. split; [vm_compute; reflexivity|].
  apply (apply_buffers_rebinds_storage ex_blobs 100 5 replace_gpu_diff ∅ _ ∅);
    [reflexivity | vm_compute; reflexivity].
Defined.

(** C7. The flat buffer length computed for a tensor list is
    [max(1, sum of the element counts)]; it is 1 when the list is empty
    or all counts are zero. *)
Theorem total_size_is_max_1_sum {Dtype : Type} (params : list (Blob Dtype)) :
  Forall count_in_range params →
  Z.of_nat (length params) ≤ INT_MAX →
  total_size params = Z.max 1 (sum_counts params) ∧
  (params = [] ∨ Forall (λ b, count b = 0) params → total_size params = 1).
Proof.
  intros Hwf Hlen. pose proof (total_size_max params Hwf Hlen) as Hmax.
  split; [done|]. intros H. rewrite Hmax.
  assert (sum_counts params = 0) as ->; [|done].
  apply sum_counts_zero; [done|]. destruct H as [->|H]; [constructor|done].
Qed.

Lemma total_size_is_max_1_sum_witness :
  Forall count_in_range ex_blobs ∧
  Z.of_nat (length ex_blobs) ≤ INT_MAX ∧
  total_size ex_blobs = Z.max 1 (sum_counts ex_blobs) ∧
  total_size ex_blobs = 5.
Proof.
  assert (Forall count_in_range ex_blobs) as Hwf.
  { repeat constructor; vm_compute; congruence. }
  assert (Z.of_nat (length ex_blobs) ≤ INT_MAX) as Hlen by (vm_compute; congruence).
  split; [exact Hwf|]. split; [exact Hlen|]. split.
  - exact (proj1 (total_size_is_max_1_sum ex_blobs Hwf Hlen)).
  - rewrite (proj1 (total_size_is_max_1_sum ex_blobs Hwf Hlen)). reflexivity.
Defined.

(** C8, as the code has it.  [apply_buffers] completes exactly when
    [total] is the sum of the element counts and that sum is not zero, or
    [total = 1] and the sum is zero (an empty list, or only empty
    tensors); every other [total] aborts. *)
Theorem apply_buffers_completes_iff {Dtype : Type}
    (blobs : list (Blob Dtype)) (buffer total : Z) (op : Op) (mem : gmap Z Dtype) :
  Forall count_in_range blobs →
  Z.of_nat (length blobs) ≤ INT_MAX →
  0 ≤ total < SIZE_MODULUS →
  is_Ok (apply_buffers blobs buffer total op mem) ↔
  (sum_counts blobs = total ∧ total ≠ 0) ∨ (total = 1 ∧ sum_counts blobs = 0).
Proof.
  intros Hwf Hlen Htotal.
  pose proof (sum_counts_range blobs Hwf) as Hr. pose proof INT_MAX_squared as Hsq.
  assert (0 ≤ INT_MAX) by (unfold INT_MAX; lia).
  assert (sum_counts blobs < SIZE_MODULUS) as Hlt by nia.
  unfold is_Ok. split.
  - intros [r Hr']. apply apply_buffers_Ok in Hr' as [_ ->].
    unfold to_size_t. case_decide.
    + right. rewrite Z.mod_small by (unfold SIZE_MODULUS; lia). done.
    + left. rewrite Z.mod_small by lia. done.
  - intros Hcase. eexists. apply apply_buffers_Ok. split; [done|].
    unfold to_size_t. case_decide.
    + rewrite Z.mod_small by (unfold SIZE_MODULUS; lia). lia.
    + rewrite Z.mod_small by lia. lia.
Qed.

Lemma apply_buffers_completes_iff_witness :
  Forall count_in_range ex_blobs ∧
  Z.of_nat (length ex_blobs) ≤ INT_MAX ∧
  0 ≤ 5 < SIZE_MODULUS ∧
  (is_Ok (apply_buffers ex_blobs 100 5 replace_gpu ∅) ↔
   (sum_counts ex_blobs = 5 ∧ 5 ≠ 0) ∨ (5 = 1 ∧ sum_counts ex_blobs = 0)).
Proof.
  assert (Forall count_in_range ex_blobs) as Hwf.
  { repeat constructor; vm_compute; congruence. }
  assert (Z.of_nat (length ex_blobs) ≤ INT_MAX) as Hlen by (vm_compute; congruence).
  assert (0 ≤ 5 < SIZE_MODULUS) as Ht by (split; vm_compute; congruence).
  split; [exact Hwf|]. split; [exact Hlen|]. split; [exact Ht|].
  exact (apply_buffers_completes_iff ex_blobs 100 5 replace_gpu ∅ Hwf Hlen Ht).
Defined.

(** C8, as stated, fails: one tensor of zero elements and [total = 1]
    passes the closing check although the sum of the counts is not
    [total] and the list is not empty. *)
Lemma apply_buffers_claimed_iff_fails :
  ¬ (is_Ok (apply_buffers [ex_blob 0 []] 100 1 replace_gpu ∅) ↔
     sum_counts [ex_blob 0 []] = 1 ∨ (1 = 1 ∧ [ex_blob 0 []] = [])).
Proof.
  intros [Hcompletes _].
  destruct Hcompletes as [H|[_ H]].
  - eexists. vm_compute. reflexivity.
  - vm_compute in H. discriminate H.
  - discriminate H.
Qed.

(** ** Claims about the constructors *)

(** C9. On every return of the [GPUParams] constructor, of the [P2PSync]
    constructor and of the [P2PSync] destructor, the thread's active
    device is the one it was on entry, although each of them sets other
    devices in between. *)
Theorem active_device_restored {Dtype : Type} (zero : Dtype) (rt : HipRuntime)
    (WorkerSolver : SolverParameter → @Hip.Solver Dtype → Hip.hip Hip.Solver) :
  (∀ root_solver dev (s : @Hip.HipState Dtype) this s',
     Hip.GPUParams_ctor zero rt root_solver dev s = Ok (this, s') →
     Hip.current_device s' = Hip.current_device s) ∧
  (∀ root_solver parent prm (s : @Hip.HipState Dtype) this s',
     Hip.P2PSync_ctor zero rt WorkerSolver root_solver parent prm s = Ok (this, s') →
     Hip.current_device s' = Hip.current_device s) ∧
  (∀ this (s : @Hip.HipState Dtype) u s',
     Hip.P2PSync_dtor rt this s = Ok (u, s') →
     Hip.current_device s' = Hip.current_device s).
Proof.
  split; [|split].
  - intros *. apply GPUParams_ctor_device.
  - intros *. apply P2PSync_ctor_device.
  - intros *. apply P2PSync_dtor_device.
Qed.

(** A replica on device 2 whose parent is on device 1 is constructed and
    destroyed by a thread whose active device is 0. *)
Lemma active_device_restored_witness :
  match Hip.GPUParams_ctor 0 ex_rt ex_solver 2 ex_state with
  | Ok (_, s') => Hip.current_device s' = 0
  | Err _ => False
  end ∧
  match Hip.P2PSync_ctor 0 ex_rt ex_WorkerSolver ex_solver (Some 1)
          (set_device_id 2 (Hip.param ex_solver)) ex_state with
  | Ok (this, s1) =>
      Hip.current_device s1 = 0 ∧
      match Hip.P2PSync_dtor ex_rt this s1 with
      | Ok (_, s2) => Hip.current_device s2 = 0
      | Err _ => False
      end
  | Err _ => False
  end.
Proof.
  pose proof (active_device_restored 0 ex_rt ex_WorkerSolver) as (Hg & Hc & Hd).
  split.
  - destruct (Hip.GPUParams_ctor 0 ex_rt ex_solver 2 ex_state) as [[this s']|e] eqn:E.
    + exact (Hg _ _ _ _ _ E).
    + vm_compute in E. discriminate E.
  - destruct (Hip.P2PSync_ctor 0 ex_rt ex_WorkerSolver ex_solver (Some 1)
                (set_device_id 2 (Hip.param ex_solver)) ex_state)
      as [[this s1]|e] eqn:E.
    + pose proof (Hc _ _ _ _ _ _ E) as H1. split; [exact H1|].
      destruct (Hip.P2PSync_dtor ex_rt this s1) as [[u s2]|e] eqn:E2.
      * rewrite (Hd _ _ _ _ E2). exact H1.
      * vm_compute in E. injection E as <- <-. vm_compute in E2. discriminate E2.
    + vm_compute in E. discriminate E.
Defined.

(** C10. After the [GPUParams] constructor returns, the data buffer
    holds the host-side values of the learnable tensors, one after the
    other in list order, and each of the [size_] elements of the diff
    buffer is zero.  (When the tensors hold no element at all, the data
    buffer is the one padding element and nothing is written to it.) *)
Theorem GPUParams_ctor_initialises {Dtype : Type} (zero : Dtype) (rt : HipRuntime)
    (root_solver : @Hip.Solver Dtype) (dev : Z) (s : Hip.HipState)
    (this : Hip.GPUParams) (s' : Hip.HipState) :
  let net := Hip.learnable_params root_solver in
  Forall Blob_wf net →
  Z.of_nat (length net) ≤ INT_MAX →
  Hip.GPUParams_ctor zero rt root_solver dev s = Ok (this, s') →
  Hip.size_ this = Z.max 1 (Z.of_nat (length (host_values net))) ∧
  read_array (Hip.device_memory s') (Hip.data_ this) (length (host_values net))
    = Some <$> host_values net ∧
  read_array (Hip.device_memory s') (Hip.diff_ this) (Z.to_nat (Hip.size_ this))
    = replicate (Z.to_nat (Hip.size_ this)) (Some zero).
Proof.
  intros net Hwf Hlen H.
  apply GPUParams_ctor_memory in H as (Hsize & Hdata & Hdiff & Hmem).
  fold net in Hsize, Hdiff, Hmem.
  assert (Forall count_in_range net) as Hcr
    by (eapply Forall_impl; [exact Hwf|]; by intros ? [? _]).
  pose proof (total_size_max net Hcr Hlen) as Hmax.
  pose proof (host_values_length net Hwf) as Hhv.
  pose proof (apply_buffers_loop_copy net (Hip.data_ this) (Hip.device_memory s) Hwf)
    as [_ Hcopy].
  split; [rewrite Hsize, Hmax, Hhv; done|].
  rewrite Hmem. unfold caffe_gpu_set. split.
  - apply list_eq. intros k. rewrite read_array_lookup, list_lookup_fmap.
    case_decide as Hk.
    + rewrite write_array_lookup, decide_False by lia.
      rewrite Hcopy, decide_True by lia.
      replace (Z.to_nat (Hip.data_ this + Z.of_nat k - Hip.data_ this)) with k by lia.
      destruct (lookup_lt_is_Some_2 (host_values net) k Hk) as [v ->]. done.
    + by rewrite lookup_ge_None_2 by lia.
  - apply list_eq. intros k. rewrite read_array_lookup.
    case_decide as Hk.
    + rewrite write_array_lookup, length_replicate, decide_True by lia.
      rewrite !lookup_replicate_2 by lia. done.
    + symmetry. apply lookup_ge_None_2. rewrite length_replicate. lia.
Qed.

Lemma GPUParams_ctor_initialises_witness :
  Forall Blob_wf ex_blobs ∧
  Z.of_nat (length ex_blobs) ≤ INT_MAX ∧
  match Hip.GPUParams_ctor 0 ex_rt ex_solver 2 ex_state with
  | Ok (this, s') =>
      Hip.size_ this = 5 ∧
      read_array (Hip.device_memory s') (Hip.data_ this) 5
        = [Some 7; Some 8; Some 9; Some 4; Some 5] ∧
      read_array (Hip.device_memory s') (Hip.diff_ this) 5 = replicate 5 (Some 0)
  | Err _ => False
  end.
Proof.
  assert (Forall Blob_wf ex_blobs) as Hwf.
  { repeat constructor; vm_compute; congruence. }
  assert (Z.of_nat (length ex_blobs) ≤ INT_MAX) as Hlen by (vm_compute; congruence).
  split; [exact Hwf|]. split; [exact Hlen|].
  destruct (Hip.GPUParams_ctor 0 ex_rt ex_solver 2 ex_state) as [[this s']|e] eqn:E.
  - pose proof (GPUParams_ctor_initialises 0 ex_rt ex_solver 2 ex_state this s'
                  Hwf Hlen E) as (Hsize & Hdata & Hdiff).
    assert (Hip.size_ this = 5) as Hs by exact Hsize.
    split; [exact Hs|]. split; [exact Hdata|].
    rewrite Hs in Hdiff. exact Hdiff.
  - vm_compute in E. discriminate E.
Defined.

(** ** Part 2: the topology planner *)

Section LoopFacts.

Context {St : Type}.
Implicit Types (cond : nat → St → bool) (body : nat → St → result (St * bool)).

(** A property kept by the body is kept by the loop. *)
Lemma for_loop_invariant (P : St → Prop) fuel cond body i s s' :
  (∀ i s s' b, P s → body i s = Ok (s', b) → P s') →
  P s → for_loop fuel cond body i s = Ok s' → P s'.
Proof.
  intros Hbody. revert i s.
  induction fuel as [|fuel IH]; intros i s Hs; simpl; [done|].
  destruct (cond i s); [|by intros [= <-]].
  destruct (body i s) as [[s1 brk]|e] eqn:E; simpl; [|done].
  pose proof (Hbody _ _ _ _ Hs E) as Hs1.
  destruct brk; [by intros [= <-]|]. by apply IH.
Qed.

(** The loops of the planner stop by themselves: the loop variable grows
    towards a bound that the body does not raise. *)
Lemma for_loop_terminates (size : St → nat) fuel cond body i s :
  (∀ i s, cond i s = true → (i < size s)%nat) →
  (∀ i s s' b, body i s = Ok (s', b) → (size s' ≤ size s)%nat) →
  (∀ i s, body i s ≠ Err OutOfFuel) →
  (size s - i < fuel)%nat →
  for_loop fuel cond body i s ≠ Err OutOfFuel.
Proof.
  intros Hcond Hsize Hbody. revert i s.
  induction fuel as [|fuel IH]; intros i s Hfuel; simpl; [lia|].
  destruct (cond i s) eqn:Ec; [|done].
  apply Hcond in Ec.
  destruct (body i s) as [[s1 brk]|e] eqn:E; simpl.
  - destruct brk; [done|]. apply IH. apply Hsize in E. lia.
  - intros [= ->]. by apply (Hbody i s).
Qed.

End LoopFacts.

Lemma bind_not_OutOfFuel {A B} (f : A → result B) (m : result A) :
  m ≠ Err OutOfFuel → (∀ a, f a ≠ Err OutOfFuel) → m ≫= f ≠ Err OutOfFuel.
Proof.
  intros Hm Hf. destruct m as [a|e]; [apply Hf|].
  intros H. apply Hm. injection H as ->. reflexivity.
Qed.

Lemma vec_at_Ok {A} (v : list A) i x : vec_at v i = Ok x ↔ v !! i = Some x.
Proof. unfold vec_at. destruct (v !! i); split; congruence. Qed.

Lemma vec_erase_Ok {A} (v v' : list A) i :
  vec_erase v i = Ok v' ↔ (i < length v)%nat ∧ v' = delete i v.
Proof. unfold vec_erase. case_bool_decide; split; try intros [??]; try congruence; try done. intros [= <-]. done. Qed.

Section PlannerFacts.

Variable rt : HipRuntime.
Variable devices : list Z.

#[local] Abbreviation plan_inv := (plan_inv devices).

(** Emitting [(remaining[i], remaining[j])] and erasing position [j]. *)
Lemma plan_inv_emit (s : plan) i j a b remaining' :
  plan_inv s → s.1 !! i = Some a → s.1 !! j = Some b →
  remaining' = delete j s.1 →
  plan_inv (remaining', s.2 ++ [mkDevicePair a b]).
Proof.
  intros [Hperm Hpar] Ha Hb ->. split; simpl.
  - rewrite fmap_app. simpl. rewrite <- Hperm, <- app_assoc. simpl.
    apply Permutation_app_head. symmetry. by apply delete_Permutation.
  - apply Forall_app. split; [done|]. constructor; [|constructor]. simpl.
    rewrite <- Hperm. apply elem_of_app. right. by eapply list_elem_of_lookup_2.
Qed.

Lemma board_pass_inv s s' : plan_inv s → board_pass rt s = Ok s' → plan_inv s'.
Proof.
  unfold board_pass. intros Hs. apply for_loop_invariant; [|done].
  clear s Hs. intros i s s1 b Hs H.
  apply bind_Ok in H as (s2 & H & [= <- <-]).
  revert H. apply for_loop_invariant; [|done].
  clear. intros j s s1 b Hs H.
  apply bind_Ok in H as (x & _ & H). apply bind_Ok in H as (y & _ & H).
  apply bind_Ok in H as (? & _ & H). apply bind_Ok in H as (? & _ & H).
  by injection H as <- <-.
Qed.

Lemma p2p_pass_inv s s' : plan_inv s → p2p_pass rt s = Ok s' → plan_inv s'.
Proof.
  unfold p2p_pass. intros Hs. apply for_loop_invariant; [|done].
  clear s Hs. intros i s s1 b Hs H.
  apply bind_Ok in H as (s2 & H & [= <- <-]).
  revert H. apply for_loop_invariant; [|done].
  clear. intros j s s1 brk Hs H.
  apply bind_Ok in H as (a & Ha & H). apply bind_Ok in H as (b & Hb & H).
  apply bind_Ok in H as (access & _ & H).
  apply vec_at_Ok in Ha, Hb.
  destruct access.
  - apply bind_Ok in H as (r' & Hr & [= <- <-]).
    apply vec_erase_Ok in Hr as [_ ->]. by eapply plan_inv_emit.
  - by injection H as <- <-.
Qed.

Lemma fallback_pass_inv s s' : plan_inv s → fallback_pass s = Ok s' → plan_inv s'.
Proof.
  unfold fallback_pass. intros Hs. apply for_loop_invariant; [|done].
  clear s Hs. intros i s s1 brk Hs H.
  apply bind_Ok in H as (a & Ha & H). apply bind_Ok in H as (b & Hb & H).
  apply bind_Ok in H as (r' & Hr & [= <- <-]).
  apply vec_at_Ok in Ha, Hb. apply vec_erase_Ok in Hr as [_ ->].
  by eapply plan_inv_emit.
Qed.

Lemma depth_loop_inv depth pass s s' :
  (∀ s s', plan_inv s → pass s = Ok s' → plan_inv s') →
  plan_inv s → depth_loop depth pass s = Ok s' → plan_inv s'.
Proof.
  intros Hpass Hs. unfold depth_loop. apply for_loop_invariant; [|done].
  intros _ s1 s2 b Hs1 H. apply bind_Ok in H as (s3 & H & [= <- <-]). eauto.
Qed.

Lemma CHECK_pairs_Ok ps u :
  CHECK_pairs ps = Ok u →
  Forall (λ p, parent p ≠ device p) ps ∧ NoDup (device <$> ps).
Proof.
  induction ps as [|p ps IH]; simpl.
  - intros _. split; constructor.
  - intros H. apply bind_Ok in H as (? & H1 & H). apply bind_Ok in H as (? & H2 & H).
    apply CHECK_Ok in H1, H2. apply bool_decide_eq_true in H1.
    apply IH in H as [Hpar Hnd]. split; [by constructor|].
    constructor; [|done]. intros Hin.
    apply list_elem_of_fmap in Hin as (q & Hq & Hin).
    rewrite forallb_forall in H2. apply list_elem_of_In in Hin.
    specialize (H2 q Hin). apply bool_decide_eq_true in H2. done.
Qed.

(** Unfolding of a returning call of [compute], as Prepare calls it. *)
Lemma compute_Ok pairs :
  compute rt devices [] = Ok pairs →
  ∃ root rest,
    pairs = mkDevicePair (-1) root :: rest ∧
    plan_inv ([root], rest) ∧
    length pairs = length devices ∧
    Forall (λ p, parent p ≠ device p) pairs ∧
    NoDup (device <$> pairs).
Proof.
  unfold compute. intros H.
  assert (plan_inv (devices, [])) as H0.
  { split; simpl; [done|constructor]. }
  apply bind_Ok in H as (s1 & H1 & H).
  apply depth_loop_inv in H1; [|apply board_pass_inv|done].
  apply bind_Ok in H as (s2 & H2 & H).
  apply depth_loop_inv in H2; [|apply p2p_pass_inv|done].
  apply bind_Ok in H as (s3 & H3 & H).
  apply depth_loop_inv in H3; [|apply fallback_pass_inv|done].
  apply bind_Ok in H as (? & Hone & H). apply CHECK_Ok, bool_decide_eq_true in Hone.
  apply bind_Ok in H as (root & Hroot & H). apply vec_at_Ok in Hroot.
  apply bind_Ok in H as (? & Hlen & H). apply CHECK_Ok, bool_decide_eq_true in Hlen.
  apply bind_Ok in H as (? & Hchk & [= <-]).
  apply CHECK_pairs_Ok in Hchk as [Hpar Hnd].
  destruct s3 as [rem rest]. simpl in *.
  destruct rem as [|r [|??]]; try done. injection Hroot as ->.
  exists root, rest. done.
Qed.

End PlannerFacts.

Section PlannerTermination.

Variable rt : HipRuntime.

Lemma vec_at_not_OutOfFuel {A} (v : list A) i : vec_at v i ≠ Err OutOfFuel.
Proof. unfold vec_at. by destruct (v !! i). Qed.

Lemma vec_erase_not_OutOfFuel {A} (v : list A) i : vec_erase v i ≠ Err OutOfFuel.
Proof. unfold vec_erase. by case_bool_decide. Qed.

Lemma length_delete_le {A} (v : list A) i : (length (delete i v) ≤ length v)%nat.
Proof.
  revert i. induction v as [|x v IH]; intros [|i]; simpl; try lia.
  specialize (IH i). lia.
Qed.

Lemma board_body_shrinks i j (s s' : plan) b :
  (a ← vec_at s.1 i; b ← vec_at s.1 j;
   _ ← HIP_CHECK_properties rt a; _ ← HIP_CHECK_properties rt b;
   Ok (s, false)) = Ok (s', b) → s' = s.
Proof.
  intros H.
  apply bind_Ok in H as (? & _ & H). apply bind_Ok in H as (? & _ & H).
  apply bind_Ok in H as (? & _ & H). apply bind_Ok in H as (? & _ & H).
  by injection H as <- <-.
Qed.

Lemma p2p_body_shrinks i j (s s' : plan) brk :
  (a ← vec_at s.1 i; b ← vec_at s.1 j;
   access ← HIP_CHECK_access rt a b;
   if access : bool then
     remaining' ← vec_erase s.1 j;
     Ok ((remaining', s.2 ++ [mkDevicePair a b]), true)
   else Ok (s, false)) = Ok (s', brk) →
  (length s'.1 ≤ length s.1)%nat.
Proof.
  intros H.
  apply bind_Ok in H as (a & _ & H). apply bind_Ok in H as (b & _ & H).
  apply bind_Ok in H as ([] & _ & H).
  - apply bind_Ok in H as (r' & Hr & [= <- <-]).
    apply vec_erase_Ok in Hr as [_ ->]. simpl. apply length_delete_le.
  - by injection H as <- <-.
Qed.

Lemma board_pass_terminates s : board_pass rt s ≠ Err OutOfFuel.
Proof.
  unfold board_pass.
  apply (for_loop_terminates (λ s : plan, length s.1)); [| | |lia].
  - intros i s1 H. by apply bool_decide_eq_true in H.
  - intros i s1 s2 b H. apply bind_Ok in H as (s3 & H & [= <- <-]).
    revert H. apply (for_loop_invariant (shrinks_to (length s1.1))); [|unfold shrinks_to; lia].
    intros j s4 s5 b' Hs4 H. apply board_body_shrinks in H as ->. done.
  - intros i s1. apply bind_not_OutOfFuel; [|done].
    apply (for_loop_terminates (λ s : plan, length s.1)); [| | |lia].
    + intros j s2 H. by apply bool_decide_eq_true in H.
    + intros j s2 s3 b H. apply board_body_shrinks in H as ->. done.
    + intros j s2.
      apply bind_not_OutOfFuel; [apply vec_at_not_OutOfFuel|intros a].
      apply bind_not_OutOfFuel; [apply vec_at_not_OutOfFuel|intros b].
      unfold HIP_CHECK_properties.
      apply bind_not_OutOfFuel; [by destruct (hipGetDeviceProperties rt a)|intros _].
      apply bind_not_OutOfFuel; [by destruct (hipGetDeviceProperties rt b)|done].
Qed.

Lemma p2p_pass_terminates s : p2p_pass rt s ≠ Err OutOfFuel.
Proof.
  unfold p2p_pass.
  apply (for_loop_terminates (λ s : plan, length s.1)); [| | |lia].
  - intros i s1 H. by apply bool_decide_eq_true in H.
  - intros i s1 s2 b H. apply bind_Ok in H as (s3 & H & [= <- <-]).
    revert H. apply (for_loop_invariant (shrinks_to (length s1.1))); [|unfold shrinks_to; lia].
    intros j s4 s5 b' Hs4 H. apply p2p_body_shrinks in H.
    unfold shrinks_to in *. lia.
  - intros i s1. apply bind_not_OutOfFuel; [|done].
    apply (for_loop_terminates (λ s : plan, length s.1)); [| | |lia].
    + intros j s2 H. by apply bool_decide_eq_true in H.
    + intros j s2 s3 b H. by apply p2p_body_shrinks in H.
    + intros j s2.
      apply bind_not_OutOfFuel; [apply vec_at_not_OutOfFuel|intros a].
      apply bind_not_OutOfFuel; [apply vec_at_not_OutOfFuel|intros b].
      unfold HIP_CHECK_access.
      apply bind_not_OutOfFuel; [by destruct (hipDeviceCanAccessPeer rt a b)|intros []]; [|done].
      apply bind_not_OutOfFuel; [apply vec_erase_not_OutOfFuel|done].
Qed.

Lemma fallback_pass_terminates s : fallback_pass s ≠ Err OutOfFuel.
Proof.
  unfold fallback_pass.
  apply (for_loop_terminates (λ s : plan, length s.1)); [| | |lia].
  - intros i s1 H. by apply bool_decide_eq_true in H.
  - intros i s1 s2 b H.
    apply bind_Ok in H as (a & _ & H). apply bind_Ok in H as (b' & _ & H).
    apply bind_Ok in H as (r' & Hr & [= <- <-]).
    apply vec_erase_Ok in Hr as [_ ->]. simpl. apply length_delete_le.
  - intros i s1.
    apply bind_not_OutOfFuel; [apply vec_at_not_OutOfFuel|intros a].
    apply bind_not_OutOfFuel; [apply vec_at_not_OutOfFuel|intros b].
    apply bind_not_OutOfFuel; [apply vec_erase_not_OutOfFuel|done].
Qed.

Lemma depth_loop_terminates depth pass s :
  (∀ s, pass s ≠ Err OutOfFuel) → depth_loop depth pass s ≠ Err OutOfFuel.
Proof.
  intros Hpass. unfold depth_loop.
  apply (for_loop_terminates (λ _ : plan, depth)); [| | |lia].
  - intros d _ H. by apply bool_decide_eq_true in H.
  - done.
  - intros d s1. by apply bind_not_OutOfFuel.
Qed.

Lemma CHECK_not_OutOfFuel b : CHECK b ≠ Err OutOfFuel.
Proof. by destruct b. Qed.

Lemma CHECK_pairs_not_OutOfFuel ps : CHECK_pairs ps ≠ Err OutOfFuel.
Proof.
  induction ps as [|p ps IH]; simpl; [done|].
  apply bind_not_OutOfFuel; [apply CHECK_not_OutOfFuel|intros _].
  apply bind_not_OutOfFuel; [apply CHECK_not_OutOfFuel|done].
Qed.

(** The planner's loops always come to an end: the loop bound of the
    embedding is never what stops [compute]. *)
Lemma compute_terminates devices pairs : compute rt devices pairs ≠ Err OutOfFuel.
Proof.
  unfold compute.
  apply bind_not_OutOfFuel;
    [apply depth_loop_terminates, board_pass_terminates|intros s1].
  apply bind_not_OutOfFuel;
    [apply depth_loop_terminates, p2p_pass_terminates|intros s2].
  apply bind_not_OutOfFuel;
    [apply depth_loop_terminates, fallback_pass_terminates|intros s3].
  apply bind_not_OutOfFuel; [apply CHECK_not_OutOfFuel|intros _].
  apply bind_not_OutOfFuel; [apply vec_at_not_OutOfFuel|intros root].
  apply bind_not_OutOfFuel; [apply CHECK_not_OutOfFuel|intros _].
  apply bind_not_OutOfFuel; [apply CHECK_pairs_not_OutOfFuel|done].
Qed.

End PlannerTermination.

(** ** Claims about the planner *)

(** C2. The pair list produced by [DevicePair::compute] satisfies:
    [pairs[0].parent = -1]; there are as many pairs as devices; the
    devices of the pairs are a permutation of the input devices; no pair
    has its parent equal to its device; every parent other than -1 is the
    device of some pair. *)
Theorem compute_tree_well_formed (rt : HipRuntime) (devices : list Z)
    (pairs : list DevicePair) :
  compute rt devices [] = Ok pairs →
  parent <$> pairs !! 0%nat = Some (-1) ∧
  length pairs = length devices ∧
  device <$> pairs ≡ₚ devices ∧
  Forall (λ p, parent p ≠ device p) pairs ∧
  ∀ p, p ∈ pairs → parent p ≠ -1 → parent p ∈ device <$> pairs.
Proof.
  intros H. apply compute_Ok in H
    as (root & rest & -> & [Hperm Hpar] & Hlen & Hself & _).
  simpl in Hperm.
  assert (device <$> mkDevicePair (-1) root :: rest ≡ₚ devices) as Hdev.
  { simpl. rewrite <- Hperm. apply Permutation_cons_append. }
  repeat split; try done.
  intros p Hp Hne. rewrite Hdev.
  apply elem_of_cons in Hp as [->|Hp]; [done|].
  rewrite Forall_forall in Hpar. by apply Hpar.
Qed.

(** Four devices, all linked: the pairs come out with the child of
    device 2 before device 2 itself. *)
Lemma compute_tree_well_formed_witness :
  let pairs := [mkDevicePair (-1) 0; mkDevicePair 0 1;
                mkDevicePair 2 3; mkDevicePair 0 2] in
  compute ex_rt [0; 1; 2; 3] [] = Ok pairs ∧
  parent <$> pairs !! 0%nat = Some (-1) ∧
  length pairs = length [0; 1; 2; 3] ∧
  device <$> pairs ≡ₚ [0; 1; 2; 3] ∧
  Forall (λ p, parent p ≠ device p) pairs ∧
  ∀ p, p ∈ pairs → parent p ≠ -1 → parent p ∈ device <$> pairs.
Proof.
  intros pairs.
  assert (compute ex_rt [0; 1; 2; 3] [] = Ok pairs) as H by (vm_compute; reflexivity).
  split; [exact H|].
  exact (compute_tree_well_formed ex_rt [0; 1; 2; 3] pairs H).
Defined.

(** C3, at three devices without peer-to-peer links: the fallback phase
    reads [remaining[2]] when [remaining] has two elements left. *)
Theorem fallback_pairing_out_of_range (a b c : Z) :
  compute ex_rt_no_p2p [a; b; c] [] = Err OutOfRange.
Proof. reflexivity. Qed.

(** The same phase on its own, after the first two phases have left
    three devices: the first iteration pairs [a] with [b], the second
    reads past the end. *)
Lemma fallback_pass_three (a b c : Z) (pairs : list DevicePair) :
  fallback_pass ([a; b; c], pairs) = Err OutOfRange.
Proof. reflexivity. Qed.

(** With a power of two devices left, it stays in range. *)
Lemma fallback_pass_four (a b c d : Z) (pairs : list DevicePair) :
  fallback_pass ([a; b; c; d], pairs)
  = Ok ([a; c], pairs ++ [mkDevicePair a b] ++ [mkDevicePair c d]).
Proof. unfold fallback_pass. simpl. by rewrite <- app_assoc. Qed.

(** ** Part 3: the replica tree *)

Section TreeFacts.

Implicit Types (st : Coordinator) (n : P2PSync).

Lemma sync_at_ge st j : (length (syncs st) ≤ j)%nat → (1 ≤ j)%nat → sync_at st j = None.
Proof.
  intros Hlen Hj. destruct j as [|j]; [lia|]. simpl.
  by rewrite lookup_ge_None_2.
Qed.

Lemma sync_at_reset_slot st i n j :
  (1 ≤ i < length (syncs st))%nat →
  sync_at (reset_slot i n st) j = if decide (j = i) then Some n else sync_at st j.
Proof.
  intros Hi. destruct j as [|j]; simpl.
  - case_decide; [lia|done].
  - case_decide as Hj.
    + subst i. rewrite list_lookup_insert_eq by lia. done.
    + rewrite list_lookup_insert_ne by done. done.
Qed.

Lemma sync_at_add_child st p c j :
  sync_at (add_child p c st) j =
  if decide (j = p) then push_child c <$> sync_at st j else sync_at st j.
Proof.
  destruct p as [|p], j as [|j]; simpl; try done.
  case_decide as Hj.
  - injection Hj as ->. rewrite list_lookup_alter_eq.
    by destruct (syncs st !! S p) as [[?|]|].
  - rewrite list_lookup_alter_ne by congruence. done.
Qed.

Lemma length_reset_slot st i n : length (syncs (reset_slot i n st)) = length (syncs st).
Proof. simpl. apply length_insert. Qed.

Lemma length_add_child st p c : length (syncs (add_child p c st)) = length (syncs st).
Proof. destruct p; simpl; [done|]. apply length_alter. Qed.

(** The search for the parent: what it returns is a replica on the
    device looked for, and it finds one whenever there is one. *)
Lemma find_parent_scan st dev (a k : nat) (init : option nat) :
  let hit j := ∃ pn, sync_at st j = Some pn ∧ device_ pn = dev in
  let scan := foldl (λ found j,
                match sync_at st j with
                | Some sync => if bool_decide (device_ sync = dev) then Some j else found
                | None => found
                end) init (seq a k) in
  (∀ p, scan = Some p → init = Some p ∨ ((a ≤ p < a + k)%nat ∧ hit p)) ∧
  (is_Some init ∨ (∃ j, (a ≤ j < a + k)%nat ∧ hit j) → is_Some scan).
Proof.
  intros hit. revert a init. induction k as [|k IH]; intros a init; simpl.
  - split; [auto|]. intros [H|(j & Hj & _)]; [done|lia].
  - set (init' := match sync_at st a with
                  | Some sync => if bool_decide (device_ sync = dev) then Some a else init
                  | None => init
                  end).
    destruct (IH (S a) init') as [IH1 IH2]. split.
    + intros p Hp. apply IH1 in Hp as [Hp|[Hr Hh]]; [|right; split; [lia|done]].
      unfold init' in Hp. destruct (sync_at st a) as [sync|] eqn:E; [|by left].
      case_bool_decide as Hd; [|by left]. injection Hp as <-.
      right. split; [lia|]. by exists sync.
    + intros H. apply IH2.
      destruct H as [H|(j & Hj & pn & Hpn & Hdev)].
      * left. unfold init'. destruct (sync_at st a); [|done]. by case_bool_decide.
      * destruct (decide (j = a)) as [->|Hne].
        -- left. unfold init'. rewrite Hpn, bool_decide_eq_true_2 by done. done.
        -- right. exists j. split; [lia|]. by exists pn.
Qed.

Lemma find_parent_Some st dev p :
  find_parent st dev = Some p →
  (p < length (syncs st))%nat ∧ ∃ pn, sync_at st p = Some pn ∧ device_ pn = dev.
Proof.
  intros H. apply (find_parent_scan st dev 0 (length (syncs st)) None) in H
    as [H|[Hr Hh]]; [done|]. split; [lia|done].
Qed.

Lemma find_parent_present st dev :
  present st dev → is_Some (find_parent st dev).
Proof.
  intros (p & pn & Hp & Hpn & Hdev).
  apply (find_parent_scan st dev 0 (length (syncs st)) None).
  right. exists p. split; [lia|]. by exists pn.
Qed.

End TreeFacts.

Section PrepareFacts.

Variable root : Z.
Variable pairs : list DevicePair.

Implicit Types (st : Coordinator) (n : P2PSync).

Lemma grows_refl st : grows st st.
Proof. split; [done|]. intros j n Hn. by exists n. Qed.

Lemma grows_trans st1 st2 st3 : grows st1 st2 → grows st2 st3 → grows st1 st3.
Proof.
  intros [Hl1 H1] [Hl2 H2]. split; [congruence|].
  intros j n Hn. apply H1 in Hn as (n' & Hn' & Hd & Hp).
  apply H2 in Hn' as (n'' & Hn'' & Hd' & Hp'). exists n''. repeat split; congruence.
Qed.

Lemma grows_present st st' d : grows st st' → present st d → present st' d.
Proof.
  intros [Hl H] (p & pn & Hp & Hpn & Hd).
  apply H in Hpn as (pn' & Hpn' & Hd' & _).
  exists p, pn'. repeat split; [lia|done|congruence].
Qed.

(** Filling the empty slot [i] with the replica of [pr], below the
    replica in slot [p]. *)
Section Fill.

Variables (st : Coordinator) (i p : nat) (pr : DevicePair) (pn : P2PSync).
Hypothesis Hinv : Prepare_inv root pairs st.
Hypothesis Hi : (1 ≤ i < length pairs)%nat.
Hypothesis Hempty : sync_at st i = None.
Hypothesis Hpr : pairs !! i = Some pr.
Hypothesis Hp : sync_at st p = Some pn.
Hypothesis Hdev : device_ pn = parent pr.

Let new : P2PSync := {| device_ := device pr; parent_ := Some p; children_ := [] |}.
Let st' : Coordinator := add_child p i (reset_slot i new st).

Lemma fill_ne : p ≠ i.
Proof. intros ->. congruence. Qed.

Lemma fill_sync_at j :
  sync_at st' j =
  if decide (j = i) then Some new
  else if decide (j = p) then Some (push_child i pn) else sync_at st j.
Proof.
  pose proof fill_ne as Hne. pose proof (inv_length _ _ _ Hinv) as Hlen.
  unfold st'. rewrite sync_at_add_child, sync_at_reset_slot by lia.
  repeat case_decide; subst; try done. by rewrite Hp.
Qed.

Lemma fill_grows : grows st st'.
Proof.
  split.
  - unfold st'. by rewrite length_add_child, length_reset_slot.
  - intros j n Hn. rewrite fill_sync_at.
    case_decide as Hji; [subst; congruence|].
    case_decide as Hjp.
    + subst j. assert (n = pn) as -> by congruence. by eexists.
    + by exists n.
Qed.

(** Which slots are filled, and below which parent, after the step. *)
Lemma fill_filled c q :
  (∃ n, sync_at st' c = Some n ∧ parent_ n = Some q) ↔
  (c = i ∧ q = p) ∨ (c ≠ i ∧ ∃ n, sync_at st c = Some n ∧ parent_ n = Some q).
Proof.
  rewrite fill_sync_at. case_decide as Hci; [|case_decide as Hcp].
  - subst c. split.
    + intros (n & [= <-] & Hq). simpl in Hq. left. split; congruence.
    + intros [[_ ->]|[? _]]; [|done]. by exists new.
  - subst c. split.
    + intros (n & [= <-] & Hq). right. split; [done|]. by exists pn.
    + intros [[? _]|[_ (n & Hn & Hq)]]; [done|].
      assert (n = pn) as -> by congruence. by eexists.
  - split; [intros H; by right|]. by intros [[? _]|[_ H]].
Qed.

Lemma fill_children q qn' :
  sync_at st' q = Some qn' →
  (q = i ∧ children_ qn' = []) ∨
  (q = p ∧ children_ qn' = children_ pn ++ [i]) ∨
  (q ≠ i ∧ q ≠ p ∧ ∃ qn, sync_at st q = Some qn ∧ children_ qn' = children_ qn).
Proof.
  rewrite fill_sync_at. case_decide as Hqi; [|case_decide as Hqp].
  - intros [= <-]. by left.
  - intros [= <-]. right. by left.
  - intros Hq. right. right. repeat split; try done. by exists qn'.
Qed.

(** No replica of [st] names the empty slot as its parent or child. *)
Lemma fill_no_parent c n : (1 ≤ c)%nat → sync_at st c = Some n → parent_ n ≠ Some i.
Proof.
  intros Hc Hn Hpar.
  destruct (inv_slot _ _ _ Hinv c n Hc Hn) as (? & p' & pn' & _ & _ & Hp' & Hpn' & _).
  congruence.
Qed.

Lemma fill_no_child q qn : sync_at st q = Some qn → i ∉ children_ qn.
Proof.
  intros Hq Hin. apply (inv_children _ _ _ Hinv q qn Hq) in Hin as (_ & n & Hn & _).
  congruence.
Qed.

Lemma fill_inv : Prepare_inv root pairs st'.
Proof.
  pose proof fill_ne as Hne. pose proof fill_grows as [Hlen Hgrow].
  split.
  - rewrite Hlen. apply (inv_length _ _ _ Hinv).
  - pose proof (inv_root _ _ _ Hinv) as Hroot.
    destruct (Hgrow 0%nat (this st) eq_refl) as (n' & Hn' & Hd' & _).
    simpl in Hn'. injection Hn' as ->. congruence.
  - intros c n Hc Hn. rewrite fill_sync_at in Hn.
    case_decide as Hci; [|case_decide as Hcp].
    + injection Hn as <-. subst c.
      destruct (Hgrow p pn Hp) as (pn' & Hpn' & Hd' & _).
      exists pr, p, pn'. repeat split; try done. congruence.
    + injection Hn as <-. subst c.
      destruct (inv_slot _ _ _ Hinv p pn Hc Hp) as (pr' & q & qn & H1 & H2 & H3 & H4 & H5).
      destruct (Hgrow q qn H4) as (qn' & Hqn' & Hd' & _).
      exists pr', q, qn'. repeat split; try done. congruence.
    + destruct (inv_slot _ _ _ Hinv c n Hc Hn) as (pr' & q & qn & H1 & H2 & H3 & H4 & H5).
      destruct (Hgrow q qn H4) as (qn' & Hqn' & Hd' & _).
      exists pr', q, qn'. repeat split; try done. congruence.
  - intros q qn' Hq.
    assert (∀ c, (1 ≤ c)%nat ∧ (∃ n, sync_at st' c = Some n ∧ parent_ n = Some q) ↔
                 (c = i ∧ q = p) ∨
                 ((1 ≤ c)%nat ∧ ∃ n, sync_at st c = Some n ∧ parent_ n = Some q)) as Hfilled.
    { intros c. rewrite fill_filled. split.
      - intros [Hc [H|[_ H]]]; [by left|by right].
      - intros [[-> ->]|[Hc H]]; [split; [lia|by left]|].
        split; [done|]. right. split; [|done].
        intros ->. destruct H as (n & Hn & _). congruence. }
    apply fill_children in Hq as [[-> Hch]|[[-> Hch]|(Hqi & Hqp & qn & Hqn & Hch)]];
      rewrite Hch.
    + split; [constructor|]. intros c. rewrite Hfilled. split; [by intros ?%elem_of_nil|].
      intros [[_ ?]|[Hc (n & Hn & Hpar)]]; [done|].
      destruct (fill_no_parent c n Hc Hn Hpar).
    + destruct (inv_children _ _ _ Hinv p pn Hp) as [Hnd Hin]. split.
      * apply NoDup_app. repeat split; [done| |apply NoDup_singleton].
        intros c Hc ->%list_elem_of_singleton. by apply (fill_no_child p pn).
      * intros c. rewrite Hfilled, elem_of_app, list_elem_of_singleton, Hin. tauto.
    + destruct (inv_children _ _ _ Hinv q qn Hqn) as [Hnd Hin]. split; [done|].
      intros c. rewrite Hfilled, Hin. split; [by right|].
      by intros [[_ ?]|H].
Qed.

End Fill.

End PrepareFacts.

Lemma filter_length_lt {A} (P Q : A → Prop)
    `{!∀ x, Decision (P x)} `{!∀ x, Decision (Q x)} (l : list A) (x : A) :
  (∀ y, Q y → P y) → x ∈ l → P x → ¬ Q x →
  (length (filter Q l) < length (filter P l))%nat.
Proof.
  intros HQP Hx HPx HQx.
  assert (∀ l', length (filter Q l') ≤ length (filter P l'))%nat as Hle.
  { induction l' as [|y l' IH]; [reflexivity|].
    rewrite !filter_cons. repeat case_decide; simpl; try lia. naive_solver. }
  induction l as [|y l IH]; [by apply elem_of_nil in Hx|].
  rewrite !filter_cons.
  apply elem_of_cons in Hx as [<-|Hx].
  - specialize (Hle l). repeat case_decide; simpl; try lia; done.
  - specialize (IH Hx). repeat case_decide; simpl; try lia. naive_solver.
Qed.

Section PrepareSweeps.

Variable root : Z.
Variable pairs : list DevicePair.
Hypothesis Htree : pairs_in_tree root pairs.

Implicit Types (st : Coordinator) (n : P2PSync).

#[local] Abbreviation Inv := (Prepare_inv root pairs).

Lemma pairs_nonempty : (1 ≤ length pairs)%nat.
Proof. destruct Htree as [H0 _]. apply lookup_lt_Some in H0. lia. Qed.

(** One slot of one sweep. *)
Lemma Prepare_slot_step st i :
  Inv st → (1 ≤ i < length pairs)%nat →
  ∃ st', Prepare_slot pairs i st = Done st' ∧ Inv st' ∧ grows st st' ∧
         ∀ pr, pairs !! i = Some pr → present st (parent pr) →
               is_Some (sync_at st' i).
Proof.
  intros Hinv Hi. pose proof (inv_length _ _ _ Hinv) as Hlen.
  unfold Prepare_slot.
  destruct (lookup_lt_is_Some_2 (syncs st) i ltac:(lia)) as [o Ho].
  assert (sync_at st i = o) as Hat.
  { destruct i as [|i]; [lia|]. simpl. by rewrite Ho. }
  rewrite Ho. destruct o as [n|].
  { exists st. split; [done|]. split; [done|]. split; [apply grows_refl|]. intros _ _ _. by exists n. }
  destruct (lookup_lt_is_Some_2 pairs i ltac:(lia)) as [pr Hpr]. rewrite Hpr.
  destruct (find_parent st (parent pr)) as [p|] eqn:Hfind.
  - apply find_parent_Some in Hfind as (Hp & pn & Hpn & Hdev).
    eexists. split; [done|]. split; [by eapply fill_inv|].
    split; [by eapply fill_grows|].
    intros _ _ _. erewrite fill_sync_at by done. rewrite decide_True by done. done.
  - exists st. split; [done|]. split; [done|]. split; [apply grows_refl|].
    intros pr' Hpr' Hpres. assert (pr' = pr) as -> by congruence.
    apply find_parent_present in Hpres as [? ?]. congruence.
Qed.

(** The slots [lo ..] of one sweep. *)
Lemma Prepare_slots_from k lo st :
  (lo + k = length pairs)%nat → (1 ≤ lo)%nat → Inv st →
  ∃ st', for_range k lo (Prepare_slot pairs) st = Done st' ∧ Inv st' ∧ grows st st' ∧
         ∀ i pr, (lo ≤ i < length pairs)%nat → pairs !! i = Some pr →
                 present st (parent pr) → is_Some (sync_at st' i).
Proof.
  revert lo st. induction k as [|k IH]; intros lo st Hk Hlo Hinv; simpl.
  - exists st. split; [done|]. split; [done|]. split; [apply grows_refl|]. intros i pr Hi. lia.
  - destruct (Prepare_slot_step st lo Hinv ltac:(lia)) as (st1 & -> & Hinv1 & Hg1 & Hfill).
    simpl. destruct (IH (S lo) st1 ltac:(lia) ltac:(lia) Hinv1)
      as (st' & -> & Hinv' & Hg' & Hfill').
    exists st'. split; [done|]. split; [done|]. split; [by eapply grows_trans|].
    intros i pr Hi Hpr Hpres.
    destruct (decide (i = lo)) as [->|Hne].
    + destruct (Hfill pr Hpr Hpres) as [n Hn].
      destruct Hg' as [_ Hg']. apply Hg' in Hn as (n' & Hn' & _). by exists n'.
    + apply (Hfill' i pr); [lia|done|]. by eapply grows_present.
Qed.

(** While a slot is empty, some empty slot has its parent built. *)
Lemma reaches_present_or_ready st d :
  Inv st → dev_reaches pairs root d →
  present st d ∨
  ∃ j pr, (1 ≤ j < length pairs)%nat ∧ sync_at st j = None ∧
          pairs !! j = Some pr ∧ present st (parent pr).
Proof.
  intros Hinv. pose proof (inv_length _ _ _ Hinv) as Hlen.
  pose proof pairs_nonempty as Hne.
  induction 1 as [|i pr Hi Hpr _ IH].
  - left. exists 0%nat, (this st). repeat split; [lia|]. apply (inv_root _ _ _ Hinv).
  - destruct IH as [Hpres|Hready]; [|by right].
    pose proof (lookup_lt_Some _ _ _ Hpr) as Hlt.
    destruct (sync_at st i) as [n|] eqn:Hn.
    + left. destruct (inv_slot _ _ _ Hinv i n Hi Hn) as (pr' & _ & _ & Hpr' & Hd & _).
      exists i, n. repeat split; [lia|done|congruence].
    + right. exists i, pr. repeat split; try done; lia.
Qed.

Lemma empty_slot_ready st i :
  Inv st → (1 ≤ i < length pairs)%nat → sync_at st i = None →
  ∃ j pr, (1 ≤ j < length pairs)%nat ∧ sync_at st j = None ∧
          pairs !! j = Some pr ∧ present st (parent pr).
Proof.
  intros Hinv Hi Hempty.
  destruct Htree as (H0 & Hnd & Hreach).
  destruct (lookup_lt_is_Some_2 pairs i ltac:(lia)) as [pr Hpr].
  destruct (reaches_present_or_ready st (device pr) Hinv (Hreach i pr Hpr))
    as [(q & qn & Hq & Hqn & Hd)|Hready]; [|done].
  exfalso.
  assert ((device <$> pairs) !! i = Some (device pr)) as Hdi
    by (by rewrite list_lookup_fmap, Hpr).
  assert ((device <$> pairs) !! q = Some (device pr)) as Hdq.
  { rewrite list_lookup_fmap. destruct q as [|q].
    - rewrite H0. simpl. simpl in Hqn. injection Hqn as <-.
      rewrite (inv_root _ _ _ Hinv) in Hd. congruence.
    - destruct (inv_slot _ _ _ Hinv (S q) qn ltac:(lia) Hqn)
        as (pr' & _ & _ & -> & Hd' & _). simpl. congruence. }
  pose proof (NoDup_lookup _ _ _ _ Hnd Hdi Hdq) as <-. congruence.
Qed.

Lemma unfilled_grows st st' :
  grows st st' → (length (unfilled st') ≤ length (unfilled st))%nat.
Proof.
  intros [Hlen Hg]. unfold unfilled. rewrite Hlen.
  generalize (seq 1 (length (syncs st) - 1)). intros l.
  induction l as [|y l IH]; [reflexivity|]. rewrite !filter_cons.
  repeat case_decide; simpl; try lia.
  destruct (sync_at st y) as [n|] eqn:E; [|done].
  apply Hg in E as (? & ? & _). congruence.
Qed.

(** One sweep fills at least one slot while one is empty. *)
Lemma Prepare_sweep_progress st :
  Inv st →
  ∃ st', Prepare_sweep pairs st = Done st' ∧ Inv st' ∧ grows st st' ∧
         (length (unfilled st') ≤ length (unfilled st) - 1)%nat.
Proof.
  intros Hinv. pose proof pairs_nonempty as Hne.
  unfold Prepare_sweep.
  destruct (Prepare_slots_from (length pairs - 1) 1 st ltac:(lia) ltac:(lia) Hinv)
    as (st' & -> & Hinv' & Hg & Hfill).
  exists st'. split; [done|]. split; [done|]. split; [done|].
  pose proof (inv_length _ _ _ Hinv) as Hlen.
  pose proof (inv_length _ _ _ Hinv') as Hlen'.
  destruct (unfilled st) as [|i0 rest] eqn:Hun.
  { pose proof (unfilled_grows st st' Hg) as Hle. rewrite Hun in Hle. simpl in *. lia. }
  assert (i0 ∈ unfilled st) as Hi0 by (rewrite Hun; apply elem_of_cons; by left).
  rewrite <- Hun. clear Hun rest.
  unfold unfilled in Hi0. apply list_elem_of_filter in Hi0 as [Hempty Hi0].
  apply elem_of_seq in Hi0.
  destruct (empty_slot_ready st i0 Hinv ltac:(lia) Hempty)
    as (j & pr & Hj & Hjempty & Hpr & Hpres).
  destruct (Hfill j pr ltac:(lia) Hpr Hpres) as [n Hn].
  unfold unfilled. rewrite Hlen', <- Hlen.
  assert (length (filter (λ j, sync_at st' j = None) (seq 1 (length (syncs st) - 1)))
          < length (filter (λ j, sync_at st j = None) (seq 1 (length (syncs st) - 1))))%nat;
    [|lia].
  apply (filter_length_lt _ _ _ j).
  - intros y Hy. destruct (sync_at st y) as [m|] eqn:E; [|done].
    destruct Hg as [_ Hg]. apply Hg in E as (? & ? & _). congruence.
  - apply elem_of_seq. lia.
  - done.
  - congruence.
Qed.

(** [k] sweeps fill [k] slots, or all of them. *)
Lemma Prepare_sweeps k lo st :
  Inv st →
  ∃ st', for_range k lo (λ _, Prepare_sweep pairs) st = Done st' ∧ Inv st' ∧
         grows st st' ∧
         (length (unfilled st') ≤ length (unfilled st) - k)%nat.
Proof.
  revert lo st. induction k as [|k IH]; intros lo st Hinv; simpl.
  - exists st. split; [done|]. split; [done|]. split; [apply grows_refl|lia].
  - destruct (Prepare_sweep_progress st Hinv) as (st1 & -> & Hinv1 & Hg1 & Hlt).
    simpl. destruct (IH (S lo) st1 Hinv1) as (st' & -> & Hinv' & Hg' & Hlt').
    exists st'. split; [done|]. split; [done|]. split; [by eapply grows_trans|lia].
Qed.

Lemma unfilled_length st : (length (unfilled st) ≤ length (syncs st) - 1)%nat.
Proof.
  unfold unfilled. etrans; [apply length_filter|]. by rewrite length_seq.
Qed.

(** [pairs.size()] sweeps fill every slot. *)
Lemma Prepare_build_complete st :
  Inv st →
  ∃ st', Prepare_build pairs st = Done st' ∧ Inv st' ∧ grows st st' ∧
         ∀ i, (1 ≤ i < length pairs)%nat → is_Some (sync_at st' i).
Proof.
  intros Hinv. unfold Prepare_build.
  destruct (Prepare_sweeps (length pairs) 0 st Hinv) as (st' & -> & Hinv' & Hg & Hlt).
  exists st'. split; [done|]. split; [done|]. split; [done|].
  intros i Hi. pose proof (unfilled_length st) as Hu.
  pose proof (inv_length _ _ _ Hinv) as Hlen.
  pose proof (inv_length _ _ _ Hinv') as Hlen'.
  assert (unfilled st' = []) as Hnil by (apply length_zero_iff_nil; lia).
  destruct (sync_at st' i) as [n|] eqn:E; [by exists n|].
  assert (i ∈ unfilled st') as Hin.
  { unfold unfilled. apply list_elem_of_filter. split; [done|]. apply elem_of_seq. lia. }
  rewrite Hnil in Hin. by apply elem_of_nil in Hin.
Qed.

End PrepareSweeps.

(** ** Claims about the coordinator *)

Lemma replicate_None_sync_at (root : P2PSync) (k i : nat) (tr : list event) :
  (1 ≤ i)%nat →
  sync_at {| this := root; syncs := replicate k None; trace := tr |} i = None.
Proof.
  intros Hi. destruct i as [|i]; [lia|]. simpl.
  destruct (replicate k None !! S i) as [o|] eqn:E; [|done].
  apply lookup_replicate in E as [-> _]. done.
Qed.

Lemma Prepare_inv_initial (pairs : list DevicePair) (st : Coordinator) :
  syncs st = replicate (length pairs) None →
  children_ (this st) = [] →
  Prepare_inv (device_ (this st)) pairs st.
Proof.
  destruct st as [root sy tr]. simpl. intros -> Hch.
  split; simpl.
  - apply length_replicate.
  - done.
  - intros i n Hi Hn. by rewrite replicate_None_sync_at in Hn.
  - intros q qn Hq. destruct q as [|q].
    + simpl in Hq. injection Hq as <-. rewrite Hch. split; [constructor|].
      intros c. split; [by intros ?%elem_of_nil|].
      intros (Hc & n & Hn & _). by rewrite replicate_None_sync_at in Hn.
    + by rewrite replicate_None_sync_at in Hq by lia.
Qed.

(** [Prepare] on a pair list that describes an in-tree. *)
Lemma Prepare_fills_slots (rt : HipRuntime) (gpus : list Z)
    (pairs : list DevicePair) (st0 : Coordinator) :
  compute rt gpus [] = Ok pairs →
  pairs_in_tree (device_ (this st0)) pairs →
  syncs st0 = replicate (length gpus) None →
  children_ (this st0) = [] →
  ∃ st, Prepare rt gpus st0 = Done st ∧
        Prepare_inv (device_ (this st0)) pairs st ∧ grows st0 st ∧
        ∀ i, (1 ≤ i < length gpus)%nat → is_Some (sync_at st i).
Proof.
  intros Hcompute Htree Hsyncs Hch.
  pose proof (compute_Ok _ _ _ Hcompute) as (_ & _ & _ & _ & Hlen & _).
  rewrite <- Hlen in Hsyncs.
  pose proof (Prepare_inv_initial pairs st0 Hsyncs Hch) as Hinv0.
  destruct (Prepare_build_complete _ pairs Htree st0 Hinv0)
    as (st & Hbuild & Hinv & Hg & Hfull).
  exists st. split; [unfold Prepare; by rewrite Hcompute|]. split; [done|].
  split; [done|]. intros i Hi. apply Hfull. lia.
Qed.

(** C4. If the planner's pair list describes an in-tree whose root
    device is that of the root replica (slot 0), then [Prepare] returns,
    and for every i in 1..N-1 slot i holds a replica whose device is
    [pairs[i].device], whose parent pointer is the replica whose device is
    [pairs[i].parent], and which occurs exactly once in that parent's
    children list: N sweeps are enough, whatever the order of [pairs]. *)
Theorem Prepare_builds_tree (rt : HipRuntime) (gpus : list Z)
    (pairs : list DevicePair) (st0 : Coordinator) :
  compute rt gpus [] = Ok pairs →
  pairs_in_tree (device_ (this st0)) pairs →
  syncs st0 = replicate (length gpus) None →
  children_ (this st0) = [] →
  ∃ st, Prepare rt gpus st0 = Done st ∧
    ∀ i, (1 ≤ i < length gpus)%nat →
      ∃ n pr p pn,
        syncs st !! i = Some (Some n) ∧ pairs !! i = Some pr ∧
        device_ n = device pr ∧
        parent_ n = Some p ∧ sync_at st p = Some pn ∧ device_ pn = parent pr ∧
        i ∈ children_ pn ∧ NoDup (children_ pn).
Proof.
  intros Hcompute Htree Hsyncs Hch.
  destruct (Prepare_fills_slots rt gpus pairs st0 Hcompute Htree Hsyncs Hch)
    as (st & Hprepare & Hinv & _ & Hfull).
  exists st. split; [done|].
  intros i Hi. destruct (Hfull i Hi) as [n Hn].
  destruct (inv_slot _ _ _ Hinv i n ltac:(lia) Hn) as (pr & p & pn & Hpr & Hd & Hp & Hpn & Hdp).
  destruct (inv_children _ _ _ Hinv p pn Hpn) as [Hnd Hin].
  exists n, pr, p, pn. repeat split; try done.
  - destruct i as [|i]; [lia|]. simpl in Hn.
    destruct (syncs st !! S i) as [[?|]|]; simpl in Hn; congruence.
  - apply Hin. split; [lia|]. by exists n.
Qed.

(** Pairs in an order in which a child comes before its parent: device 3
    (slot 2) is listed before device 2 (slot 3), below which it goes. *)
Lemma Prepare_builds_tree_witness :
  let gpus := [0; 1; 2; 3] in
  let pairs := [mkDevicePair (-1) 0; mkDevicePair 0 1;
                mkDevicePair 2 3; mkDevicePair 0 2] in
  let st0 := {| this := ex_root; syncs := replicate 4 None; trace := [] |} in
  compute ex_rt gpus [] = Ok pairs ∧
  pairs_in_tree 0 pairs ∧
  ∃ st, Prepare ex_rt gpus st0 = Done st ∧
    ∀ i, (1 ≤ i < 4)%nat →
      ∃ n pr p pn,
        syncs st !! i = Some (Some n) ∧ pairs !! i = Some pr ∧
        device_ n = device pr ∧
        parent_ n = Some p ∧ sync_at st p = Some pn ∧ device_ pn = parent pr ∧
        i ∈ children_ pn ∧ NoDup (children_ pn).
Proof.
  intros gpus pairs st0.
  assert (compute ex_rt gpus [] = Ok pairs) as Hc by (vm_compute; reflexivity).
  assert (pairs_in_tree 0 pairs) as Ht.
  { split; [reflexivity|]. split.
    - apply (bool_decide_unpack _). vm_compute. exact I.
    - assert (dev_reaches pairs 0 0) as H0 by constructor.
      assert (dev_reaches pairs 0 1) as H1
        by (by apply (dev_reaches_pair pairs 0 1 (mkDevicePair 0 1))).
      assert (dev_reaches pairs 0 2) as H2
        by (by apply (dev_reaches_pair pairs 0 3 (mkDevicePair 0 2)); [lia| |]).
      assert (dev_reaches pairs 0 3) as H3
        by (by apply (dev_reaches_pair pairs 0 2 (mkDevicePair 2 3)); [lia| |]).
      intros [|[|[|[|i]]]] pr [= <-]; assumption. }
  split; [exact Hc|]. split; [exact Ht|].
  exact (Prepare_builds_tree ex_rt gpus pairs st0 Hc Ht eq_refl eq_refl).
Defined.

Lemma compute_Ok_NoDup (rt : HipRuntime) (gpus : list Z) (pairs : list DevicePair) :
  compute rt gpus [] = Ok pairs → gpus ≠ [] ∧ NoDup gpus.
Proof.
  intros H.
  apply compute_Ok in H as (root & rest & -> & [Hperm _] & Hlen & _ & Hnd).
  simpl in Hperm. split.
  - intros ->. simpl in Hlen. lia.
  - assert (root :: (device <$> rest) ≡ₚ gpus) as Hp
      by (rewrite <- Hperm; apply Permutation_cons_append).
    rewrite <- Hp. exact Hnd.
Qed.




(** ** Part 4: the gather round *)

(** Replacing one element of a list, seen through a [bind]. *)
Lemma bind_update {A B} (f : A → list B) (l : list A) (r : nat) (x y : A) :
  l !! r = Some x →
  ∃ K1 K2, l ≫= f = K1 ++ f x ++ K2 ∧ <[r := y]> l ≫= f = K1 ++ f y ++ K2.
Proof.
  revert r. induction l as [|a l IH]; intros r Hr; [done|].
  destruct r as [|r]; simpl in Hr.
  - injection Hr as ->. exists [], (l ≫= f). done.
  - destruct (IH r Hr) as (K1 & K2 & H1 & H2).
    exists (f a ++ K1), K2.
    change (<[S r := y]> (a :: l)) with (a :: <[r := y]> l).
    rewrite !bind_cons, H1, H2, <- !app_assoc. done.
Qed.

Lemma bind_ext_in {A B} (f g : A → list B) (l : list A) :
  (∀ x, x ∈ l → f x = g x) → l ≫= f = l ≫= g.
Proof.
  induction l as [|a l IH]; intros H; [done|].
  rewrite !bind_cons, H, IH; [done| |apply elem_of_cons; by left].
  intros x Hx. apply H. apply elem_of_cons. by right.
Qed.

Lemma bind_nil_all {A B} (f : A → list B) (l : list A) :
  (∀ j y, l !! j = Some y → f y = []) → l ≫= f = [].
Proof.
  induction l as [|a l IH]; intros H; [done|].
  rewrite bind_cons, (H 0%nat a eq_refl), IH; [done|].
  intros j y Hy. apply (H (S j) y Hy).
Qed.

Lemma bind_only {A B} (f : A → list B) (l : list A) (r : nat) (x : A) :
  l !! r = Some x →
  (∀ j y, l !! j = Some y → j ≠ r → f y = []) →
  l ≫= f = f x.
Proof.
  revert r. induction l as [|a l IH]; intros r Hr Hrest; [done|].
  rewrite bind_cons. destruct r as [|r]; simpl in Hr.
  - injection Hr as ->. rewrite bind_nil_all; [by rewrite app_nil_r|].
    intros j y Hy. apply (Hrest (S j) y Hy). lia.
  - rewrite (Hrest 0%nat a eq_refl) by lia. simpl. apply (IH r Hr).
    intros j y Hy Hj. apply (Hrest (S j) y Hy). lia.
Qed.

Section VectorFacts.

Context {Dtype : Type}.
Variable zero : Dtype.
Variable add : Dtype → Dtype → Dtype.
Variable size_ : nat.
Hypothesis add_comm : ∀ x y, add x y = add y x.
Hypothesis add_assoc : ∀ x y z, add x (add y z) = add (add x y) z.
Hypothesis add_zero : ∀ x, add x zero = x.

Implicit Types (a b c : list Dtype).

#[local] Abbreviation vadd := (zip_with add).
#[local] Abbreviation vsum' := (vsum zero add size_).

Lemma vadd_comm a b : vadd a b = vadd b a.
Proof.
  revert b. induction a as [|x a IH]; intros [|y b]; simpl; try done.
  by rewrite add_comm, IH.
Qed.

Lemma vadd_assoc a b c : vadd a (vadd b c) = vadd (vadd a b) c.
Proof.
  revert b c. induction a as [|x a IH]; intros [|y b] [|z c]; simpl; try done.
  by rewrite add_assoc, IH.
Qed.

Lemma vadd_zero a : length a = size_ → vadd a (replicate size_ zero) = a.
Proof.
  intros <-. induction a as [|x a IH]; simpl; [done|].
  by rewrite add_zero, IH.
Qed.

Lemma vsum_perm (l1 l2 : list (list Dtype)) : l1 ≡ₚ l2 → vsum' l1 = vsum' l2.
Proof.
  unfold vsum.
  apply (foldr_permutation_proper (=)); [solve_proper|].
  intros a1 a2 b. by rewrite !vadd_assoc, (vadd_comm a1 a2).
Qed.

End VectorFacts.

Section TreeShape.

Variable tree : list P2PSync.
Variable root : nat.
Hypothesis Htree : in_tree tree root.

Lemma root_node : ∃ n, tree !! root = Some n ∧ parent_ n = None.
Proof. by destruct Htree as [H _]. Qed.

Lemma children_spec p n :
  tree !! p = Some n →
  NoDup (children_ n) ∧
  ∀ c, c ∈ children_ n ↔ ∃ m, tree !! c = Some m ∧ parent_ m = Some p.
Proof. destruct Htree as (_ & _ & H). apply H. Qed.

Lemma reaches_node r : reaches tree root r → is_Some (tree !! r).
Proof.
  destruct 1 as [|c n p Hc _ _]; [|by exists n].
  destruct root_node as (n & Hn & _). by exists n.
Qed.

Lemma node_reaches r node : tree !! r = Some node → reaches tree root r.
Proof.
  intros Hr. destruct Htree as (_ & H & _). apply H. by eapply lookup_lt_Some.
Qed.

Lemma parent_node r node p :
  tree !! r = Some node → parent_ node = Some p → is_Some (tree !! p).
Proof.
  intros Hr Hp. pose proof (node_reaches r node Hr) as Hreach.
  destruct Hreach as [|c n p' Hc Hp' Hreach].
  - destruct root_node as (n & Hn & Hnone). congruence.
  - assert (p' = p) as -> by congruence. by apply reaches_node.
Qed.

Lemma reaches_not_own_parent r :
  reaches tree root r → ∀ node, tree !! r = Some node → parent_ node ≠ Some r.
Proof.
  induction 1 as [|c n p Hc Hp Hreach IH]; intros node Hnode.
  - destruct root_node as (n & Hn & Hnone). congruence.
  - assert (node = n) as -> by congruence. intros Hself.
    assert (p = c) as -> by congruence. by apply (IH n).
Qed.

Lemma parent_ne r node p :
  tree !! r = Some node → parent_ node = Some p → p ≠ r.
Proof.
  intros Hr Hp ->. by apply (reaches_not_own_parent r (node_reaches r node Hr) node).
Qed.

(** A replica is among the children of its parent. *)
Lemma child_of_parent r node p pn :
  tree !! r = Some node → parent_ node = Some p → tree !! p = Some pn →
  r ∈ children_ pn.
Proof. intros Hr Hp Hpn. apply (children_spec p pn Hpn). by exists node. Qed.

End TreeShape.

Section ReturnedFacts.

Context {Dtype : Type}.
Implicit Types (cfg : list (@Replica Dtype)) (me : @Replica Dtype) (l : list nat).

Lemma is_returned_true cfg c :
  is_returned cfg c = true ↔ ∃ cm, cfg !! c = Some cm ∧ progress cm = Returned.
Proof.
  unfold is_returned. destruct (cfg !! c) as [cm|].
  - destruct (progress cm) eqn:E; split; try done.
    + intros (cm' & [= <-] & E'). congruence.
    + intros _. by exists cm.
  - split; [done|]. by intros (cm & [=] & _).
Qed.

Lemma is_returned_reducing cfg c me i :
  cfg !! c = Some me → progress me = Reducing i → is_returned cfg c = false.
Proof. unfold is_returned. by intros -> ->. Qed.

Lemma returned_count_le cfg l : (returned_count cfg l ≤ length l)%nat.
Proof. apply length_filter. Qed.

Lemma returned_count_ext cfg cfg' l :
  (∀ c, c ∈ l → is_returned cfg' c = is_returned cfg c) →
  returned_count cfg' l = returned_count cfg l.
Proof.
  unfold returned_count. induction l as [|c l IH]; intros H; [done|].
  rewrite !filter_cons, (H c) by (apply elem_of_cons; by left).
  rewrite <- Nat.succ_inj_wd in IH.
  case_decide; simpl; [apply IH|apply Nat.succ_inj, IH];
    intros c' Hc'; apply H, elem_of_cons; by right.
Qed.

(** One more replica has returned: the count over a duplicate-free list
    that holds it goes up by one. *)
Lemma returned_count_new cfg cfg' l r :
  NoDup l → r ∈ l → is_returned cfg r = false →
  (∀ c, is_returned cfg' c = true ↔ c = r ∨ is_returned cfg c = true) →
  returned_count cfg' l = S (returned_count cfg l).
Proof.
  intros Hnd Hr Hfalse Hnew. unfold returned_count.
  induction Hnd as [|c l Hc Hnd IH]; [by apply elem_of_nil in Hr|].
  rewrite !filter_cons. apply elem_of_cons in Hr as [<-|Hr].
  - rewrite decide_True by (apply Hnew; by left).
    rewrite decide_False by congruence. simpl. f_equal.
    apply (returned_count_ext cfg cfg' l). intros c Hcl.
    destruct (is_returned cfg' c) eqn:E.
    + apply Hnew in E as [->|E]; [done|by rewrite E].
    + destruct (is_returned cfg c) eqn:E'; [|done].
      assert (is_returned cfg' c = true) by (apply Hnew; by right). congruence.
  - specialize (IH Hr). assert (c ≠ r) as Hne by (intros ->; done).
    destruct (is_returned cfg c) eqn:E.
    + rewrite !decide_True by (try apply Hnew; auto). simpl. by rewrite IH.
    + rewrite !decide_False; [done|congruence|].
      intros H. apply Hnew in H as [?|?]; congruence.
Qed.

Lemma returned_count_full cfg l :
  returned_count cfg l = length l → ∀ c, c ∈ l → is_returned cfg c = true.
Proof.
  unfold returned_count. induction l as [|c l IH]; intros H c' Hc';
    [by apply elem_of_nil in Hc'|].
  rewrite filter_cons in H. pose proof (returned_count_le cfg l) as Hle.
  unfold returned_count in Hle. simpl in H.
  case_decide as Hc; simpl in H; [|lia].
  apply elem_of_cons in Hc' as [->|Hc']; [done|]. apply IH; [lia|done].
Qed.

Lemma is_returned_insert cfg (r : nat) me' c :
  (r < length cfg)%nat →
  is_returned (<[r := me']> cfg) c =
  if decide (c = r)
  then match progress me' with Returned => true | Reducing _ => false end
  else is_returned cfg c.
Proof.
  intros Hr. unfold is_returned. case_decide as Hc.
  - subst c. by rewrite list_lookup_insert_eq.
  - by rewrite list_lookup_insert_ne.
Qed.

Lemma is_returned_push cfg (p x : nat) c :
  is_returned (alter (queue_push x) p cfg) c = is_returned cfg c.
Proof.
  unfold is_returned. destruct (decide (c = p)) as [->|Hne].
  - rewrite list_lookup_alter_eq. by destruct (cfg !! p).
  - by rewrite list_lookup_alter_ne.
Qed.

End ReturnedFacts.

Section BufferOps.

Context {Dtype : Type}.
Variable add : Dtype → Dtype → Dtype.
Variable mul : Dtype → Dtype → Dtype.
Implicit Types (a b y : list Dtype).

Lemma caffe_gpu_add_full n a b y :
  length a = n → length b = n → length y = n →
  caffe_gpu_add add n a b y = zip_with add a b.
Proof.
  intros Ha Hb Hy. unfold caffe_gpu_add.
  rewrite !take_ge, drop_ge, app_nil_r by lia. done.
Qed.

Lemma hipMemcpy_full n a y : length a = n → length y = n → hipMemcpy n a y = a.
Proof.
  intros Ha Hy. unfold hipMemcpy. rewrite take_ge, drop_ge, app_nil_r by lia. done.
Qed.

Lemma caffe_gpu_scal_full n alpha a :
  length a = n → caffe_gpu_scal mul n alpha a = mul alpha <$> a.
Proof.
  intros Ha. unfold caffe_gpu_scal. rewrite take_ge, drop_ge, app_nil_r by lia. done.
Qed.

Lemma zip_with_add_length a b n :
  length a = n → length b = n → length (zip_with add a b) = n.
Proof. intros Ha Hb. rewrite length_zip_with. lia. Qed.

End BufferOps.

Section GatherSteps.

Context {Dtype : Type}.
Variable add : Dtype → Dtype → Dtype.
Variable mul : Dtype → Dtype → Dtype.
Variable recip : Z → Dtype.
Variable solver_count : Z.
Variable tree : list P2PSync.
Variable size_ : nat.
Variable root : nat.
Hypothesis Htree : in_tree tree root.

Implicit Types (cfg : list (@Replica Dtype)) (me : @Replica Dtype).

#[local] Abbreviation ogr := (on_gradients_ready add mul recip solver_count tree size_).
#[local] Abbreviation Inv := (Gather_inv tree size_).

#[local] Abbreviation popped := (popped add size_).
#[local] Abbreviation sent := (sent size_).
#[local] Abbreviation scaled := (scaled mul recip solver_count size_).

Lemma on_gradients_ready_cases r cfg cfg' :
  ogr r cfg = Some cfg' →
  ∃ node me i,
    tree !! r = Some node ∧ cfg !! r = Some me ∧ progress me = Reducing i ∧
    (((i < length (children_ node))%nat ∧
      ∃ child q ch, queue_ me = child :: q ∧ cfg !! child = Some ch ∧
                    cfg' = <[r := popped me ch q i]> cfg) ∨
     (¬ (i < length (children_ node))%nat ∧
      ∃ p, parent_ node = Some p ∧
           cfg' = alter (queue_push r) p (<[r := sent me]> cfg)) ∨
     (¬ (i < length (children_ node))%nat ∧ parent_ node = None ∧
      cfg' = <[r := scaled me]> cfg)).
Proof.
  unfold on_gradients_ready. intros H.
  destruct (tree !! r) as [node|] eqn:Hnode; [|done].
  destruct (cfg !! r) as [me|] eqn:Hme; [|done]. simpl in H.
  destruct (progress me) as [i|] eqn:Hprog; [|done].
  exists node, me, i. repeat split; try done.
  case_bool_decide as Hi.
  - left. split; [done|].
    destruct (queue_ me) as [|child q] eqn:Hq; [done|].
    destruct (cfg !! child) as [ch|] eqn:Hch; [|done]. simpl in H.
    injection H as <-. by exists child, q, ch.
  - right. destruct (parent_ node) as [p|] eqn:Hp; injection H as <-.
    + left. split; [done|]. by exists p.
    + right. done.
Qed.

(** At the end of its loop a replica has an empty mailbox and all its
    children have returned. *)
Lemma loop_exit cfg r me node i :
  Inv cfg → cfg !! r = Some me → tree !! r = Some node →
  progress me = Reducing i → ¬ (i < length (children_ node))%nat →
  queue_ me = [] ∧ ∀ c, c ∈ children_ node → is_returned cfg c = true.
Proof.
  intros Hinv Hme Hnode Hprog Hi.
  pose proof (ginv_reducing _ _ _ Hinv r me node i Hme Hnode Hprog) as Hcount.
  pose proof (returned_count_le cfg (children_ node)) as Hle.
  split.
  - apply length_zero_iff_nil. lia.
  - apply returned_count_full. lia.
Qed.

End GatherSteps.

Section GatherInvariant.

Context {Dtype : Type}.
Variable add : Dtype → Dtype → Dtype.
Variable mul : Dtype → Dtype → Dtype.
Variable recip : Z → Dtype.
Variable solver_count : Z.
Variable tree : list P2PSync.
Variable size_ : nat.
Variable root : nat.
Hypothesis Htree : in_tree tree root.

Implicit Types (cfg : list (@Replica Dtype)) (me : @Replica Dtype).

#[local] Abbreviation Inv := (Gather_inv tree size_).
#[local] Abbreviation popped := (popped add size_).
#[local] Abbreviation sent := (sent size_).
#[local] Abbreviation scaled := (scaled mul recip solver_count size_).

(** A pop: nobody returns, the mailbox of [r] loses its head. *)
Lemma pop_inv cfg r me i child q ch :
  Inv cfg → cfg !! r = Some me → progress me = Reducing i →
  queue_ me = child :: q → cfg !! child = Some ch →
  Inv (<[r := popped me ch q i]> cfg).
Proof.
  intros Hinv Hme Hprog Hq Hch.
  pose proof (lookup_lt_Some _ _ _ Hme) as Hr.
  destruct (ginv_buffers _ _ _ Hinv r me Hme) as [Hd Hpg].
  destruct (ginv_buffers _ _ _ Hinv child ch Hch) as [_ Hcpg].
  assert (∀ c, is_returned (<[r := popped me ch q i]> cfg) c = is_returned cfg c) as Hret.
  { intros c. rewrite is_returned_insert by done. case_decide as Hc; [|done].
    subst c. simpl. symmetry. by eapply is_returned_reducing. }
  assert (∀ l, returned_count (<[r := popped me ch q i]> cfg) l = returned_count cfg l)
    as Hcount by (intros l; by apply returned_count_ext).
  split.
  - rewrite length_insert. apply (ginv_length _ _ _ Hinv).
  - intros j x Hx. destruct (decide (j = r)) as [->|Hne].
    + rewrite list_lookup_insert_eq in Hx by done. injection Hx as <-. simpl.
      split; [|done]. rewrite caffe_gpu_add_full by done.
      by apply zip_with_add_length.
    + rewrite list_lookup_insert_ne in Hx by done.
      apply (ginv_buffers _ _ _ Hinv j x Hx).
  - intros j x c Hx Hc. rewrite Hret. destruct (decide (j = r)) as [->|Hne].
    + rewrite list_lookup_insert_eq in Hx by done. injection Hx as <-. simpl in Hc.
      apply (ginv_queue _ _ _ Hinv r me c Hme). rewrite Hq. apply elem_of_cons. by right.
    + rewrite list_lookup_insert_ne in Hx by done.
      apply (ginv_queue _ _ _ Hinv j x c Hx Hc).
  - intros j x node k Hx Hnode Hk. rewrite Hcount.
    destruct (decide (j = r)) as [->|Hne].
    + rewrite list_lookup_insert_eq in Hx by done. injection Hx as <-.
      simpl in Hk. injection Hk as <-. simpl.
      pose proof (ginv_reducing _ _ _ Hinv r me node i Hme Hnode Hprog) as H.
      rewrite Hq in H. simpl in H. lia.
    + rewrite list_lookup_insert_ne in Hx by done.
      apply (ginv_reducing _ _ _ Hinv j x node k Hx Hnode Hk).
  - intros j x node Hx Hnode Hk. destruct (decide (j = r)) as [->|Hne].
    + rewrite list_lookup_insert_eq in Hx by done. by injection Hx as <-.
    + rewrite list_lookup_insert_ne in Hx by done.
      destruct (ginv_returned _ _ _ Hinv j x node Hx Hnode Hk) as [H1 H2].
      split; [done|]. intros c Hc. rewrite Hret. by apply H2.
Qed.

(** A replica returns: its mailbox is empty, its children have returned
    and, of all the nodes, only its parent counts one more returned
    child. *)
Lemma return_count cfg cfg' r node :
  tree !! r = Some node → is_returned cfg r = false →
  (∀ c, is_returned cfg' c = true ↔ c = r ∨ is_returned cfg c = true) →
  ∀ j nj, tree !! j = Some nj →
    returned_count cfg' (children_ nj) =
    if decide (parent_ node = Some j)
    then S (returned_count cfg (children_ nj))
    else returned_count cfg (children_ nj).
Proof.
  intros Hnode Hfalse Hnew j nj Hnj.
  destruct (children_spec tree root Htree j nj Hnj) as [Hnd Hin].
  case_decide as Hpar.
  - apply (returned_count_new cfg cfg' _ r); try done.
    apply Hin. by exists node.
  - apply returned_count_ext. intros c Hc.
    assert (c ≠ r) as Hne.
    { intros ->. apply Hin in Hc as (m & Hm & Hp). congruence. }
    destruct (is_returned cfg' c) eqn:E.
    + apply Hnew in E as [->|E]; [done|by rewrite E].
    + destruct (is_returned cfg c) eqn:E'; [|done].
      assert (is_returned cfg' c = true) by (apply Hnew; by right). congruence.
Qed.

Lemma returned_mono cfg cfg' r :
  (∀ c, is_returned cfg' c = true ↔ c = r ∨ is_returned cfg c = true) →
  ∀ c, is_returned cfg c = true → is_returned cfg' c = true.
Proof. intros H c Hc. apply H. by right. Qed.

(** A replica other than the root ends its loop: it copies [diff_] into
    [parent_grads_], pushes itself to its parent and returns. *)
Lemma send_inv cfg r me node i p :
  Inv cfg → cfg !! r = Some me → tree !! r = Some node →
  progress me = Reducing i → ¬ (i < length (children_ node))%nat →
  parent_ node = Some p →
  Inv (alter (queue_push r) p (<[r := sent me]> cfg)).
Proof.
  intros Hinv Hme Hnode Hprog Hi Hp.
  set (cfg' := alter (queue_push r) p (<[r := sent me]> cfg)).
  pose proof (lookup_lt_Some _ _ _ Hme) as Hr.
  pose proof (ginv_length _ _ _ Hinv) as Hlen.
  destruct (loop_exit tree size_ cfg r me node i Hinv Hme Hnode Hprog Hi) as [Hq Hchildren].
  destruct (ginv_buffers _ _ _ Hinv r me Hme) as [Hd Hpg].
  pose proof (parent_ne tree root Htree r node p Hnode Hp) as Hne.
  destruct (parent_node tree root Htree r node p Hnode Hp) as [pn Hpn].
  destruct (lookup_lt_is_Some_2 cfg p) as [pm Hpm];
    [rewrite Hlen; by eapply lookup_lt_Some|].
  pose proof (is_returned_reducing cfg r me i Hme Hprog) as Hfalse.
  assert (∃ ip, progress pm = Reducing ip) as [ip Hip].
  { destruct (progress pm) as [ip|] eqn:E; [by exists ip|].
    destruct (ginv_returned _ _ _ Hinv p pm pn Hpm Hpn E) as [_ Hall].
    rewrite (Hall r) in Hfalse; [done|].
    by eapply (child_of_parent tree root Htree). }
  assert (∀ j, cfg' !! j =
               if decide (j = r) then Some (sent me)
               else if decide (j = p) then Some (queue_push r pm) else cfg !! j) as Hlook.
  { intros j. unfold cfg'. destruct (decide (j = p)) as [->|Hjp].
    - rewrite list_lookup_alter_eq, list_lookup_insert_ne, Hpm by done.
      by rewrite decide_False by done.
    - rewrite list_lookup_alter_ne by done. case_decide as Hjr.
      + subst j. by rewrite list_lookup_insert_eq.
      + by rewrite list_lookup_insert_ne. }
  assert (∀ c, is_returned cfg' c = true ↔ c = r ∨ is_returned cfg c = true) as Hret.
  { intros c. unfold cfg'. rewrite is_returned_push, is_returned_insert by done.
    case_decide as Hc; simpl; [by split; [left|]|].
    split; [by right|]. by intros [?|?]. }
  pose proof (return_count cfg cfg' r node Hnode Hfalse Hret) as Hcount.
  pose proof (returned_mono cfg cfg' r Hret) as Hmono.
  split.
  - unfold cfg'. rewrite length_alter, length_insert. done.
  - intros j x Hx. rewrite Hlook in Hx.
    case_decide as Hjr; [|case_decide as Hjp].
    + injection Hx as <-. simpl. split; [done|]. by rewrite hipMemcpy_full.
    + injection Hx as <-. simpl. apply (ginv_buffers _ _ _ Hinv p pm Hpm).
    + apply (ginv_buffers _ _ _ Hinv j x Hx).
  - intros j x c Hx Hc. rewrite Hlook in Hx.
    case_decide as Hjr; [|case_decide as Hjp].
    + injection Hx as <-. simpl in Hc. rewrite Hq in Hc. by apply elem_of_nil in Hc.
    + injection Hx as <-. simpl in Hc. subst j.
      apply elem_of_app in Hc as [Hc|Hc%list_elem_of_singleton].
      * destruct (ginv_queue _ _ _ Hinv p pm c Hpm Hc) as [H1 H2]. split; [auto|done].
      * subst c. split; [apply Hret; by left|]. by exists node.
    + destruct (ginv_queue _ _ _ Hinv j x c Hx Hc) as [H1 H2]. split; [auto|done].
  - intros j x nj k Hx Hnj Hk. rewrite (Hcount j nj Hnj). rewrite Hlook in Hx.
    case_decide as Hjr; [|case_decide as Hjp].
    + by injection Hx as <-.
    + injection Hx as <-. subst j. simpl in Hk. simpl.
      rewrite decide_True by done. rewrite length_app. simpl.
      pose proof (ginv_reducing _ _ _ Hinv p pm nj k Hpm Hnj Hk). lia.
    + rewrite decide_False by congruence.
      apply (ginv_reducing _ _ _ Hinv j x nj k Hx Hnj Hk).
  - intros j x nj Hx Hnj Hk. rewrite Hlook in Hx.
    case_decide as Hjr; [|case_decide as Hjp].
    + injection Hx as <-. subst j. simpl. split; [done|].
      assert (nj = node) as -> by congruence. auto.
    + injection Hx as <-. simpl in Hk. congruence.
    + destruct (ginv_returned _ _ _ Hinv j x nj Hx Hnj Hk) as [H1 H2]. split; [done|auto].
Qed.

(** The root ends its loop: it scales [diff_] and returns. *)
Lemma scale_inv cfg r me node i :
  Inv cfg → cfg !! r = Some me → tree !! r = Some node →
  progress me = Reducing i → ¬ (i < length (children_ node))%nat →
  parent_ node = None →
  Inv (<[r := scaled me]> cfg).
Proof.
  intros Hinv Hme Hnode Hprog Hi Hp.
  set (cfg' := <[r := scaled me]> cfg).
  pose proof (lookup_lt_Some _ _ _ Hme) as Hr.
  destruct (loop_exit tree size_ cfg r me node i Hinv Hme Hnode Hprog Hi) as [Hq Hchildren].
  destruct (ginv_buffers _ _ _ Hinv r me Hme) as [Hd Hpg].
  pose proof (is_returned_reducing cfg r me i Hme Hprog) as Hfalse.
  assert (∀ j, cfg' !! j = if decide (j = r) then Some (scaled me) else cfg !! j) as Hlook.
  { intros j. unfold cfg'. case_decide as Hjr.
    - subst j. by rewrite list_lookup_insert_eq.
    - by rewrite list_lookup_insert_ne. }
  assert (∀ c, is_returned cfg' c = true ↔ c = r ∨ is_returned cfg c = true) as Hret.
  { intros c. unfold cfg'. rewrite is_returned_insert by done.
    case_decide as Hc; simpl; [by split; [left|]|].
    split; [by right|]. by intros [?|?]. }
  pose proof (return_count cfg cfg' r node Hnode Hfalse Hret) as Hcount.
  pose proof (returned_mono cfg cfg' r Hret) as Hmono.
  split.
  - unfold cfg'. rewrite length_insert. apply (ginv_length _ _ _ Hinv).
  - intros j x Hx. rewrite Hlook in Hx. case_decide as Hjr.
    + injection Hx as <-. simpl. split; [|done].
      rewrite caffe_gpu_scal_full by done. by rewrite length_fmap.
    + apply (ginv_buffers _ _ _ Hinv j x Hx).
  - intros j x c Hx Hc. rewrite Hlook in Hx. case_decide as Hjr.
    + injection Hx as <-. simpl in Hc. rewrite Hq in Hc. by apply elem_of_nil in Hc.
    + destruct (ginv_queue _ _ _ Hinv j x c Hx Hc) as [H1 H2]. split; [auto|done].
  - intros j x nj k Hx Hnj Hk. rewrite (Hcount j nj Hnj). rewrite Hlook in Hx.
    rewrite decide_False by congruence. case_decide as Hjr.
    + by injection Hx as <-.
    + apply (ginv_reducing _ _ _ Hinv j x nj k Hx Hnj Hk).
  - intros j x nj Hx Hnj Hk. rewrite Hlook in Hx. case_decide as Hjr.
    + injection Hx as <-. subst j. simpl. split; [done|].
      assert (nj = node) as -> by congruence. auto.
    + destruct (ginv_returned _ _ _ Hinv j x nj Hx Hnj Hk) as [H1 H2]. split; [done|auto].
Qed.

(** Every action keeps the invariant. *)
Lemma on_gradients_ready_inv cfg r cfg' :
  Inv cfg →
  on_gradients_ready add mul recip solver_count tree size_ r cfg = Some cfg' →
  Inv cfg'.
Proof.
  intros Hinv H.
  apply on_gradients_ready_cases in H
    as (node & me & i & Hnode & Hme & Hprog &
        [(Hi & child & q & ch & Hq & Hch & ->)|[(Hi & p & Hp & ->)|(Hi & Hp & ->)]]).
  - by eapply pop_inv.
  - by eapply send_inv.
  - by eapply scale_inv.
Qed.

End GatherInvariant.

Lemma list_alter_as_insert {A} (f : A → A) (l : list A) (i : nat) (x : A) :
  l !! i = Some x → alter f i l = <[i := f x]> l.
Proof.
  revert i. induction l as [|a l IH]; intros [|i] Hi; try done; simpl in *.
  - by injection Hi as ->.
  - f_equal. by apply IH.
Qed.

Lemma omap_ext_in {A B} (f g : A → option B) (l : list A) :
  (∀ x, x ∈ l → f x = g x) → omap f l = omap g l.
Proof.
  induction l as [|a l IH]; intros H; [done|].
  cbn. rewrite (H a) by (apply elem_of_cons; by left).
  rewrite IH; [done|]. intros x Hx. apply H, elem_of_cons. by right.
Qed.

Section GatherMass.

Context {Dtype : Type}.
Variable zero : Dtype.
Variable add : Dtype → Dtype → Dtype.
Variable mul : Dtype → Dtype → Dtype.
Variable recip : Z → Dtype.
Variable solver_count : Z.
Variable tree : list P2PSync.
Variable size_ : nat.
Variable root : nat.
Hypothesis Htree : in_tree tree root.
Hypothesis add_comm : ∀ x y, add x y = add y x.
Hypothesis add_assoc : ∀ x y z, add x (add y z) = add (add x y) z.
Hypothesis add_zero : ∀ x, add x zero = x.

Implicit Types (cfg : list (@Replica Dtype)) (me : @Replica Dtype).

#[local] Abbreviation Inv := (Gather_inv tree size_).
#[local] Abbreviation popped := (popped add size_).
#[local] Abbreviation sent := (sent size_).
#[local] Abbreviation scaled := (scaled mul recip solver_count size_).
#[local] Abbreviation vsum := (vsum zero add size_).

Lemma inbox_ext cfg cfg' me :
  (∀ c, c ∈ queue_ me → parent_grads_ <$> cfg' !! c = parent_grads_ <$> cfg !! c) →
  inbox cfg' me = inbox cfg me.
Proof.
  intros H. unfold inbox. by apply omap_ext_in.
Qed.

Lemma vsum_merge_head (a b : list Dtype) (K : list (list Dtype)) :
  vsum (a :: b :: K) = vsum (zip_with add b a :: K).
Proof.
  simpl. rewrite (vadd_assoc add add_assoc), (vadd_comm add add_comm a b). done.
Qed.

(** A pop moves a gradient from a mailbox into a [diff_]. *)
Lemma pop_mass cfg r me i child q ch :
  Inv cfg → cfg !! r = Some me → progress me = Reducing i →
  queue_ me = child :: q → cfg !! child = Some ch →
  vsum (mass (<[r := popped me ch q i]> cfg)) = vsum (mass cfg).
Proof.
  intros Hinv Hme Hprog Hq Hch.
  pose proof (lookup_lt_Some _ _ _ Hme) as Hr.
  destruct (ginv_buffers _ _ _ Hinv r me Hme) as [Hd Hpg].
  destruct (ginv_buffers _ _ _ Hinv child ch Hch) as [_ Hcpg].
  unfold mass.
  rewrite (bind_ext_in (inbox (<[r := popped me ch q i]> cfg)) (inbox cfg)).
  2:{ intros x _. apply inbox_ext. intros c _.
      destruct (decide (c = r)) as [->|Hne].
      - by rewrite list_lookup_insert_eq, Hme.
      - by rewrite list_lookup_insert_ne. }
  destruct (bind_update live cfg r me (popped me ch q i) Hme) as (K1 & K2 & -> & ->).
  destruct (bind_update (inbox cfg) cfg r me (popped me ch q i) Hme)
    as (L1 & L2 & -> & ->).
  assert (live me = [diff_ me]) as -> by (unfold live; by rewrite Hprog).
  assert (live (popped me ch q i) = [zip_with add (parent_grads_ ch) (diff_ me)]) as ->.
  { unfold live. simpl. by rewrite caffe_gpu_add_full. }
  assert (inbox cfg me = parent_grads_ ch :: inbox cfg (popped me ch q i)) as ->.
  { unfold inbox. rewrite Hq. simpl. by rewrite Hch. }
  set (rest := inbox cfg (popped me ch q i)).
  rewrite (vsum_perm zero add size_ add_comm add_assoc _
             (zip_with add (parent_grads_ ch) (diff_ me) :: K1 ++ K2 ++ L1 ++ rest ++ L2))
    by solve_Permutation.
  rewrite (vsum_perm zero add size_ add_comm add_assoc
             ((K1 ++ [diff_ me] ++ K2) ++ L1 ++ (parent_grads_ ch :: rest) ++ L2)
             (diff_ me :: parent_grads_ ch :: K1 ++ K2 ++ L1 ++ rest ++ L2))
    by solve_Permutation.
  by rewrite vsum_merge_head.
Qed.

(** A send moves a gradient from a [diff_] into the parent's mailbox. *)
Lemma send_mass cfg r me node i p :
  Inv cfg → cfg !! r = Some me → tree !! r = Some node →
  progress me = Reducing i → ¬ (i < length (children_ node))%nat →
  parent_ node = Some p →
  vsum (mass (alter (queue_push r) p (<[r := sent me]> cfg))) = vsum (mass cfg).
Proof.
  intros Hinv Hme Hnode Hprog Hi Hp.
  pose proof (lookup_lt_Some _ _ _ Hme) as Hr.
  pose proof (ginv_length _ _ _ Hinv) as Hlen.
  destruct (loop_exit tree size_ cfg r me node i Hinv Hme Hnode Hprog Hi) as [Hq _].
  destruct (ginv_buffers _ _ _ Hinv r me Hme) as [Hd Hpg].
  pose proof (parent_ne tree root Htree r node p Hnode Hp) as Hne.
  destruct (parent_node tree root Htree r node p Hnode Hp) as [pn Hpn].
  destruct (lookup_lt_is_Some_2 cfg p) as [pm Hpm];
    [rewrite Hlen; by eapply lookup_lt_Some|].
  pose proof (is_returned_reducing cfg r me i Hme Hprog) as Hfalse.
  set (cfgA := <[r := sent me]> cfg).
  assert (cfgA !! p = Some pm) as HpmA
    by (unfold cfgA; by rewrite list_lookup_insert_ne).
  rewrite (list_alter_as_insert _ cfgA p pm HpmA).
  set (cfg' := <[p := queue_push r pm]> cfgA).
  assert (cfg' !! r = Some (sent me)) as Hr'.
  { unfold cfg', cfgA. rewrite list_lookup_insert_ne by done.
    by rewrite list_lookup_insert_eq. }
  assert (∀ c, c ≠ r → parent_grads_ <$> cfg' !! c = parent_grads_ <$> cfg !! c) as Hpgs.
  { intros c Hc. unfold cfg', cfgA. destruct (decide (c = p)) as [->|Hcp].
    - rewrite list_lookup_insert_eq by (rewrite length_insert; by eapply lookup_lt_Some).
      by rewrite Hpm.
    - rewrite !list_lookup_insert_ne by done. done. }
  unfold mass.
  (* the [diff_]s of the replicas still in their loop *)
  destruct (bind_update live cfg r me (sent me) Hme) as (K1 & K2 & HL & HLA).
  fold cfgA in HLA.
  destruct (bind_update live cfgA p pm (queue_push r pm) HpmA) as (K1' & K2' & HLA' & HL').
  fold cfg' in HL'.
  assert (cfg' ≫= live = K1 ++ K2) as ->.
  { rewrite HL'. change (live (queue_push r pm)) with (live pm).
    by rewrite <- HLA', HLA. }
  rewrite HL. assert (live me = [diff_ me]) as -> by (unfold live; by rewrite Hprog).
  (* the mailboxes *)
  destruct (bind_update (inbox cfg') cfgA p pm (queue_push r pm) HpmA)
    as (L1 & L2 & HIA & HI').
  fold cfg' in HI'. rewrite HI'.
  assert (inbox cfg' (queue_push r pm) = inbox cfg' pm ++ [diff_ me]) as ->.
  { unfold inbox. simpl. rewrite omap_app. simpl. rewrite Hr'. simpl.
    by rewrite hipMemcpy_full. }
  assert (cfg ≫= inbox cfg = L1 ++ inbox cfg' pm ++ L2) as ->.
  { rewrite <- HIA.
    destruct (bind_update (inbox cfg') cfg r me (sent me) Hme) as (J1 & J2 & HJ & HJA).
    fold cfgA in HJA. rewrite HJA.
    assert (inbox cfg' (sent me) = inbox cfg' me) as -> by done.
    rewrite <- HJ. symmetry. apply bind_ext_in. intros x Hx.
    apply list_elem_of_lookup in Hx as [j Hx].
    apply inbox_ext. intros c Hc. apply Hpgs. intros ->.
    destruct (ginv_queue _ _ _ Hinv j x r Hx Hc) as [Htrue _]. congruence. }
  apply (vsum_perm zero add size_ add_comm add_assoc). solve_Permutation.
Qed.

End GatherMass.

Section GatherRound.

Context {Dtype : Type}.
Variable zero : Dtype.
Variable add : Dtype → Dtype → Dtype.
Variable mul : Dtype → Dtype → Dtype.
Variable recip : Z → Dtype.
Variable solver_count : Z.
Variable tree : list P2PSync.
Variable size_ : nat.
Variable root : nat.
Hypothesis Htree : in_tree tree root.
Hypothesis add_comm : ∀ x y, add x y = add y x.
Hypothesis add_assoc : ∀ x y z, add x (add y z) = add (add x y) z.
Hypothesis add_zero : ∀ x, add x zero = x.

Implicit Types (cfg : list (@Replica Dtype)) (me : @Replica Dtype).

#[local] Abbreviation Inv := (Gather_inv tree size_).
#[local] Abbreviation scaled := (scaled mul recip solver_count size_).
#[local] Abbreviation vsum := (vsum zero add size_).
#[local] Abbreviation ogr := (on_gradients_ready add mul recip solver_count tree size_).

Lemma root_unique r node : tree !! r = Some node → parent_ node = None → r = root.
Proof.
  intros Hr Hp. destruct (node_reaches tree root Htree r node Hr) as [|c n p Hc Hp' _];
    [done|congruence].
Qed.

(** Once the children of the root have returned, every other replica
    has. *)
Lemma all_returned cfg rnode :
  Inv cfg → tree !! root = Some rnode →
  (∀ c, c ∈ children_ rnode → is_returned cfg c = true) →
  ∀ j, reaches tree root j → j ≠ root → is_returned cfg j = true.
Proof.
  intros Hinv Hroot Hchildren j Hreach.
  induction Hreach as [|c n p Hc Hp Hreach IH]; intros Hne; [done|].
  destruct (decide (p = root)) as [->|Hp'].
  - apply Hchildren. by eapply (child_of_parent tree root Htree).
  - specialize (IH Hp'). apply is_returned_true in IH as (pm & Hpm & Hret).
    destruct (reaches_node tree root Htree p Hreach) as [pn Hpn].
    destruct (ginv_returned _ _ _ Hinv p pm pn Hpm Hpn Hret) as [_ Hall].
    apply Hall. by eapply (child_of_parent tree root Htree).
Qed.

(** When the root leaves its loop, its [diff_] is all there is. *)
Lemma root_mass cfg me node i :
  Inv cfg → cfg !! root = Some me → tree !! root = Some node →
  progress me = Reducing i → ¬ (i < length (children_ node))%nat →
  vsum (mass cfg) = diff_ me.
Proof.
  intros Hinv Hme Hnode Hprog Hi.
  destruct (loop_exit tree size_ cfg root me node i Hinv Hme Hnode Hprog Hi)
    as [Hq Hchildren].
  destruct (ginv_buffers _ _ _ Hinv root me Hme) as [Hd _].
  pose proof (ginv_length _ _ _ Hinv) as Hlen.
  assert (∀ j x, cfg !! j = Some x → j ≠ root → progress x = Returned) as Hothers.
  { intros j x Hx Hj.
    destruct (lookup_lt_is_Some_2 tree j) as [nj Hnj];
      [rewrite <- Hlen; by eapply lookup_lt_Some|].
    pose proof (all_returned cfg node Hinv Hnode Hchildren j
                  (node_reaches tree root Htree j nj Hnj) Hj) as Hret.
    apply is_returned_true in Hret as (x' & Hx' & Hret). congruence. }
  assert (∀ j x, cfg !! j = Some x → queue_ x = []) as Hqueues.
  { intros j x Hx. destruct (decide (j = root)) as [->|Hj]; [congruence|].
    destruct (lookup_lt_is_Some_2 tree j) as [nj Hnj];
      [rewrite <- Hlen; by eapply lookup_lt_Some|].
    by destruct (ginv_returned _ _ _ Hinv j x nj Hx Hnj (Hothers j x Hx Hj)). }
  unfold mass.
  rewrite (bind_only live cfg root me Hme).
  2:{ intros j x Hx Hj. unfold live. by rewrite (Hothers j x Hx Hj). }
  rewrite (bind_nil_all (inbox cfg) cfg).
  2:{ intros j x Hx. unfold inbox. by rewrite (Hqueues j x Hx). }
  unfold live. rewrite Hprog. simpl.
  by apply (vadd_zero zero add size_ add_zero).
Qed.

(** The state of the sum along a run: before the root returns, the
    gradients on their way add up to [total]; afterwards the root's
    [diff_] is [total] scaled. *)
Lemma on_gradients_ready_sum cfg r cfg' (total : list Dtype) :
  Inv cfg → ogr r cfg = Some cfg' →
  (is_returned cfg root = false ∧ vsum (mass cfg) = total) ∨
  (∃ me, cfg !! root = Some me ∧ progress me = Returned ∧
         diff_ me = mul (recip solver_count) <$> total) →
  (is_returned cfg' root = false ∧ vsum (mass cfg') = total) ∨
  (∃ me, cfg' !! root = Some me ∧ progress me = Returned ∧
         diff_ me = mul (recip solver_count) <$> total).
Proof.
  intros Hinv Hstep Hsum.
  apply on_gradients_ready_cases in Hstep
    as (node & me & i & Hnode & Hme & Hprog &
        [(Hi & child & q & ch & Hq & Hch & ->)|[(Hi & p & Hp & ->)|(Hi & Hp & ->)]]).
  - (* pop *)
    pose proof (lookup_lt_Some _ _ _ Hme) as Hr.
    destruct Hsum as [[Hfalse Hmass]|(rm & Hrm & Hret & Hdiff)].
    + left. split.
      * rewrite is_returned_insert by done. case_decide; [done|done].
      * rewrite <- Hmass. by eapply (pop_mass zero add tree size_).
    + right. exists rm. repeat split; try done.
      rewrite list_lookup_insert_ne; [done|]. intros ->. congruence.
  - (* send *)
    pose proof (lookup_lt_Some _ _ _ Hme) as Hr.
    assert (r ≠ root) as Hne.
    { intros ->. destruct (root_node tree root Htree) as (n & Hn & Hnone). congruence. }
    destruct Hsum as [[Hfalse Hmass]|(rm & Hrm & Hret & Hdiff)].
    + left. split.
      * rewrite is_returned_push, is_returned_insert by done.
        by rewrite decide_False by done.
      * rewrite <- Hmass. by eapply (send_mass zero add tree size_ root).
    + right. destruct (decide (p = root)) as [->|Hp'].
      * exists (queue_push r rm).
        rewrite list_lookup_alter_eq, list_lookup_insert_ne, Hrm by done. done.
      * exists rm. rewrite list_lookup_alter_ne, list_lookup_insert_ne by done. done.
  - (* scale *)
    pose proof (lookup_lt_Some _ _ _ Hme) as Hr.
    pose proof (root_unique r node Hnode Hp) as ->.
    destruct (ginv_buffers _ _ _ Hinv root me Hme) as [Hd _].
    right. exists (scaled me). rewrite list_lookup_insert_eq by done.
    repeat split; try done. simpl. rewrite caffe_gpu_scal_full by done.
    destruct Hsum as [[Hfalse Hmass]|(rm & Hrm & Hret & Hdiff)]; [|congruence].
    by rewrite <- Hmass, (root_mass cfg me node i).
Qed.

(** On entry of the round. *)
Lemma enters_inv cfg0 :
  length cfg0 = length tree → Forall (enters size_) cfg0 → Inv cfg0.
Proof.
  intros Hlen Henter. rewrite Forall_lookup in Henter.
  assert (∀ c, is_returned cfg0 c = false) as Hnone.
  { intros c. unfold is_returned. destruct (cfg0 !! c) as [cm|] eqn:E; [|done].
    destruct (Henter c cm E) as (_ & -> & _). done. }
  split.
  - done.
  - intros r me Hme. by destruct (Henter r me Hme) as (_ & _ & ? & ?).
  - intros r me c Hme Hc. destruct (Henter r me Hme) as (Hq & _).
    rewrite Hq in Hc. by apply elem_of_nil in Hc.
  - intros r me node i Hme Hnode Hprog. destruct (Henter r me Hme) as (Hq & Hp & _).
    rewrite Hq. assert (i = 0%nat) as -> by congruence. simpl.
    unfold returned_count. symmetry. apply length_zero_iff_nil.
    induction (children_ node) as [|c l IH]; [done|].
    rewrite filter_cons, decide_False; [done|]. by rewrite Hnone.
  - intros r me node Hme Hnode Hprog. destruct (Henter r me Hme) as (_ & Hp & _).
    congruence.
Qed.

Lemma enters_mass cfg0 :
  Forall (enters size_) cfg0 → mass cfg0 = diff_ <$> cfg0.
Proof.
  intros Henter. unfold mass.
  assert (cfg0 ≫= inbox cfg0 = []) as ->.
  { apply bind_nil_all. intros j x Hx. rewrite Forall_lookup in Henter.
    destruct (Henter j x Hx) as (Hq & _). unfold inbox. by rewrite Hq. }
  rewrite app_nil_r. induction Henter as [|x l (_ & Hp & _) _ IH]; [done|].
  rewrite bind_cons, IH. unfold live. by rewrite Hp.
Qed.

(** Every configuration a schedule leads to. *)
Lemma run_sum schedule cfg (total : list Dtype) :
  Inv cfg →
  (is_returned cfg root = false ∧ vsum (mass cfg) = total) ∨
  (∃ me, cfg !! root = Some me ∧ progress me = Returned ∧
         diff_ me = mul (recip solver_count) <$> total) →
  let cfg' := run add mul recip solver_count tree size_ schedule cfg in
  Inv cfg' ∧
  ((is_returned cfg' root = false ∧ vsum (mass cfg') = total) ∨
   (∃ me, cfg' !! root = Some me ∧ progress me = Returned ∧
          diff_ me = mul (recip solver_count) <$> total)).
Proof.
  revert cfg. induction schedule as [|r schedule IH]; intros cfg Hinv Hsum; [done|].
  simpl. apply IH.
  - unfold step. destruct (ogr r cfg) as [cfg1|] eqn:E; [|done].
    simpl. by eapply (on_gradients_ready_inv add mul recip solver_count tree size_ root).
  - unfold step. destruct (ogr r cfg) as [cfg1|] eqn:E; [|done].
    simpl. by eapply on_gradients_ready_sum.
Qed.

End GatherRound.

(** ** Claim about the gather round *)


Lemma ex_tree_in_tree : in_tree ex_tree 0.
Proof.
  split; [by eexists|]. split.
  - assert (reaches ex_tree 0 0) as H0 by constructor.
    assert (reaches ex_tree 0 1) as H1 by (by eapply reaches_child).
    assert (reaches ex_tree 0 2) as H2 by (by eapply reaches_child).
    assert (reaches ex_tree 0 3) as H3 by (by eapply reaches_child).
    intros [|[|[|[|r]]]] Hr; try done. simpl in Hr. lia.
  - intros [|[|[|[|p]]]] n Hn; try done; injection Hn as <-; simpl;
      (split; [apply (bool_decide_unpack _); vm_compute; exact I|]);
      intros c; rewrite ?elem_of_cons, elem_of_nil; split.
    + intros [->|[->|[]]]; by eexists.
    + intros (m & Hm & Hp). destruct c as [|[|[|[|c]]]]; try done;
        injection Hm as <-; simpl in Hp; try done; auto.
    + intros [->|[]]; by eexists.
    + intros (m & Hm & Hp). destruct c as [|[|[|[|c]]]]; try done;
        injection Hm as <-; simpl in Hp; try done; auto.
    + intros [].
    + intros (m & Hm & Hp). destruct c as [|[|[|[|c]]]]; try done;
        injection Hm as <-; simpl in Hp; done.
    + intros [].
    + intros (m & Hm & Hp). destruct c as [|[|[|[|c]]]]; try done;
        injection Hm as <-; simpl in Hp; done.
Qed.


(** ** The gather round comes to an end *)

Section GatherLiveness.

Context {Dtype : Type}.
Variable add : Dtype → Dtype → Dtype.
Variable mul : Dtype → Dtype → Dtype.
Variable recip : Z → Dtype.
Variable solver_count : Z.
Variable tree : list P2PSync.
Variable size_ : nat.
Variable root : nat.
Hypothesis Htree : in_tree tree root.

Implicit Types (cfg : list (@Replica Dtype)) (me : @Replica Dtype).

#[local] Abbreviation Inv := (Gather_inv tree size_).
#[local] Abbreviation ogr := (on_gradients_ready add mul recip solver_count tree size_).
#[local] Abbreviation depth := (depth_is tree root).

Lemma depth_total r : reaches tree root r → ∃ k, depth r k.
Proof.
  induction 1 as [|c n p Hc Hp _ [k IH]].
  - exists 0%nat. constructor.
  - exists (S k). by eapply depth_child.
Qed.

Lemma depth_functional r k k' : depth r k → depth r k' → k = k'.
Proof.
  intros H. revert k'. destruct (root_node tree root Htree) as (rn & Hrn & Hnone).
  induction H as [|c n p k Hc Hp _ IH]; intros k' H'.
  - inversion H' as [|c n p k'' Hc Hp Hd]; [done|congruence].
  - inversion H' as [|c' n' p' k'' Hc' Hp' Hd]; subst; [congruence|].
    assert (n' = n) as -> by congruence. assert (p' = p) as -> by congruence.
    f_equal. by apply IH.
Qed.

(** Among finitely many replicas one is deepest. *)
Lemma deepest (L : list nat) :
  L ≠ [] → (∀ r, r ∈ L → reaches tree root r) →
  ∃ r k, r ∈ L ∧ depth r k ∧ ∀ r' k', r' ∈ L → depth r' k' → (k' ≤ k)%nat.
Proof.
  induction L as [|x L IH]; intros Hne Hreach; [done|].
  destruct (depth_total x (Hreach x ltac:(apply elem_of_cons; by left))) as [kx Hkx].
  destruct L as [|y L].
  - exists x, kx. split; [apply elem_of_cons; by left|]. split; [done|].
    intros r' k' Hr' Hk'. apply list_elem_of_singleton in Hr' as ->.
    by rewrite (depth_functional x k' kx).
  - destruct IH as (r & k & Hr & Hk & Hmax); [done| |].
    { intros r Hr. apply Hreach. apply elem_of_cons. by right. }
    destruct (decide (kx ≤ k)%nat) as [Hle|Hgt].
    + exists r, k. split; [apply elem_of_cons; by right|]. split; [done|].
      intros r' k' Hr' Hk'. apply elem_of_cons in Hr' as [->|Hr']; [|by eapply Hmax].
      by rewrite (depth_functional x k' kx).
    + exists x, kx. split; [apply elem_of_cons; by left|]. split; [done|].
      intros r' k' Hr' Hk'. apply elem_of_cons in Hr' as [->|Hr'].
      * by rewrite (depth_functional x k' kx).
      * specialize (Hmax r' k' Hr' Hk'). lia.
Qed.

Lemma returned_count_all cfg (l : list nat) :
  (∀ c, c ∈ l → is_returned cfg c = true) → returned_count cfg l = length l.
Proof.
  unfold returned_count. induction l as [|c l IH]; intros H; [done|].
  rewrite filter_cons, decide_True by (apply H, elem_of_cons; by left).
  simpl. f_equal. apply IH. intros c' Hc'. apply H, elem_of_cons. by right.
Qed.

(** No deadlock: while a replica has not returned, some replica can
    move. *)
Lemma gather_progress cfg :
  Inv cfg → round_complete cfg ∨ ∃ r cfg', ogr r cfg = Some cfg'.
Proof.
  intros Hinv. pose proof (ginv_length _ _ _ Hinv) as Hlen.
  set (L := filter (λ r, is_returned cfg r = false) (seq 0 (length cfg))).
  destruct (decide (L = [])) as [Hnil|Hne].
  { left. apply Forall_lookup. intros j x Hx.
    pose proof (lookup_lt_Some _ _ _ Hx) as Hj.
    destruct (progress x) as [i|] eqn:E; [|done].
    assert (j ∈ L) as Hin.
    { apply list_elem_of_filter. split; [by eapply is_returned_reducing|].
      apply elem_of_seq. lia. }
    rewrite Hnil in Hin. by apply elem_of_nil in Hin. }
  right.
  assert (∀ r, r ∈ L → (r < length tree)%nat ∧ is_returned cfg r = false) as HL.
  { intros r Hr. apply list_elem_of_filter in Hr as [Hr1 Hr2].
    apply elem_of_seq in Hr2. split; [lia|done]. }
  destruct (deepest L Hne) as (r & k & Hr & Hk & Hmax).
  { intros r Hr. destruct Htree as (_ & Hreach & _). apply Hreach. by apply HL. }
  destruct (HL r Hr) as [Hrlt Hrfalse].
  destruct (lookup_lt_is_Some_2 tree r Hrlt) as [node Hnode].
  destruct (lookup_lt_is_Some_2 cfg r ltac:(lia)) as [me Hme].
  assert (∃ i, progress me = Reducing i) as [i Hprog].
  { destruct (progress me) as [i|] eqn:E; [by exists i|].
    unfold is_returned in Hrfalse. by rewrite Hme, E in Hrfalse. }
  assert (∀ c, c ∈ children_ node → is_returned cfg c = true) as Hchildren.
  { intros c Hc. destruct (is_returned cfg c) eqn:E; [done|]. exfalso.
    apply (children_spec tree root Htree r node Hnode) in Hc as (m & Hm & Hpar).
    assert (c ∈ L) as Hin.
    { apply list_elem_of_filter. split; [done|]. apply elem_of_seq.
      apply lookup_lt_Some in Hm. lia. }
    specialize (Hmax c (S k) Hin (depth_child tree root c m r k Hm Hpar Hk)). lia. }
  pose proof (ginv_reducing _ _ _ Hinv r me node i Hme Hnode Hprog) as Hcount.
  rewrite (returned_count_all cfg _ Hchildren) in Hcount.
  exists r. unfold on_gradients_ready. rewrite Hnode, Hme. simpl. rewrite Hprog.
  case_bool_decide as Hi.
  - destruct (queue_ me) as [|child q] eqn:Hq; [simpl in Hcount; lia|].
    destruct (ginv_queue _ _ _ Hinv r me child Hme) as [Hret _];
      [rewrite Hq; apply elem_of_cons; by left|].
    apply is_returned_true in Hret as (ch & -> & _). simpl. eauto.
  - destruct (parent_ node); eauto.
Qed.

(** Replacing a replica changes the work left by that replica's share. *)
Lemma work_insert cfg r node x y :
  tree !! r = Some node → cfg !! r = Some x →
  (work tree (<[r := y]> cfg) + work_of node x = work tree cfg + work_of node y)%nat.
Proof.
  unfold work. clear Htree. revert cfg r.
  induction tree as [|n t IH]; intros cfg r Hn Hx; [done|].
  destruct cfg as [|z cfg]; [done|]. destruct r as [|r]; simpl in *.
  - injection Hn as ->. injection Hx as ->. lia.
  - specialize (IH cfg r Hn Hx). lia.
Qed.

(** Every action is one action less to take. *)
Lemma on_gradients_ready_work cfg r cfg' :
  Inv cfg → ogr r cfg = Some cfg' → (work tree cfg' < work tree cfg)%nat.
Proof.
  intros Hinv H. pose proof (ginv_length _ _ _ Hinv) as Hlen.
  apply on_gradients_ready_cases in H
    as (node & me & i & Hnode & Hme & Hprog &
        [(Hi & child & q & ch & Hq & Hch & ->)|[(Hi & p & Hp & ->)|(Hi & Hp & ->)]]).
  - pose proof (work_insert cfg r node me (popped add size_ me ch q i) Hnode Hme) as H.
    unfold work_of in H. rewrite Hprog in H. simpl in H. lia.
  - pose proof (parent_ne tree root Htree r node p Hnode Hp) as Hne.
    destruct (parent_node tree root Htree r node p Hnode Hp) as [pn Hpn].
    destruct (lookup_lt_is_Some_2 cfg p) as [pm Hpm];
      [rewrite Hlen; by eapply lookup_lt_Some|].
    assert (<[r := sent size_ me]> cfg !! p = Some pm) as HpmA
      by (by rewrite list_lookup_insert_ne).
    rewrite (list_alter_as_insert _ _ p pm HpmA).
    pose proof (work_insert cfg r node me (sent size_ me) Hnode Hme) as H1.
    pose proof (work_insert _ p pn pm (queue_push r pm) Hpn HpmA) as H2.
    unfold work_of in H1, H2. rewrite Hprog in H1. simpl in H1, H2. lia.
  - pose proof (work_insert cfg r node me
                  (scaled mul recip solver_count size_ me) Hnode Hme) as H.
    unfold work_of in H. rewrite Hprog in H. simpl in H. lia.
Qed.

Lemma gather_completes_within n cfg :
  Inv cfg → (work tree cfg ≤ n)%nat →
  ∃ schedule,
    round_complete (run add mul recip solver_count tree size_ schedule cfg).
Proof.
  revert cfg. induction n as [|n IH]; intros cfg Hinv Hwork;
    (destruct (gather_progress cfg Hinv) as [Hdone|(r & cfg' & Hstep)];
     [by exists []|]);
    pose proof (on_gradients_ready_work cfg r cfg' Hinv Hstep) as Hless; [lia|].
  destruct (IH cfg') as [schedule Hdone]; [|lia|].
  { by eapply (on_gradients_ready_inv add mul recip solver_count tree size_ root). }
  exists (r :: schedule).
  change (round_complete
            (run add mul recip solver_count tree size_ schedule
               (step add mul recip solver_count tree size_ cfg r))).
  unfold step. by rewrite Hstep.
Qed.

(** From the entry of the round, some interleaving lets every replica
    return. *)
Lemma gather_round_completes cfg0 :
  length cfg0 = length tree → Forall (enters size_) cfg0 →
  ∃ schedule,
    round_complete (run add mul recip solver_count tree size_ schedule cfg0).
Proof.
  intros Hlen Henter.
  apply (gather_completes_within (work tree cfg0)); [|done].
  by apply enters_inv.
Qed.

End GatherLiveness.

(** ** What the planner returns is an in-tree *)

Lemma for_loop_invariant_from {St} (P : St → Prop) fuel
    (cond : nat → St → bool) (body : nat → St → result (St * bool)) i s s' :
  (∀ j s s' b, (i ≤ j)%nat → P s → body j s = Ok (s', b) → P s') →
  P s → for_loop fuel cond body i s = Ok s' → P s'.
Proof.
  revert i s. induction fuel as [|fuel IH]; intros i s Hbody Hs; simpl; [done|].
  destruct (cond i s); [|by intros [= <-]].
  destruct (body i s) as [[s1 brk]|e] eqn:E; simpl; [|done].
  pose proof (Hbody i _ _ _ ltac:(lia) Hs E) as Hs1.
  destruct brk; [by intros [= <-]|]. apply IH; [|done].
  intros j s2 s3 b Hj. apply Hbody. lia.
Qed.

Section PlannerTree.

Variable rt : HipRuntime.

Lemma elem_of_delete_ne {A} (l : list A) (i j : nat) (x : A) :
  l !! i = Some x → i ≠ j → x ∈ delete j l.
Proof.
  intros Hi Hne. apply list_elem_of_lookup.
  destruct (decide (i < j)%nat).
  - exists i. by rewrite list_lookup_delete_lt.
  - exists (i - 1)%nat. rewrite list_lookup_delete_ge by lia.
    by replace (S (i - 1)) with i by lia.
Qed.

(** Emitting [(remaining[i], remaining[j])] and erasing position [j]
    keeps every device covered. *)
Lemma all_covered_emit (s : plan) i j a b :
  all_covered s → s.1 !! i = Some a → s.1 !! j = Some b → i ≠ j →
  all_covered (delete j s.1, s.2 ++ [mkDevicePair a b]).
Proof.
  intros Hcov Ha Hb Hne.
  set (s' := (delete j s.1, s.2 ++ [mkDevicePair a b])).
  assert (covered s' a) as Hca.
  { apply covered_remaining. simpl. by eapply elem_of_delete_ne. }
  assert (covered s' b) as Hcb.
  { apply (covered_pair s' (mkDevicePair a b)); [|done].
    simpl. apply elem_of_app. right. by apply list_elem_of_singleton. }
  assert (∀ d, covered s d → covered s' d) as Hmono.
  { induction 1 as [d Hd|pr Hpr _ IH].
    - apply list_elem_of_lookup in Hd as [k Hk].
      destruct (decide (k = j)) as [->|Hkj].
      + assert (d = b) as -> by congruence. done.
      + apply covered_remaining. simpl. by eapply elem_of_delete_ne.
    - apply covered_pair; [|done]. simpl. apply elem_of_app. by left. }
  intros pr Hpr. simpl in Hpr. apply elem_of_app in Hpr as [Hpr|Hpr].
  - apply Hmono. by apply Hcov.
  - apply list_elem_of_singleton in Hpr as ->. done.
Qed.

Lemma board_pass_covered s s' :
  all_covered s → board_pass rt s = Ok s' → all_covered s'.
Proof.
  unfold board_pass. intros Hs. apply for_loop_invariant; [|done].
  clear s Hs. intros i s s1 b Hs H.
  apply bind_Ok in H as (s2 & H & [= <- <-]).
  revert H. apply for_loop_invariant; [|done].
  clear. intros j s s1 b Hs H. by apply board_body_shrinks in H as ->.
Qed.

Lemma p2p_pass_covered s s' :
  all_covered s → p2p_pass rt s = Ok s' → all_covered s'.
Proof.
  unfold p2p_pass. intros Hs. apply for_loop_invariant; [|done].
  clear s Hs. intros i s s1 b Hs H.
  apply bind_Ok in H as (s2 & H & [= <- <-]).
  revert H. apply for_loop_invariant_from; [|done].
  clear. intros j s s1 brk Hj Hs H.
  apply bind_Ok in H as (a & Ha & H). apply bind_Ok in H as (b & Hb & H).
  apply bind_Ok in H as (access & _ & H).
  apply vec_at_Ok in Ha, Hb.
  destruct access.
  - apply bind_Ok in H as (r' & Hr & [= <- <-]).
    apply vec_erase_Ok in Hr as [_ ->]. eapply all_covered_emit; try done. lia.
  - by injection H as <- <-.
Qed.

Lemma fallback_pass_covered s s' :
  all_covered s → fallback_pass s = Ok s' → all_covered s'.
Proof.
  unfold fallback_pass. intros Hs. apply for_loop_invariant; [|done].
  clear s Hs. intros i s s1 brk Hs H.
  apply bind_Ok in H as (a & Ha & H). apply bind_Ok in H as (b & Hb & H).
  apply bind_Ok in H as (r' & Hr & [= <- <-]).
  apply vec_at_Ok in Ha, Hb. apply vec_erase_Ok in Hr as [_ ->].
  eapply all_covered_emit; try done. lia.
Qed.

Lemma depth_loop_invariant (P : plan → Prop) depth pass s s' :
  (∀ s s', P s → pass s = Ok s' → P s') →
  P s → depth_loop depth pass s = Ok s' → P s'.
Proof.
  intros Hpass Hs. unfold depth_loop. apply for_loop_invariant; [|done].
  intros _ s1 s2 b Hs1 H. apply bind_Ok in H as (s3 & H & [= <- <-]). eauto.
Qed.

Lemma covered_reaches root rest d :
  covered ([root], rest) d →
  dev_reaches (mkDevicePair (-1) root :: rest) root d.
Proof.
  induction 1 as [d Hd|pr Hpr _ IH]; simpl in *.
  - apply list_elem_of_singleton in Hd as ->. constructor.
  - apply list_elem_of_lookup in Hpr as [k Hk].
    apply (dev_reaches_pair _ _ (S k) pr); [lia|done|done].
Qed.

(** Every pair list that [compute] returns describes an in-tree, rooted
    at the device of its first pair. *)
Lemma compute_in_tree devices pairs :
  compute rt devices [] = Ok pairs →
  ∃ root, pairs !! 0%nat = Some (mkDevicePair (-1) root) ∧ pairs_in_tree root pairs.
Proof.
  intros H. pose proof (compute_Ok rt devices pairs H)
    as (root & rest & Hpairs & _ & _ & _ & Hnd).
  exists root. split; [by rewrite Hpairs|].
  split; [by rewrite Hpairs|]. split; [done|].
  unfold compute in H.
  assert (all_covered (devices, [])) as H0.
  { intros pr Hpr. by apply elem_of_nil in Hpr. }
  apply bind_Ok in H as (s1 & H1 & H).
  apply (depth_loop_invariant all_covered) in H1; [|apply board_pass_covered|done].
  apply bind_Ok in H as (s2 & H2 & H).
  apply (depth_loop_invariant all_covered) in H2; [|apply p2p_pass_covered|done].
  apply bind_Ok in H as (s3 & H3 & H).
  apply (depth_loop_invariant all_covered) in H3; [|apply fallback_pass_covered|done].
  apply bind_Ok in H as (? & Hone & H). apply CHECK_Ok, bool_decide_eq_true in Hone.
  apply bind_Ok in H as (root' & Hroot & H). apply vec_at_Ok in Hroot.
  apply bind_Ok in H as (? & _ & H). apply bind_Ok in H as (? & _ & [= Heq]).
  destruct s3 as [rem rest']. simpl in *.
  destruct rem as [|r [|??]]; try done. injection Hroot as ->.
  rewrite Hpairs in Heq. injection Heq as -> ->.
  intros i pr Hpr. rewrite Hpairs in Hpr. destruct i as [|i]; simpl in Hpr.
  - injection Hpr as <-. constructor.
  - rewrite Hpairs. apply covered_reaches. apply H3. simpl.
    by eapply list_elem_of_lookup_2.
Qed.

(** With the root replica on the device of the first pair, [Prepare]
    builds the whole tree from whatever the planner returns. *)
Lemma Prepare_builds_planned_tree gpus pairs st0 root :
  compute rt gpus [] = Ok pairs →
  pairs !! 0%nat = Some (mkDevicePair (-1) root) →
  device_ (this st0) = root →
  syncs st0 = replicate (length gpus) None →
  children_ (this st0) = [] →
  ∃ st, Prepare rt gpus st0 = Done st ∧
        ∀ i, (1 ≤ i < length gpus)%nat → is_Some (sync_at st i).
Proof.
  intros Hc H0 Hroot Hsyncs Hch.
  destruct (compute_in_tree gpus pairs Hc) as (root' & H0' & Htree).
  assert (root' = root) as -> by congruence. rewrite <- Hroot in Htree.
  destruct (Prepare_fills_slots rt gpus pairs st0 Hc Htree Hsyncs Hch)
    as (st & Hst & _ & _ & Hall).
  by exists st.
Qed.

End PlannerTree.

(** ** The tree [Prepare] builds is the in-tree of the gather round *)

Section PreparedTree.

Variable root : Z.
Variable pairs : list DevicePair.
Variable st : Coordinator.
Hypothesis Htree : pairs_in_tree root pairs.
Hypothesis Hinv : Prepare_inv root pairs st.
Hypothesis Hfull : ∀ i, (1 ≤ i < length pairs)%nat → is_Some (sync_at st i).
Hypothesis Hrootless : parent_ (this st) = None.

Lemma omap_id_full {A} (l : list (option A)) :
  (∀ i, (i < length l)%nat → ∃ x, l !! i = Some (Some x)) →
  ∀ i, omap id l !! i = mjoin (l !! i).
Proof.
  induction l as [|o l IH]; intros H i; [done|].
  destruct (H 0%nat ltac:(simpl; lia)) as [x Hx]. simpl in Hx. injection Hx as ->.
  cbn. destruct i as [|i]; [done|]. simpl. apply IH.
  intros j Hj. apply (H (S j)). simpl. lia.
Qed.

Lemma tree_of_lookup j : tree_of st !! j = sync_at st j.
Proof.
  unfold tree_of. destruct j as [|j]; [done|]. simpl.
  rewrite omap_id_full, lookup_drop; [done|].
  intros i Hi. rewrite length_drop in Hi. rewrite lookup_drop. simpl.
  pose proof (inv_length _ _ _ Hinv) as Hlen.
  destruct (Hfull (S i) ltac:(lia)) as [n Hn]. simpl in Hn. exists n.
  destruct (syncs st !! S i) as [[?|]|]; simpl in Hn; congruence.
Qed.

(** A slot is identified by its device. *)
Lemma slot_of_device r n i pr :
  sync_at st r = Some n → pairs !! i = Some pr → device_ n = device pr → r = i.
Proof.
  intros Hn Hpr Hd. destruct Htree as (H0 & Hnd & _).
  assert ((device <$> pairs) !! i = Some (device pr)) as Hi
    by (by rewrite list_lookup_fmap, Hpr).
  assert ((device <$> pairs) !! r = Some (device pr)) as Hr.
  { rewrite list_lookup_fmap. destruct r as [|r].
    - rewrite H0. simpl in *. injection Hn as <-.
      rewrite (inv_root _ _ _ Hinv) in Hd. by rewrite Hd.
    - destruct (inv_slot _ _ _ Hinv (S r) n ltac:(lia) Hn)
        as (pr' & _ & _ & -> & Hd' & _). simpl. congruence. }
  by eapply NoDup_lookup.
Qed.

Lemma prepared_reaches d :
  dev_reaches pairs root d →
  ∀ r n, sync_at st r = Some n → device_ n = d → reaches (tree_of st) 0 r.
Proof.
  destruct Htree as (H0 & _).
  induction 1 as [|i pr Hi Hpr _ IH]; intros r n Hn Hd.
  - assert (r = 0%nat) as -> by (by eapply (slot_of_device r n 0)). constructor.
  - assert (r = i) as -> by (by eapply slot_of_device).
    destruct (inv_slot _ _ _ Hinv i n Hi Hn) as (pr' & p & pn & Hpr' & _ & Hp & Hpn & Hdp).
    assert (pr' = pr) as -> by congruence.
    apply (reaches_child _ _ i n p); [by rewrite tree_of_lookup|done|].
    by apply (IH p pn).
Qed.

Lemma prepared_in_tree : in_tree (tree_of st) 0.
Proof.
  split; [by exists (this st)|]. split.
  - intros r Hr. destruct (tree_of st !! r) as [n|] eqn:Hn;
      [|by apply lookup_ge_None in Hn; lia].
    rewrite tree_of_lookup in Hn.
    destruct (decide (r = 0%nat)) as [->|Hne]; [constructor|].
    destruct (inv_slot _ _ _ Hinv r n ltac:(lia) Hn) as (pr & _ & _ & Hpr & Hd & _).
    destruct Htree as (_ & _ & Hreach).
    apply (prepared_reaches (device pr) (Hreach r pr Hpr) r n Hn Hd).
  - intros p n Hn. rewrite tree_of_lookup in Hn.
    destruct (inv_children _ _ _ Hinv p n Hn) as [Hnd Hin]. split; [done|].
    intros c. rewrite Hin. split.
    + intros (_ & m & Hm & Hp). exists m. by rewrite tree_of_lookup.
    + intros (m & Hm & Hp). rewrite tree_of_lookup in Hm.
      split; [|by exists m]. destruct c as [|c]; [|lia].
      simpl in Hm. injection Hm as <-. congruence.
Qed.

End PreparedTree.

(** From the planner to the gather round: whatever [compute] returns,
    [Prepare] called on a root replica on the device of the first pair
    builds N replicas that form an in-tree rooted at replica 0. *)
Lemma Prepare_tree_in_tree (rt : HipRuntime) (gpus : list Z)
    (pairs : list DevicePair) (st0 : Coordinator) :
  compute rt gpus [] = Ok pairs →
  pairs !! 0%nat = Some (mkDevicePair (-1) (device_ (this st0))) →
  syncs st0 = replicate (length gpus) None →
  children_ (this st0) = [] →
  parent_ (this st0) = None →
  ∃ st, Prepare rt gpus st0 = Done st ∧
        length (tree_of st) = length gpus ∧ in_tree (tree_of st) 0.
Proof.
  intros Hc H0 Hsyncs Hch Hpar.
  destruct (compute_in_tree rt gpus pairs Hc) as (root' & H0' & Htree).
  assert (root' = device_ (this st0)) as -> by congruence.
  pose proof (compute_Ok _ _ _ Hc) as (_ & _ & _ & _ & Hlen & _).
  destruct (Prepare_fills_slots rt gpus pairs st0 Hc Htree Hsyncs Hch)
    as (st & Hst & Hinv & [_ Hg] & Hfull).
  rewrite <- Hlen in Hfull.
  assert (parent_ (this st) = None) as Hpar'.
  { destruct (Hg 0%nat (this st0) eq_refl) as (n' & Hn' & _ & Hp).
    simpl in Hn'. injection Hn' as ->. congruence. }
  exists st. split; [done|]. split.
  - pose proof (inv_length _ _ _ Hinv) as Hl.
    pose proof (tree_of_lookup _ pairs st Hinv Hfull) as Hlook.
    apply Nat.le_antisymm.
    + apply lookup_ge_None. rewrite Hlook. apply sync_at_ge; [lia|].
      apply lookup_lt_Some in H0. lia.
    + rewrite <- Hlen. destruct (decide (length pairs ≤ 1)%nat).
      * assert (is_Some (tree_of st !! 0%nat)) as H by (by exists (this st)).
        apply lookup_lt_is_Some in H. lia.
      * assert (is_Some (tree_of st !! (length pairs - 1)%nat)) as H
          by (rewrite Hlook; apply Hfull; lia).
        apply lookup_lt_is_Some in H. lia.
  - by eapply prepared_in_tree.
Qed.

(** ** The fallback phase and the parity of what remains *)

(** A pass of the fallback phase that has reached index [i]: an even
    number of devices from [i] on is halved, an odd number ends in an
    access past the end. *)
Lemma fallback_loop_parity (fuel i : nat) (remaining : list Z)
    (pairs : list DevicePair) :
  let loop := for_loop fuel
    (λ i (s : plan), bool_decide (i < length s.1)%nat)
    (λ i (s : plan),
       a ← vec_at s.1 i;
       b ← vec_at s.1 (i + 1);
       remaining' ← vec_erase s.1 (i + 1);
       Ok ((remaining', s.2 ++ [mkDevicePair a b]), false))
    i (remaining, pairs) in
  (length remaining - i < fuel)%nat → (i ≤ length remaining)%nat →
  (((length remaining - i) mod 2 = 0)%nat →
     ∃ s', loop = Ok s' ∧ (2 * length s'.1 = length remaining + i)%nat) ∧
  (((length remaining - i) mod 2 = 1)%nat → loop = Err OutOfRange).
Proof.
  revert i remaining pairs.
  induction fuel as [|fuel IH]; intros i remaining pairs loop Hfuel Hi; [lia|].
  destruct (decide (i < length remaining)%nat) as [Hlt|Hge].
  2:{ assert (loop = Ok (remaining, pairs)) as ->.
      { unfold loop. cbn [for_loop]. by rewrite bool_decide_eq_false_2. }
      assert (length remaining - i = 0)%nat as -> by lia. split; [|done].
      intros _. eexists. split; [done|]. simpl. lia. }
  destruct (lookup_lt_is_Some_2 remaining i Hlt) as [a Ha].
  destruct (decide (i + 1 < length remaining)%nat) as [Hlt'|Hge].
  - destruct (lookup_lt_is_Some_2 remaining (i + 1) Hlt') as [b Hb].
    specialize (IH (S i) (delete (i + 1)%nat remaining)
                  (pairs ++ [mkDevicePair a b])).
    cbn zeta in IH.
    assert (loop = for_loop fuel
              (λ i (s : plan), bool_decide (i < length s.1)%nat)
              (λ i (s : plan),
                 a ← vec_at s.1 i;
                 b ← vec_at s.1 (i + 1);
                 remaining' ← vec_erase s.1 (i + 1);
                 Ok ((remaining', s.2 ++ [mkDevicePair a b]), false))
              (S i) (delete (i + 1)%nat remaining, pairs ++ [mkDevicePair a b]))
      as ->.
    { unfold loop. cbn [for_loop]. rewrite bool_decide_eq_true_2 by done.
      unfold vec_at, vec_erase. cbn [fst snd].
      rewrite Ha, Hb, bool_decide_eq_true_2 by done. done. }
    assert (length (delete (i + 1)%nat remaining) = length remaining - 1)%nat as Hlen
      by (apply length_delete; by exists b).
    rewrite Hlen in IH.
    destruct IH as [IHeven IHodd]; [lia|lia|].
    replace (length remaining - 1 - S i)%nat with (length remaining - i - 2)%nat
      in IHeven, IHodd by lia.
    assert ((length remaining - i) mod 2 = (length remaining - i - 2) mod 2)%nat as Hmod.
    { replace (length remaining - i)%nat with (length remaining - i - 2 + 1 * 2)%nat
        at 1 by lia.
      by rewrite Nat.Div0.mod_add. }
    rewrite Hmod. split.
    + intros Heven. destruct (IHeven Heven) as (s' & -> & Hs').
      exists s'. split; [done|]. lia.
    + exact IHodd.
  - assert (loop = Err OutOfRange) as ->.
    { unfold loop. cbn [for_loop]. rewrite bool_decide_eq_true_2 by done.
      unfold vec_at. cbn [fst snd].
      rewrite Ha, (lookup_ge_None_2 remaining (i + 1)) by lia. done. }
    assert (length remaining - i = 1)%nat as -> by lia. split; [done|done].
Qed.

(** One pass of the fallback phase over an odd number of devices reads
    [remaining[i + 1]] past the end; over an even number it pairs them
    all and leaves half of them. *)
Lemma fallback_pass_parity (remaining : list Z) (pairs : list DevicePair) :
  ((length remaining mod 2 = 0)%nat →
     ∃ s', fallback_pass (remaining, pairs) = Ok s' ∧
           (2 * length s'.1 = length remaining)%nat) ∧
  ((length remaining mod 2 = 1)%nat →
     fallback_pass (remaining, pairs) = Err OutOfRange).
Proof.
  pose proof (fallback_loop_parity (S (length remaining)) 0 remaining pairs
                ltac:(lia) ltac:(lia)) as [Heven Hodd].
  rewrite Nat.sub_0_r, Nat.add_0_r in Heven. rewrite Nat.sub_0_r in Hodd.
  split; [exact Heven|exact Hodd].
Qed.

(** * Further properties of the code *)

(** ** More about the flat buffer manager *)

Section BufferFrame.

Context {Dtype : Type}.
Implicit Types (blobs : list (Blob Dtype)) (mem : gmap Z Dtype).

Lemma apply_buffers_loop_mem blobs ptr op mem :
  is_rebind op = true → (apply_buffers_loop blobs ptr op mem).1.2 = mem.
Proof.
  intros Hop. revert ptr.
  induction blobs as [|b bs IH]; intros ptr; simpl; [done|].
  destruct op; try discriminate Hop; simpl;
    match goal with
    | |- context [apply_buffers_loop bs ?p ?o ?m] =>
        specialize (IH p); destruct (apply_buffers_loop bs p o m) as [[??]?]
    end; simpl in *; done.
Qed.

Lemma apply_buffers_loop_frame blobs ptr op mem i b b' :
  is_rebind op = true →
  blobs !! i = Some b →
  (apply_buffers_loop blobs ptr op mem).1.1 !! i = Some b' →
  count b' = count b ∧
  cpu_data (data b') = cpu_data (data b) ∧
  cpu_data (diff b') = cpu_data (diff b) ∧
  ∀ op', is_rebind op' = true → op' ≠ op → storage_ptr op' b' = storage_ptr op' b.
Proof.
  intros Hop. revert ptr i.
  induction blobs as [|b0 bs IH]; intros ptr i; simpl; [done|].
  destruct op; try discriminate Hop; simpl;
    match goal with
    | |- context [apply_buffers_loop bs ?p ?o ?m] =>
        specialize (IH p); destruct (apply_buffers_loop bs p o m) as [[??]?]
    end; simpl in *;
    (destruct i as [|i]; simpl;
     [ intros [= <-] [= <-]; repeat split; try done;
       intros []; simpl; congruence
     | intros Hb Hb'; by eapply IH ]).
Qed.

Lemma apply_buffers_loop_counts blobs ptr op mem :
  count <$> (apply_buffers_loop blobs ptr op mem).1.1 = count <$> blobs.
Proof.
  revert ptr mem. induction blobs as [|b bs IH]; intros ptr mem; simpl; [done|].
  destruct op; simpl;
    match goal with
    | |- context [apply_buffers_loop bs ?p ?o ?m] =>
        specialize (IH p m); destruct (apply_buffers_loop bs p o m) as [[??]?]
    end; simpl in *; by f_equal.
Qed.

Lemma sum_counts_fmap blobs blobs' :
  count <$> blobs' = count <$> blobs → sum_counts blobs' = sum_counts blobs.
Proof.
  revert blobs'. induction blobs as [|b bs IH]; intros [|b' bs']; try done.
  simpl. intros [= Hb Hbs].
  change (count b' + sum_counts bs' = count b + sum_counts bs).
  rewrite Hb. f_equal. by apply IH.
Qed.

(** [copy] writes inside the buffer only, and leaves the blobs alone. *)
Lemma apply_buffers_loop_copy_frame blobs ptr mem :
  Forall count_in_range blobs →
  (apply_buffers_loop blobs ptr copy mem).1.1 = blobs ∧
  ∀ a, ¬ (ptr ≤ a < ptr + sum_counts blobs) →
       (apply_buffers_loop blobs ptr copy mem).1.2 !! a = mem !! a.
Proof.
  intros Hwf. revert ptr mem.
  induction Hwf as [|b bs Hb Hbs IH]; intros ptr mem.
  - simpl. done.
  - simpl. specialize (IH (ptr + count b) (caffe_copy (count b) (cpu_data (data b)) ptr mem)).
    destruct (apply_buffers_loop bs _ copy _) as [[bs' mem'] p'] eqn:E.
    simpl in *. destruct IH as [-> IH]. split; [done|]. intros a Ha.
    change (sum_counts (b :: bs)) with (count b + sum_counts bs) in Ha.
    unfold count_in_range in Hb.
    pose proof (sum_counts_range bs Hbs) as Hs.
    rewrite IH by lia. unfold caffe_copy. rewrite write_array_lookup.
    rewrite decide_False; [done|]. rewrite length_take. lia.
Qed.

End BufferFrame.

(** X1. The length [total_size] computes for a tensor list is the one
    [apply_buffers] accepts for that list, whatever the operation: the
    closing check of [apply_buffers] cannot fail on a buffer sized by
    [total_size] for the same tensors. *)
Theorem total_size_fits_apply_buffers {Dtype : Type}
    (blobs : list (Blob Dtype)) (buffer : Z) (op : Op) (mem : gmap Z Dtype) :
  Forall count_in_range blobs →
  Z.of_nat (length blobs) ≤ INT_MAX →
  is_Ok (apply_buffers blobs buffer (total_size blobs) op mem).
Proof.
  intros Hwf Hlen. eexists. apply apply_buffers_Ok. split; [done|].
  rewrite (total_size_max blobs Hwf Hlen).
  pose proof (sum_counts_range blobs Hwf) as Hr. pose proof INT_MAX_squared as Hsq.
  assert (0 ≤ INT_MAX) by (unfold INT_MAX; lia).
  unfold to_size_t. case_decide.
  - rewrite Z.mod_small by (unfold SIZE_MODULUS; lia). lia.
  - rewrite Z.mod_small by nia. lia.
Qed.

Lemma total_size_fits_apply_buffers_witness :
  Forall count_in_range ex_blobs ∧
  Z.of_nat (length ex_blobs) ≤ INT_MAX ∧
  total_size ex_blobs = 5 ∧
  is_Ok (apply_buffers ex_blobs 100 (total_size ex_blobs) copy ∅).
Proof.
  assert (Forall count_in_range ex_blobs) as Hwf.
  { repeat constructor; vm_compute; congruence. }
  assert (Z.of_nat (length ex_blobs) ≤ INT_MAX) as Hlen by (vm_compute; congruence).
  split; [exact Hwf|]. split; [exact Hlen|]. split; [reflexivity|].
  exact (total_size_fits_apply_buffers ex_blobs 100 copy ∅ Hwf Hlen).
Defined.



(** X3. The [copy] operation leaves the tensors as they are and writes
    only inside the buffer: every address outside
    [buffer .. buffer + sum of the counts) holds what it held before. *)
Theorem apply_buffers_copy_frame {Dtype : Type}
    (blobs : list (Blob Dtype)) (buffer total : Z)
    (mem : gmap Z Dtype) (blobs' : list (Blob Dtype)) (mem' : gmap Z Dtype) :
  Forall count_in_range blobs →
  apply_buffers blobs buffer total copy mem = Ok (blobs', mem') →
  blobs' = blobs ∧
  ∀ a, ¬ (buffer ≤ a < buffer + sum_counts blobs) → mem' !! a = mem !! a.
Proof.
  intros Hwf H. apply apply_buffers_Ok in H as [H _].
  destruct (apply_buffers_loop_copy_frame blobs buffer mem Hwf) as [Hb Hm].
  rewrite <- H in Hb, Hm. done.
Qed.

Lemma apply_buffers_copy_frame_witness :
  Forall count_in_range ex_blobs ∧
  ∃ mem',
    apply_buffers ex_blobs 100 5 copy {[99 := 1; 105 := 2]} = Ok (ex_blobs, mem') ∧
    mem' !! 99 = Some 1 ∧ mem' !! 105 = Some 2.
Proof.
  assert (Forall count_in_range ex_blobs) as Hwf.
  { repeat constructor; vm_compute; congruence. }
  split; [exact Hwf|].
  destruct (apply_buffers ex_blobs 100 5 copy {[99 := 1; 105 := 2]})
    as [[bs mem']|e] eqn:E; [|vm_compute in E; discriminate E].
  destruct (apply_buffers_copy_frame ex_blobs 100 5 _ bs mem' Hwf E) as [-> Hm].
  exists mem'. split; [reflexivity|]. split.
  - rewrite Hm; [reflexivity|]. vm_compute. intros [H _]. apply H. reflexivity.
  - rewrite Hm; [reflexivity|]. vm_compute. intros [_ H]. discriminate H.
Defined.

(** ** Allocation and release of the buffers *)

Section AllocationFacts.

Context {Dtype : Type}.
Variable zero : Dtype.
Variable rt : HipRuntime.

#[local] Existing Instance Hip.hip_bind.
#[local] Existing Instance Hip.hip_ret.

Implicit Types (s : @Hip.HipState Dtype).

Lemma total_size_pos (blobs : list (Blob Dtype)) : 1 ≤ total_size blobs.
Proof. unfold total_size. case_decide; lia. Qed.

(** The runtime state a returning [GPUParams] constructor leaves. *)
Lemma GPUParams_ctor_state (root_solver : @Hip.Solver Dtype) dev s this s' :
  Hip.GPUParams_ctor zero rt root_solver dev s = Ok (this, s') →
  let sz := total_size (Hip.learnable_params root_solver) in
  0 ≤ dev < device_count rt ∧
  0 ≤ Hip.current_device s < device_count rt ∧
  this = {| Hip.size_ := sz; Hip.data_ := Hip.next_free s;
            Hip.diff_ := Hip.next_free s + sz |} ∧
  Hip.current_device s' = Hip.current_device s ∧
  Hip.next_free s' = Hip.next_free s + sz + sz ∧
  Hip.allocations s' =
    (Hip.next_free s + sz, sz, dev) :: (Hip.next_free s, sz, dev) :: Hip.allocations s ∧
  Hip.peer_enabled s' = Hip.peer_enabled s.
Proof.
  intros H sz. revert H.
  unfold Hip.GPUParams_ctor, Hip.Params_ctor, Hip.hipGetDevice, Hip.hipSetDevice,
    Hip.hipMalloc, Hip.apply_buffers_hip, Hip.gpu_set, Hip.set_memory,
    mbind, Hip.hip_bind, mret, Hip.hip_ret.
  cbn [Hip.size_ Hip.current_device Hip.device_memory Hip.next_free
       Hip.allocations Hip.peer_enabled].
  fold sz.
  case_bool_decide as Hdev; [|done].
  cbn [Hip.size_ Hip.current_device Hip.device_memory Hip.next_free
       Hip.allocations Hip.peer_enabled].
  case_bool_decide as Hroom1; [|done].
  cbn [Hip.size_ Hip.current_device Hip.device_memory Hip.next_free
       Hip.allocations Hip.peer_enabled].
  destruct (apply_buffers _ _ _ _ _) as [[bs mem']|e]; [|done].
  cbn [result_bind Hip.size_ Hip.current_device Hip.device_memory Hip.next_free
       Hip.allocations Hip.peer_enabled].
  case_bool_decide as Hroom2; [|done].
  cbn [Hip.size_ Hip.current_device Hip.device_memory Hip.next_free
       Hip.allocations Hip.peer_enabled].
  case_bool_decide as Hcur; [|done].
  intros [= <- <-]. done.
Qed.

Lemma filter_all {A} (P : A → Prop) `{!∀ x, Decision (P x)} (l : list A) :
  Forall P l → filter P l = l.
Proof.
  induction 1 as [|a l Ha _ IH]; [done|].
  rewrite filter_cons, decide_True by done. by rewrite IH.
Qed.

Lemma filter_fresh (p : Z) (l : list (Z * Z * Z)) :
  Forall (λ a, a.1.1 ≠ p) l → filter (λ a, a.1.1 ≠ p) l = l.
Proof. apply filter_all. Qed.

Lemma hipFree_head p n d s :
  p ≠ 0 →
  Forall (λ a, a.1.1 ≠ p) (Hip.allocations s) →
  Hip.hipFree p
    {| Hip.current_device := Hip.current_device s;
       Hip.device_memory := Hip.device_memory s;
       Hip.next_free := Hip.next_free s;
       Hip.allocations := (p, n, d) :: Hip.allocations s;
       Hip.peer_enabled := Hip.peer_enabled s |}
  = Ok (tt, s).
Proof.
  intros Hp Hfresh. unfold Hip.hipFree.
  rewrite bool_decide_eq_false_2 by done.
  rewrite bool_decide_eq_true_2 by (simpl; apply elem_of_cons; by left).
  cbn [Hip.current_device Hip.device_memory Hip.next_free Hip.allocations
       Hip.peer_enabled].
  rewrite filter_cons, decide_False by (simpl; intros H; by apply H).
  rewrite filter_fresh by done. by destruct s.
Qed.


Lemma hipFree_allocated p s :
  p ≠ 0 → p ∈ (λ a, a.1.1) <$> Hip.allocations s →
  Hip.hipFree p s =
  Ok (tt, {| Hip.current_device := Hip.current_device s;
             Hip.device_memory := Hip.device_memory s;
             Hip.next_free := Hip.next_free s;
             Hip.allocations := filter (λ a, a.1.1 ≠ p) (Hip.allocations s);
             Hip.peer_enabled := Hip.peer_enabled s |}).
Proof.
  intros Hp Hin. unfold Hip.hipFree.
  rewrite bool_decide_eq_false_2 by done.
  by rewrite bool_decide_eq_true_2 by done.
Qed.

(** Freeing the two buffers of a [GPUParams] in a heap whose other
    blocks lie below them. *)
Lemma GPUParams_dtor_frees (this : Hip.GPUParams) s l :
  Hip.data_ this ≠ 0 → Hip.diff_ this ≠ 0 →
  Hip.data_ this ≠ Hip.diff_ this →
  Forall (λ a, a.1.1 ≠ Hip.data_ this ∧ a.1.1 ≠ Hip.diff_ this) l →
  (∃ n d n' d', Hip.allocations s =
     (Hip.diff_ this, n, d) :: (Hip.data_ this, n', d') :: l) →
  ∃ s', Hip.GPUParams_dtor this s = Ok (tt, s') ∧
        Hip.allocations s' = l ∧
        Hip.peer_enabled s' = Hip.peer_enabled s ∧
        Hip.current_device s' = Hip.current_device s ∧
        Hip.next_free s' = Hip.next_free s ∧
        Hip.device_memory s' = Hip.device_memory s.
Proof.
  intros Hd0 Hf0 Hne Hl (n & d & n' & d' & Ha).
  unfold Hip.GPUParams_dtor, mbind, Hip.hip_bind.
  rewrite hipFree_allocated; [|done|].
  2:{ rewrite Ha. simpl. apply elem_of_cons. right. apply elem_of_cons. by left. }
  rewrite hipFree_allocated; [|done|].
  2:{ cbn [Hip.allocations]. rewrite Ha.
      rewrite filter_cons, decide_True by (simpl; congruence).
      simpl. apply elem_of_cons. by left. }
  eexists. split; [done|]. cbn [Hip.allocations Hip.peer_enabled Hip.current_device
                               Hip.next_free Hip.device_memory].
  repeat split. rewrite Ha.
  rewrite filter_cons, decide_True by (simpl; congruence).
  rewrite filter_cons, decide_False by (simpl; intros H; by apply H).
  rewrite filter_cons, decide_False by (simpl; intros H; by apply H).
  rewrite filter_fresh.
  - apply filter_fresh. eapply Forall_impl; [exact Hl|]. by intros ? [? _].
  - rewrite filter_fresh; (eapply Forall_impl; [exact Hl|]); by intros ? [? ?].
Qed.

End AllocationFacts.

(** X4. A returning [GPUParams] constructor has allocated exactly two
    buffers, [data_] and [diff_], of [size_] elements each with
    [size_] at least 1, both on the device it was given (not on the
    caller's active device); the two buffers are different, and no peer
    link has been enabled. *)
Theorem GPUParams_ctor_allocates {Dtype : Type} (zero : Dtype) (rt : HipRuntime)
    (root_solver : @Hip.Solver Dtype) (dev : Z) (s : Hip.HipState)
    (this : Hip.GPUParams) (s' : Hip.HipState) :
  Hip.GPUParams_ctor zero rt root_solver dev s = Ok (this, s') →
  1 ≤ Hip.size_ this ∧
  Hip.allocations s' =
    (Hip.diff_ this, Hip.size_ this, dev)
      :: (Hip.data_ this, Hip.size_ this, dev) :: Hip.allocations s ∧
  Hip.data_ this ≠ Hip.diff_ this ∧
  Hip.peer_enabled s' = Hip.peer_enabled s.
Proof.
  intros H. apply GPUParams_ctor_state in H as (_ & _ & -> & _ & _ & Ha & Hp).
  pose proof (total_size_pos (Hip.learnable_params root_solver)).
  cbn [Hip.size_ Hip.data_ Hip.diff_]. repeat split; [done|done|lia|done].
Qed.

Lemma GPUParams_ctor_allocates_witness :
  match Hip.GPUParams_ctor 0 ex_rt ex_solver 2 ex_state with
  | Ok (this, s') =>
      Hip.allocations s' = [(21, 5, 2); (16, 5, 2)] ∧
      Hip.data_ this ≠ Hip.diff_ this
  | Err _ => False
  end.
Proof.
  destruct (Hip.GPUParams_ctor 0 ex_rt ex_solver 2 ex_state) as [[this s']|e] eqn:E.
  - pose proof (GPUParams_ctor_allocates 0 ex_rt ex_solver 2 ex_state this s' E)
      as (_ & Ha & Hne & _).
    split; [|exact Hne]. rewrite Ha.
    vm_compute in E. injection E as <- <-. reflexivity.
  - vm_compute in E. discriminate E.
Defined.

(** X5. Constructor and destructor of [GPUParams] match: in a heap
    whose live blocks lie below the next free address, which is not
    null, the destructor of a constructed [GPUParams] returns, and it
    leaves the allocations, the peer links and the active device as they
    were before the constructor ran. *)
Theorem GPUParams_ctor_dtor_round_trip {Dtype : Type} (zero : Dtype)
    (rt : HipRuntime) (root_solver : @Hip.Solver Dtype) (dev : Z)
    (s : Hip.HipState) (this : Hip.GPUParams) (s1 : Hip.HipState) :
  0 < Hip.next_free s →
  Forall (λ a, a.1.1 < Hip.next_free s) (Hip.allocations s) →
  Hip.GPUParams_ctor zero rt root_solver dev s = Ok (this, s1) →
  ∃ s2, Hip.GPUParams_dtor this s1 = Ok (tt, s2) ∧
        Hip.allocations s2 = Hip.allocations s ∧
        Hip.peer_enabled s2 = Hip.peer_enabled s ∧
        Hip.current_device s2 = Hip.current_device s.
Proof.
  intros Hnf Hbelow H.
  apply GPUParams_ctor_state in H as (_ & _ & -> & Hc & _ & Ha & Hp).
  pose proof (total_size_pos (Hip.learnable_params root_solver)) as Hsz.
  destruct (GPUParams_dtor_frees
              {| Hip.size_ := total_size (Hip.learnable_params root_solver);
                 Hip.data_ := Hip.next_free s;
                 Hip.diff_ := Hip.next_free s
                              + total_size (Hip.learnable_params root_solver) |}
              s1 (Hip.allocations s))
    as (s2 & Hd & Ha2 & Hp2 & Hc2 & _); cbn [Hip.data_ Hip.diff_]; try lia.
  - eapply Forall_impl; [exact Hbelow|]. intros a Hlt. simpl in Hlt. lia.
  - rewrite Ha. eauto.
  - exists s2. split; [done|]. split; [done|]. split; congruence.
Qed.

Lemma GPUParams_ctor_dtor_round_trip_witness :
  0 < Hip.next_free ex_state ∧
  Forall (λ a, a.1.1 < Hip.next_free ex_state) (Hip.allocations ex_state) ∧
  match Hip.GPUParams_ctor 0 ex_rt ex_solver 2 ex_state with
  | Ok (this, s1) =>
      ∃ s2, Hip.GPUParams_dtor this s1 = Ok (tt, s2) ∧
            Hip.allocations s2 = [] ∧ Hip.peer_enabled s2 = [] ∧
            Hip.current_device s2 = 0
  | Err _ => False
  end.
Proof.
  assert (0 < Hip.next_free ex_state) as Hnf by reflexivity.
  assert (Forall (λ a : Z * Z * Z, a.1.1 < Hip.next_free ex_state)
            (Hip.allocations ex_state)) as Hb by constructor.
  split; [exact Hnf|]. split; [exact Hb|].
  destruct (Hip.GPUParams_ctor 0 ex_rt ex_solver 2 ex_state) as [[this s1]|e] eqn:E.
  - exact (GPUParams_ctor_dtor_round_trip 0 ex_rt ex_solver 2 ex_state this s1 Hnf Hb E).
  - vm_compute in E. discriminate E.
Defined.

(** ** The replica constructor and destructor *)

Section ReplicaConstruction.

Context {Dtype : Type}.
Variable zero : Dtype.
Variable rt : HipRuntime.
Variable WorkerSolver :
  SolverParameter → @Hip.Solver Dtype → @Hip.hip Dtype (@Hip.Solver Dtype).

#[local] Existing Instance Hip.hip_bind.
#[local] Existing Instance Hip.hip_ret.

Implicit Types (s : @Hip.HipState Dtype).

Lemma hipSetDevice_inv d s u s1 :
  Hip.hipSetDevice rt d s = Ok (u, s1) →
  0 ≤ d < device_count rt ∧
  s1 = {| Hip.current_device := d; Hip.device_memory := Hip.device_memory s;
          Hip.next_free := Hip.next_free s; Hip.allocations := Hip.allocations s;
          Hip.peer_enabled := Hip.peer_enabled s |}.
Proof. unfold Hip.hipSetDevice. case_bool_decide; [|done]. by intros [= <- <-]. Qed.

Lemma hipMalloc_inv n s p s1 :
  Hip.hipMalloc rt n s = Ok (p, s1) →
  p = Hip.next_free s ∧
  s1 = {| Hip.current_device := Hip.current_device s;
          Hip.device_memory := Hip.device_memory s;
          Hip.next_free := Hip.next_free s + n;
          Hip.allocations := (Hip.next_free s, n, Hip.current_device s)
                               :: Hip.allocations s;
          Hip.peer_enabled := Hip.peer_enabled s |}.
Proof. unfold Hip.hipMalloc. case_bool_decide; [|done]. by intros [= <- <-]. Qed.

Lemma CanAccessPeer_inv dev peer s b s1 :
  Hip.CanAccessPeer rt dev peer s = Ok (b, s1) →
  hipDeviceCanAccessPeer rt dev peer = Some b ∧ s1 = s.
Proof.
  unfold Hip.CanAccessPeer. destruct (hipDeviceCanAccessPeer rt dev peer); [|done].
  by intros [= <- <-].
Qed.

Lemma hipDeviceEnablePeerAccess_inv peer s u s1 :
  Hip.hipDeviceEnablePeerAccess peer s = Ok (u, s1) →
  ((Hip.current_device s, peer) ∉ Hip.peer_enabled s) ∧
  s1 = Hip.set_peer_enabled ((Hip.current_device s, peer) :: Hip.peer_enabled s) s.
Proof.
  unfold Hip.hipDeviceEnablePeerAccess. case_bool_decide; [done|]. by intros [= <- <-].
Qed.

(** What [configure] returns, and that it leaves the runtime alone. *)
Lemma configure_inv (this : Hip.GPUParams) (solver : @Hip.Solver Dtype) s solver' s' :
  Hip.configure this solver s = Ok (solver', s') →
  let net := Hip.learnable_params solver in
  let net' := Hip.learnable_params solver' in
  s' = s ∧
  Hip.param solver' = Hip.param solver ∧
  Hip.iter solver' = Hip.iter solver ∧
  Hip.callbacks solver' = Hip.callbacks solver ∧
  count <$> net' = count <$> net ∧
  Hip.size_ this = to_size_t (if decide (sum_counts net = 0) then 1 else sum_counts net) ∧
  ∀ i b b', net !! i = Some b → net' !! i = Some b' →
    gpu_ptr_ (data b') = Hip.data_ this + sum_counts (take i net) ∧
    gpu_ptr_ (diff b') = Hip.diff_ this + sum_counts (take i net) ∧
    cpu_ptr_ (data b') = cpu_ptr_ (data b) ∧
    cpu_ptr_ (diff b') = cpu_ptr_ (diff b) ∧
    cpu_data (data b') = cpu_data (data b) ∧
    cpu_data (diff b') = cpu_data (diff b).
Proof.
  intros H. cbv zeta. set (net := Hip.learnable_params solver).
  unfold Hip.configure in H. fold net in H.
  apply hip_bind_Ok in H as (net1 & s1 & H1 & H). cbv beta in H.
  apply hip_bind_Ok in H as (net2 & s2 & H2 & H). cbv beta in H.
  apply hip_ret_Ok in H. injection H as -> ->.
  apply apply_buffers_hip_Ok in H1 as (mem1 & H1 & ->).
  apply apply_buffers_hip_Ok in H2 as (mem2 & H2 & ->).
  apply apply_buffers_Ok in H1 as [H1 Hsize], H2 as [H2 _].
  pose proof (apply_buffers_loop_mem net (Hip.data_ this) replace_gpu
                (Hip.device_memory s) eq_refl) as Hm1.
  rewrite <- H1 in Hm1. simpl in Hm1. subst mem1.
  assert (Hip.set_memory (Hip.device_memory s) s = s) as Hs by (by destruct s).
  rewrite Hs in H2.
  pose proof (apply_buffers_loop_mem net1 (Hip.diff_ this) replace_gpu_diff
                (Hip.device_memory s) eq_refl) as Hm2.
  rewrite <- H2 in Hm2. simpl in Hm2. subst mem2.
  assert (net1 = (apply_buffers_loop net (Hip.data_ this) replace_gpu
                    (Hip.device_memory s)).1.1) as Hnet1 by (by rewrite <- H1).
  assert (net2 = (apply_buffers_loop net1 (Hip.diff_ this) replace_gpu_diff
                    (Hip.device_memory s)).1.1) as Hnet2 by (by rewrite <- H2).
  assert (length net1 = length net) as Hl1
    by (rewrite Hnet1; apply apply_buffers_loop_length).
  assert (count <$> net1 = count <$> net) as Hc1
    by (rewrite Hnet1; apply apply_buffers_loop_counts).
  assert (count <$> net2 = count <$> net1) as Hc2
    by (rewrite Hnet2; apply apply_buffers_loop_counts).
  rewrite !Hs. split; [done|]. do 3 (split; [done|]).
  cbn [Hip.learnable_params Hip.with_learnable_params].
  split; [congruence|]. split; [done|].
  intros i b b' Hb Hb'.
  destruct (lookup_lt_is_Some_2 net1 i) as [b1 Hb1];
    [rewrite Hl1; by eapply lookup_lt_Some|].
  assert (sum_counts (take i net1) = sum_counts (take i net)) as Hsum.
  { apply sum_counts_fmap. by rewrite !fmap_take, Hc1. }
  pose proof (apply_buffers_loop_rebind net (Hip.data_ this) replace_gpu
                (Hip.device_memory s) i b1 eq_refl) as Hp1.
  rewrite <- Hnet1 in Hp1. specialize (Hp1 Hb1). simpl in Hp1.
  pose proof (apply_buffers_loop_rebind net1 (Hip.diff_ this) replace_gpu_diff
                (Hip.device_memory s) i b' eq_refl) as Hp2.
  rewrite <- Hnet2 in Hp2. specialize (Hp2 Hb'). simpl in Hp2.
  pose proof (apply_buffers_loop_frame net (Hip.data_ this) replace_gpu
                (Hip.device_memory s) i b b1 eq_refl Hb) as Hf1.
  rewrite <- Hnet1 in Hf1. destruct (Hf1 Hb1) as (Hcnt1 & Hd1 & Hg1 & Hptr1).
  pose proof (apply_buffers_loop_frame net1 (Hip.diff_ this) replace_gpu_diff
                (Hip.device_memory s) i b1 b' eq_refl Hb1) as Hf2.
  rewrite <- Hnet2 in Hf2. destruct (Hf2 Hb') as (Hcnt2 & Hd2 & Hg2 & Hptr2).
  pose proof (Hptr2 replace_gpu eq_refl ltac:(done)) as Hq1.
  pose proof (Hptr2 replace_cpu eq_refl ltac:(done)) as Hq2.
  pose proof (Hptr2 replace_cpu_diff eq_refl ltac:(done)) as Hq3.
  pose proof (Hptr1 replace_cpu eq_refl ltac:(done)) as Hq4.
  pose proof (Hptr1 replace_cpu_diff eq_refl ltac:(done)) as Hq5.
  simpl in *. repeat split; congruence.
Qed.

(** The steps of a returning [P2PSync] constructor. *)
Lemma P2PSync_ctor_inv root_solver parent prm s this s' :
  Hip.P2PSync_ctor zero rt WorkerSolver root_solver parent prm s = Ok (this, s') →
  ∃ b s1 solver s2 solver',
    Hip.GPUParams_ctor zero rt root_solver (device_id prm) s = Ok (b, s1) ∧
    match parent with
    | None => solver = root_solver ∧
              s2 = {| Hip.current_device := device_id prm;
                      Hip.device_memory := Hip.device_memory s1;
                      Hip.next_free := Hip.next_free s1;
                      Hip.allocations := Hip.allocations s1;
                      Hip.peer_enabled := Hip.peer_enabled s1 |}
    | Some _ =>
        WorkerSolver prm root_solver
          {| Hip.current_device := device_id prm;
             Hip.device_memory := Hip.device_memory s1;
             Hip.next_free := Hip.next_free s1;
             Hip.allocations := Hip.allocations s1;
             Hip.peer_enabled := Hip.peer_enabled s1 |} = Ok (solver, s2)
    end ∧
    Hip.configure b solver s2 = Ok (solver', s2) ∧
    Hip.base this = b ∧ Hip.parent_ this = parent ∧
    Hip.initial_iter_ this = Hip.iter root_solver ∧
    Hip.solver_ this = Hip.add_callback (device_id prm) solver' ∧
    Hip.device_ this = device_id prm ∧
    Hip.current_device s' = Hip.current_device s1 ∧
    Hip.device_memory s' = Hip.device_memory s2 ∧
    match parent with
    | None =>
        Hip.parent_grads_ this = 0 ∧
        Hip.next_free s' = Hip.next_free s2 ∧
        Hip.allocations s' = Hip.allocations s2 ∧
        Hip.peer_enabled s' = Hip.peer_enabled s2
    | Some peer =>
        ∃ access, hipDeviceCanAccessPeer rt (device_id prm) peer = Some access ∧
          Hip.parent_grads_ this = Hip.next_free s2 ∧
          Hip.next_free s' = Hip.next_free s2 + Hip.size_ b ∧
          Hip.allocations s' =
            (Hip.next_free s2, Hip.size_ b, peer) :: Hip.allocations s2 ∧
          if access
          then ((Hip.current_device s2, peer) ∉ Hip.peer_enabled s2) ∧
               Hip.peer_enabled s' =
                 (Hip.current_device s2, peer) :: Hip.peer_enabled s2
          else Hip.peer_enabled s' = Hip.peer_enabled s2
    end.
Proof.
  unfold Hip.P2PSync_ctor. intros H.
  apply hip_bind_Ok in H as (b & s1 & Hbase & H). cbv beta zeta in H.
  apply hip_bind_Ok in H as (d0 & s1' & Hget & H). cbv beta zeta in H.
  apply hipGetDevice_Ok in Hget as [-> ->].
  apply hip_bind_Ok in H as (? & sa & Hset & H). cbv beta in H.
  apply hipSetDevice_inv in Hset as [Hdev ->].
  apply hip_bind_Ok in H as (solver & s2 & Hsolver & H). cbv beta in H.
  apply hip_bind_Ok in H as (solver' & s2' & Hconf & H). cbv beta in H.
  pose proof (configure_inv _ _ _ _ _ Hconf) as (-> & _).
  apply hip_bind_Ok in H as (pg & s3 & Hpg & H). cbv beta in H.
  apply hip_bind_Ok in H as (? & s4 & Hback & H). cbv beta in H.
  apply hipSetDevice_inv in Hback as [_ ->].
  apply hip_ret_Ok in H. injection H as -> ->.
  exists b, s1, solver, s2, solver'. split; [done|].
  cbn [Hip.base Hip.parent_ Hip.initial_iter_ Hip.solver_ Hip.device_
       Hip.parent_grads_ Hip.current_device Hip.device_memory Hip.next_free
       Hip.allocations Hip.peer_enabled].
  destruct parent as [peer|].
  - split; [done|]. split; [done|]. do 6 (split; [done|]).
    apply hip_bind_Ok in Hpg as (access & s5 & Hacc & Hpg). cbv beta in Hpg.
    apply CanAccessPeer_inv in Hacc as [Hacc ->].
    apply hip_bind_Ok in Hpg as (? & s6 & Hen & Hpg). cbv beta in Hpg.
    apply hip_bind_Ok in Hpg as (? & s7 & Hset1 & Hpg). cbv beta in Hpg.
    apply hipSetDevice_inv in Hset1 as [_ ->].
    apply hip_bind_Ok in Hpg as (pg' & s8 & Hmalloc & Hpg). cbv beta in Hpg.
    apply hipMalloc_inv in Hmalloc as [-> ->].
    apply hip_bind_Ok in Hpg as (? & s9 & Hset2 & Hpg). cbv beta in Hpg.
    apply hipSetDevice_inv in Hset2 as [_ ->].
    apply hip_ret_Ok in Hpg. injection Hpg as -> ->.
    cbn [Hip.current_device Hip.device_memory Hip.next_free
         Hip.allocations Hip.peer_enabled].
    destruct access.
    + apply hipDeviceEnablePeerAccess_inv in Hen as [Hnot ->].
      split; [done|]. exists true. done.
    + apply hip_ret_Ok in Hen. injection Hen as _ ->.
      split; [done|]. exists false. done.
  - apply hip_ret_Ok in Hsolver. injection Hsolver as -> ->.
    apply hip_ret_Ok in Hpg. injection Hpg as -> ->.
    done.
Qed.


Lemma hipSetDevice_valid d s :
  0 ≤ d < device_count rt →
  Hip.hipSetDevice rt d s =
  Ok (tt, {| Hip.current_device := d; Hip.device_memory := Hip.device_memory s;
             Hip.next_free := Hip.next_free s; Hip.allocations := Hip.allocations s;
             Hip.peer_enabled := Hip.peer_enabled s |}).
Proof. intros Hd. unfold Hip.hipSetDevice. by rewrite bool_decide_eq_true_2. Qed.

Lemma CanAccessPeer_answer dev peer s b :
  hipDeviceCanAccessPeer rt dev peer = Some b →
  Hip.CanAccessPeer rt dev peer s = Ok (b, s).
Proof. intros H. unfold Hip.CanAccessPeer. by rewrite H. Qed.

Lemma hipDeviceDisablePeerAccess_enabled peer (s : @Hip.HipState Dtype) :
  (Hip.current_device s, peer) ∈ Hip.peer_enabled s →
  Hip.hipDeviceDisablePeerAccess peer s =
  Ok (tt, Hip.set_peer_enabled
            (filter (λ l, l ≠ (Hip.current_device s, peer)) (Hip.peer_enabled s)) s).
Proof.
  intros H. unfold Hip.hipDeviceDisablePeerAccess. by rewrite bool_decide_eq_true_2.
Qed.

(** The destructor run after the constructor, on the state the
    constructor left. *)
Lemma P2PSync_dtor_after_ctor root_solver parent prm s this s1 :
  0 < Hip.next_free s →
  Forall (λ a, a.1.1 < Hip.next_free s) (Hip.allocations s) →
  match parent with
  | None => device_id (Hip.param root_solver) = device_id prm
  | Some _ =>
      ∀ s0 w s0', WorkerSolver prm root_solver s0 = Ok (w, s0') →
                  s0' = s0 ∧ device_id (Hip.param w) = device_id prm
  end →
  Hip.P2PSync_ctor zero rt WorkerSolver root_solver parent prm s = Ok (this, s1) →
  ∃ s2, Hip.P2PSync_dtor rt this s1 = Ok (tt, s2) ∧
        Hip.allocations s2 = Hip.allocations s ∧
        Hip.peer_enabled s2 = Hip.peer_enabled s ∧
        Hip.current_device s2 = Hip.current_device s.
Proof.
  intros Hnf Hbelow Hsolver H.
  apply P2PSync_ctor_inv in H
    as (b & sa & solver & sb & solver' & Hbase & Hw & Hconf & Hb & Hpar & _ &
        Hsol & _ & Hcur & _ & Hrest).
  apply GPUParams_ctor_state in Hbase
    as (Hdev & Hinit & Hbv & Hcura & Hnfa & Halla & Hpeera).
  pose proof (total_size_pos (Hip.learnable_params root_solver)) as Hsz.
  set (sz := total_size (Hip.learnable_params root_solver)) in *.
  apply configure_inv in Hconf as (_ & Hparam & _).
  assert (device_id (Hip.param (Hip.solver_ this)) = device_id prm) as Hself.
  { rewrite Hsol. cbn [Hip.param Hip.add_callback]. rewrite Hparam.
    destruct parent; [|destruct Hw as [-> _]; done].
    by destruct (Hsolver _ _ _ Hw). }
  assert (Forall (λ a : Z * Z * Z,
                    a.1.1 ≠ Hip.data_ b ∧ a.1.1 ≠ Hip.diff_ b) (Hip.allocations s))
    as Hother.
  { rewrite Hbv. cbn [Hip.data_ Hip.diff_].
    eapply Forall_impl; [exact Hbelow|]. intros a Ha. simpl in Ha. lia. }
  unfold Hip.P2PSync_dtor, mbind at 1, Hip.hip_bind at 1, Hip.hipGetDevice.
  rewrite Hself, Hpar, Hb.
  unfold mbind at 1, Hip.hip_bind at 1. rewrite (hipSetDevice_valid _ _ Hdev).
  unfold mbind at 1, Hip.hip_bind at 1.
  destruct parent as [peer|].
  - destruct (Hsolver _ _ _ Hw) as [-> _].
    destruct Hrest as (access & Hacc & Hpg & _ & Hall1 & Hpeer1).
    cbn [Hip.current_device Hip.device_memory Hip.next_free
         Hip.allocations Hip.peer_enabled] in *.
    unfold mbind at 1, Hip.hip_bind at 1.
    rewrite hipFree_allocated; cycle 1.
    { rewrite Hpg, Hnfa. lia. }
    { cbn [Hip.allocations]. rewrite Hall1, Hpg. simpl. apply elem_of_cons. by left. }
    cbn [Hip.current_device Hip.device_memory Hip.next_free
         Hip.allocations Hip.peer_enabled].
    unfold mbind at 1, Hip.hip_bind at 1.
    rewrite (CanAccessPeer_answer _ _ _ _ Hacc).
    assert (filter (λ a : Z * Z * Z, a.1.1 ≠ Hip.parent_grads_ this)
              (Hip.allocations s1)
            = (Hip.diff_ b, sz, device_id prm)
                :: (Hip.data_ b, sz, device_id prm) :: Hip.allocations s) as Hfilt.
    { rewrite Hall1, Halla, Hpg, Hnfa, Hbv. cbn [Hip.size_ Hip.diff_ Hip.data_].
      rewrite filter_cons, decide_False by (simpl; intros Hx; by apply Hx).
      rewrite filter_cons, decide_True by (simpl; lia).
      rewrite filter_cons, decide_True by (simpl; lia).
      rewrite filter_all; [done|].
      eapply Forall_impl; [exact Hbelow|]. intros a Ha. simpl in Ha. lia. }
    rewrite Hfilt.
    destruct access.
    + destruct Hpeer1 as [Hnot Hpeer1].
      rewrite hipDeviceDisablePeerAccess_enabled; cycle 1.
      { cbn [Hip.current_device Hip.peer_enabled]. rewrite Hpeer1.
        apply elem_of_cons. by left. }
      cbn [Hip.set_peer_enabled Hip.current_device Hip.device_memory Hip.next_free
           Hip.allocations Hip.peer_enabled].
      unfold mbind at 1, Hip.hip_bind at 1.
      rewrite hipSetDevice_valid by (rewrite Hcur, Hcura; done).
      cbn [Hip.set_peer_enabled Hip.current_device Hip.device_memory Hip.next_free
           Hip.allocations Hip.peer_enabled].
      match goal with
      | |- context [Hip.GPUParams_dtor b ?st] =>
          destruct (GPUParams_dtor_frees b st (Hip.allocations s))
            as (s2 & -> & Ha2 & Hp2 & Hc2 & _);
            [rewrite Hbv; cbn [Hip.data_ Hip.diff_]; lia ..
            |exact Hother|cbn [Hip.allocations]; eauto|]
      end.
      exists s2. split; [done|]. split; [done|].
      cbn [Hip.peer_enabled Hip.current_device] in Hp2, Hc2.
      split; [|congruence].
      rewrite Hp2, Hpeer1, Hpeera.
      rewrite filter_cons, decide_False by (intros Hx; by apply Hx).
      apply filter_all. rewrite Forall_forall. intros l Hl ->.
      by rewrite Hpeera in Hnot.
    + unfold mret, Hip.hip_ret.
      unfold mbind at 1, Hip.hip_bind at 1.
      rewrite hipSetDevice_valid by (rewrite Hcur, Hcura; done).
      cbn [Hip.set_peer_enabled Hip.current_device Hip.device_memory Hip.next_free
           Hip.allocations Hip.peer_enabled].
      match goal with
      | |- context [Hip.GPUParams_dtor b ?st] =>
          destruct (GPUParams_dtor_frees b st (Hip.allocations s))
            as (s2 & -> & Ha2 & Hp2 & Hc2 & _);
            [rewrite Hbv; cbn [Hip.data_ Hip.diff_]; lia ..
            |exact Hother|cbn [Hip.allocations]; eauto|]
      end.
      exists s2. split; [done|]. split; [done|].
      cbn [Hip.peer_enabled Hip.current_device] in Hp2, Hc2.
      split; congruence.
  - destruct Hw as [_ ->]. destruct Hrest as (_ & _ & Hall1 & Hpeer1).
    cbn [Hip.current_device Hip.device_memory Hip.next_free
         Hip.allocations Hip.peer_enabled] in *.
    unfold mret, Hip.hip_ret.
    unfold mbind at 1, Hip.hip_bind at 1.
    rewrite hipSetDevice_valid by (rewrite Hcur, Hcura; done).
    match goal with
    | |- context [Hip.GPUParams_dtor b ?st] =>
        destruct (GPUParams_dtor_frees b st (Hip.allocations s))
          as (s2 & -> & Ha2 & Hp2 & Hc2 & _);
          [rewrite Hbv; cbn [Hip.data_ Hip.diff_]; lia ..
          |exact Hother
          |cbn [Hip.allocations]; rewrite Hall1, Halla, Hbv;
           cbn [Hip.data_ Hip.diff_]; eauto|]
    end.
    exists s2. split; [done|]. split; [done|].
    cbn [Hip.peer_enabled Hip.current_device] in Hp2, Hc2.
    split; congruence.
Qed.

End ReplicaConstruction.



(** X7. A returning [P2PSync] constructor has wired the replica's
    solver into the replica's own buffers: tensor [i] of the solver has
    its value storage at [data_] plus the counts of the tensors before it
    and its gradient storage at [diff_] plus the same sum; the buffers,
    sized from the root solver's net, have the length [apply_buffers]
    accepts for the replica's net (a worker net of another total size
    aborts the construction); the replica is the last callback
    registered on its solver; and the root replica keeps the root solver
    with its earlier callbacks. *)
Theorem P2PSync_ctor_wires_solver {Dtype : Type} (zero : Dtype) (rt : HipRuntime)
    (WorkerSolver : SolverParameter → @Hip.Solver Dtype → Hip.hip Hip.Solver)
    (root_solver : Hip.Solver) (parent : option Z) (prm : SolverParameter)
    (s : Hip.HipState) (this : Hip.P2PSync) (s' : Hip.HipState) :
  Hip.P2PSync_ctor zero rt WorkerSolver root_solver parent prm s = Ok (this, s') →
  let net := Hip.learnable_params (Hip.solver_ this) in
  Hip.device_ this = device_id prm ∧
  Hip.parent_ this = parent ∧
  Hip.initial_iter_ this = Hip.iter root_solver ∧
  Hip.size_ (Hip.base this) = total_size (Hip.learnable_params root_solver) ∧
  Hip.size_ (Hip.base this)
    = to_size_t (if decide (sum_counts net = 0) then 1 else sum_counts net) ∧
  (∀ i b', net !! i = Some b' →
     gpu_ptr_ (data b') = Hip.data_ (Hip.base this) + sum_counts (take i net) ∧
     gpu_ptr_ (diff b') = Hip.diff_ (Hip.base this) + sum_counts (take i net)) ∧
  last (Hip.callbacks (Hip.solver_ this)) = Some (device_id prm) ∧
  (parent = None →
     Hip.param (Hip.solver_ this) = Hip.param root_solver ∧
     Hip.callbacks (Hip.solver_ this) = Hip.callbacks root_solver ++ [device_id prm]).
Proof.
  intros H. cbv zeta.
  apply P2PSync_ctor_inv in H
    as (b & sa & solver & sb & solver' & Hbase & Hw & Hconf & Hb & Hpar & Hit &
        Hsol & Hdev & _).
  apply GPUParams_ctor_state in Hbase as (_ & _ & Hbv & _).
  apply configure_inv in Hconf as (_ & Hparam & _ & Hcb & Hcnt & Hsize & Hbind).
  rewrite Hsol, Hb. cbn [Hip.learnable_params Hip.add_callback Hip.callbacks Hip.param].
  assert (sum_counts (Hip.learnable_params solver')
          = sum_counts (Hip.learnable_params solver)) as Hsum
    by (by apply sum_counts_fmap).
  do 3 (split; [done|]). split; [by rewrite Hbv|].
  split; [by rewrite Hsum|]. split; [|split].
  - intros i b' Hb'.
    destruct (lookup_lt_is_Some_2 (Hip.learnable_params solver) i) as [b0 Hb0].
    { rewrite <- (length_fmap count), <- Hcnt, length_fmap. by eapply lookup_lt_Some. }
    destruct (Hbind i b0 b' Hb0 Hb') as (Hd & Hg & _).
    assert (sum_counts (take i (Hip.learnable_params solver'))
            = sum_counts (take i (Hip.learnable_params solver))) as ->
      by (apply sum_counts_fmap; by rewrite !fmap_take, Hcnt).
    done.
  - apply last_snoc.
  - intros ->. destruct Hw as [-> _]. by rewrite Hparam, Hcb.
Qed.

Lemma P2PSync_ctor_wires_solver_witness :
  match Hip.P2PSync_ctor 0 ex_rt ex_WorkerSolver ex_solver (Some 1)
          (set_device_id 2 (Hip.param ex_solver)) ex_state with
  | Ok (this, s') =>
      Hip.device_ this = 2 ∧
      Hip.size_ (Hip.base this) = 5 ∧
      (λ b, (gpu_ptr_ (data b), gpu_ptr_ (diff b)))
        <$> Hip.learnable_params (Hip.solver_ this) = [(16, 21); (19, 24); (19, 24)] ∧
      last (Hip.callbacks (Hip.solver_ this)) = Some 2
  | Err _ => False
  end.
Proof.
  destruct (Hip.P2PSync_ctor 0 ex_rt ex_WorkerSolver ex_solver (Some 1)
              (set_device_id 2 (Hip.param ex_solver)) ex_state)
    as [[this s']|e] eqn:E.
  - pose proof (P2PSync_ctor_wires_solver 0 ex_rt ex_WorkerSolver ex_solver (Some 1)
                  (set_device_id 2 (Hip.param ex_solver)) ex_state this s' E)
      as (Hdev & _ & _ & Hsize & _ & _ & Hlast & _).
    split; [exact Hdev|]. split; [exact Hsize|]. split; [|exact Hlast].
    vm_compute in E. injection E as <- <-. reflexivity.
  - vm_compute in E. discriminate E.
Defined.



(** X9. Constructor and destructor of a replica match.  In a heap whose
    live blocks lie below the next free address, which is not null, and
    with a worker solver whose constructor leaves the runtime state alone
    and keeps the device of its parameters (for the root: with the root
    solver on the replica's device), the destructor of a constructed
    replica returns, and it leaves the allocations, the enabled peer
    links and the active device as they were before the constructor
    ran: the three buffers are freed and the peer link is disabled. *)
Theorem P2PSync_ctor_dtor_round_trip {Dtype : Type} (zero : Dtype) (rt : HipRuntime)
    (WorkerSolver : SolverParameter → @Hip.Solver Dtype → Hip.hip Hip.Solver)
    (root_solver : Hip.Solver) (parent : option Z) (prm : SolverParameter)
    (s : Hip.HipState) (this : Hip.P2PSync) (s1 : Hip.HipState) :
  0 < Hip.next_free s →
  Forall (λ a, a.1.1 < Hip.next_free s) (Hip.allocations s) →
  match parent with
  | None => device_id (Hip.param root_solver) = device_id prm
  | Some _ =>
      ∀ s0 w s0', WorkerSolver prm root_solver s0 = Ok (w, s0') →
                  s0' = s0 ∧ device_id (Hip.param w) = device_id prm
  end →
  Hip.P2PSync_ctor zero rt WorkerSolver root_solver parent prm s = Ok (this, s1) →
  ∃ s2, Hip.P2PSync_dtor rt this s1 = Ok (tt, s2) ∧
        Hip.allocations s2 = Hip.allocations s ∧
        Hip.peer_enabled s2 = Hip.peer_enabled s ∧
        Hip.current_device s2 = Hip.current_device s.
Proof. apply P2PSync_dtor_after_ctor. Qed.

Lemma P2PSync_ctor_dtor_round_trip_witness :
  0 < Hip.next_free ex_state ∧
  Forall (λ a, a.1.1 < Hip.next_free ex_state) (Hip.allocations ex_state) ∧
  match Hip.P2PSync_ctor 0 ex_rt ex_WorkerSolver ex_solver (Some 1)
          (set_device_id 2 (Hip.param ex_solver)) ex_state with
  | Ok (this, s1) =>
      length (Hip.allocations s1) = 3%nat ∧ Hip.peer_enabled s1 = [(2, 1)] ∧
      ∃ s2, Hip.P2PSync_dtor ex_rt this s1 = Ok (tt, s2) ∧
            Hip.allocations s2 = [] ∧ Hip.peer_enabled s2 = [] ∧
            Hip.current_device s2 = 0
  | Err _ => False
  end.
Proof.
  assert (0 < Hip.next_free ex_state) as Hnf by reflexivity.
  assert (Forall (λ a : Z * Z * Z, a.1.1 < Hip.next_free ex_state)
            (Hip.allocations ex_state)) as Hb by constructor.
  split; [exact Hnf|]. split; [exact Hb|].
  destruct (Hip.P2PSync_ctor 0 ex_rt ex_WorkerSolver ex_solver (Some 1)
              (set_device_id 2 (Hip.param ex_solver)) ex_state)
    as [[this s1]|e] eqn:E.
  - assert (length (Hip.allocations s1) = 3%nat ∧ Hip.peer_enabled s1 = [(2, 1)])
      as [Hl Hp].
    { vm_compute in E. injection E as <- <-. split; reflexivity. }
    split; [exact Hl|]. split; [exact Hp|].
    apply (P2PSync_ctor_dtor_round_trip 0 ex_rt ex_WorkerSolver ex_solver (Some 1)
             (set_device_id 2 (Hip.param ex_solver)) ex_state this s1 Hnf Hb);
      [|exact E].
    intros s0 w s0' Hw. unfold ex_WorkerSolver in Hw. injection Hw as <- <-.
    split; reflexivity.
  - vm_compute in E. discriminate E.
Defined.

(** ** More about the planner *)

(** Every change the three phases make to the planner's state is the
    same step: a pair [(remaining[i], remaining[j])] with [i < j] is
    appended and position [j] is erased.  A property kept by that step
    holds of what [compute] returns. *)
Section PlannerSteps.

Variable rt : HipRuntime.
Variable P : plan → Prop.
Hypothesis Hemit : ∀ (s : plan) i j a b,
  P s → (i < j)%nat → s.1 !! i = Some a → s.1 !! j = Some b →
  P (delete j s.1, s.2 ++ [mkDevicePair a b]).

Lemma board_pass_keeps s s' : P s → board_pass rt s = Ok s' → P s'.
Proof.
  unfold board_pass. intros Hs. apply for_loop_invariant; [|done].
  clear s Hs. intros i s s1 b Hs H.
  apply bind_Ok in H as (s2 & H & [= <- <-]).
  revert H. apply for_loop_invariant; [|done].
  clear -rt. intros j s s1 b Hs H. by apply board_body_shrinks in H as ->.
Qed.

Lemma p2p_pass_keeps s s' : P s → p2p_pass rt s = Ok s' → P s'.
Proof.
  unfold p2p_pass. intros Hs. apply for_loop_invariant; [|done].
  clear s Hs. intros i s s1 b Hs H.
  apply bind_Ok in H as (s2 & H & [= <- <-]).
  revert H. apply for_loop_invariant_from; [|done].
  clear s Hs. intros j s s1 brk Hj Hs H.
  apply bind_Ok in H as (a & Ha & H). apply bind_Ok in H as (b & Hb & H).
  apply bind_Ok in H as (access & _ & H).
  apply vec_at_Ok in Ha, Hb.
  destruct access.
  - apply bind_Ok in H as (r' & Hr & [= <- <-]).
    apply vec_erase_Ok in Hr as [_ ->]. eapply Hemit; try done; lia.
  - by injection H as <- <-.
Qed.

Lemma fallback_pass_keeps s s' : P s → fallback_pass s = Ok s' → P s'.
Proof.
  unfold fallback_pass. intros Hs. apply for_loop_invariant; [|done].
  clear s Hs. intros i s s1 brk Hs H.
  apply bind_Ok in H as (a & Ha & H). apply bind_Ok in H as (b & Hb & H).
  apply bind_Ok in H as (r' & Hr & [= <- <-]).
  apply vec_at_Ok in Ha, Hb. apply vec_erase_Ok in Hr as [_ ->].
  eapply Hemit; try done; lia.
Qed.

Lemma compute_keeps devices pairs0 pairs :
  P (devices, pairs0) →
  compute rt devices pairs0 = Ok pairs →
  ∃ root rest, pairs = mkDevicePair (-1) root :: rest ∧ P ([root], rest) ∧
               length pairs = length devices.
Proof.
  unfold compute. intros H0 H.
  apply bind_Ok in H as (s1 & H1 & H).
  apply (depth_loop_invariant P) in H1; [|apply board_pass_keeps|done].
  apply bind_Ok in H as (s2 & H2 & H).
  apply (depth_loop_invariant P) in H2; [|apply p2p_pass_keeps|done].
  apply bind_Ok in H as (s3 & H3 & H).
  apply (depth_loop_invariant P) in H3; [|apply fallback_pass_keeps|done].
  apply bind_Ok in H as (? & Hone & H). apply CHECK_Ok, bool_decide_eq_true in Hone.
  apply bind_Ok in H as (root & Hroot & H). apply vec_at_Ok in Hroot.
  apply bind_Ok in H as (? & Hlen & H). apply CHECK_Ok, bool_decide_eq_true in Hlen.
  apply bind_Ok in H as (? & _ & [= <-]).
  destruct s3 as [rem rest]. simpl in *.
  destruct rem as [|r [|??]]; try done. injection Hroot as ->.
  exists root, rest. done.
Qed.

End PlannerSteps.

Lemma lookup_delete_shift {A} (l : list A) (j k : nat) (x : A) :
  delete j l !! k = Some x →
  ∃ k', l !! k' = Some x ∧ (k < j → k' = k)%nat ∧ (j ≤ k → k' = S k)%nat.
Proof.
  intros H. destruct (decide (k < j)%nat).
  - rewrite list_lookup_delete_lt in H by done. exists k. split; [done|]. lia.
  - rewrite list_lookup_delete_ge in H by lia. exists (S k). split; [done|]. lia.
Qed.

Lemma compute_root_first (rt : HipRuntime) (devices : list Z)
    (pairs : list DevicePair) :
  compute rt devices [] = Ok pairs →
  ∃ d, devices !! 0%nat = Some d ∧ pairs !! 0%nat = Some (mkDevicePair (-1) d).
Proof.
  intros H.
  apply (compute_keeps rt (λ s, s.1 !! 0%nat = devices !! 0%nat)) in H
    as (root & rest & -> & Hroot & _); [|clear H|done].
  - exists root. by rewrite <- Hroot.
  - intros s i j a b Hs Hij _ _. simpl. rewrite <- Hs.
    apply list_lookup_delete_lt. lia.
Qed.

(** X10. The root of the tree is the first device of the list: the
    first pair [compute] returns is [(-1, devices[0])]. *)
Theorem compute_root_is_first_device (rt : HipRuntime) (devices : list Z)
    (pairs : list DevicePair) :
  compute rt devices [] = Ok pairs →
  ∃ d, devices !! 0%nat = Some d ∧ pairs !! 0%nat = Some (mkDevicePair (-1) d).
Proof. apply compute_root_first. Qed.

Lemma compute_root_is_first_device_witness :
  compute ex_rt [2; 0; 3; 1] []
  = Ok [mkDevicePair (-1) 2; mkDevicePair 2 0; mkDevicePair 3 1; mkDevicePair 2 3] ∧
  ∃ d, [2; 0; 3; 1] !! 0%nat = Some d ∧
       [mkDevicePair (-1) 2; mkDevicePair 2 0; mkDevicePair 3 1; mkDevicePair 2 3]
         !! 0%nat = Some (mkDevicePair (-1) d).
Proof.
  assert (compute ex_rt [2; 0; 3; 1] []
          = Ok [mkDevicePair (-1) 2; mkDevicePair 2 0; mkDevicePair 3 1;
                mkDevicePair 2 3]) as H by (vm_compute; reflexivity).
  split; [exact H|].
  exact (compute_root_is_first_device ex_rt [2; 0; 3; 1] _ H).
Defined.

(** X11. A parent comes before its child in the device list: for every
    pair after the first, the parent stands at an earlier position of
    [devices] than the device. *)
Theorem compute_parent_precedes_device (rt : HipRuntime) (devices : list Z)
    (pairs : list DevicePair) :
  compute rt devices [] = Ok pairs →
  ∀ k pr, (1 ≤ k)%nat → pairs !! k = Some pr →
    ∃ i j, (i < j)%nat ∧ devices !! i = Some (parent pr) ∧
           devices !! j = Some (device pr).
Proof.
  intros H.
  apply (compute_keeps rt
           (λ s, (∀ i j a b, (i < j)%nat → s.1 !! i = Some a → s.1 !! j = Some b →
                    ∃ i' j', (i' < j')%nat ∧ devices !! i' = Some a ∧
                             devices !! j' = Some b) ∧
                 Forall (λ pr, ∃ i j, (i < j)%nat ∧ devices !! i = Some (parent pr) ∧
                                      devices !! j = Some (device pr)) s.2)) in H
    as (root & rest & -> & [_ Hrest] & _); [|clear H|].
  - intros k pr Hk Hpr. destruct k as [|k]; [lia|]. simpl in Hpr.
    rewrite Forall_lookup in Hrest. by eapply Hrest.
  - intros s i j a b [Hord Hpairs] Hij Ha Hb. simpl. split.
    + intros i1 j1 a1 b1 Hlt Ha1 Hb1.
      apply lookup_delete_shift in Ha1 as (i2 & Ha2 & Hi2 & Hi2').
      apply lookup_delete_shift in Hb1 as (j2 & Hb2 & Hj2 & Hj2').
      apply (Hord i2 j2); [lia|done|done].
    + apply Forall_app. split; [done|]. constructor; [|constructor]. simpl.
      by apply (Hord i j).
  - simpl. split; [|constructor]. intros i j a b Hij Ha Hb. by exists i, j.
Qed.

Lemma compute_parent_precedes_device_witness :
  let pairs := [mkDevicePair (-1) 2; mkDevicePair 2 0; mkDevicePair 3 1;
                mkDevicePair 2 3] in
  compute ex_rt [2; 0; 3; 1] [] = Ok pairs ∧
  ∀ k pr, (1 ≤ k)%nat → pairs !! k = Some pr →
    ∃ i j, (i < j)%nat ∧ [2; 0; 3; 1] !! i = Some (parent pr) ∧
           [2; 0; 3; 1] !! j = Some (device pr).
Proof.
  intros pairs.
  assert (compute ex_rt [2; 0; 3; 1] [] = Ok pairs) as H by (vm_compute; reflexivity).
  split; [exact H|].
  exact (compute_parent_precedes_device ex_rt [2; 0; 3; 1] pairs H).
Defined.

(** X12. [compute] fills a pair vector that is empty on entry: called
    with a vector that already holds pairs it never returns, because
    its check [pairs->size() == devices.size()] counts them too. *)
Theorem compute_needs_empty_pairs (rt : HipRuntime) (devices : list Z)
    (pairs0 : list DevicePair) :
  pairs0 ≠ [] → ¬ is_Ok (compute rt devices pairs0).
Proof.
  intros Hne [pairs H]. apply Hne.
  apply (compute_keeps rt
           (λ s, (length s.1 + length s.2 = length devices + length pairs0)%nat))
    in H as (root & rest & -> & Hsum & Hlen); [|clear H|done].
  - simpl in *. apply length_zero_iff_nil. lia.
  - intros s i j a b Hs Hij Ha Hb. simpl.
    apply lookup_lt_Some in Hb.
    rewrite length_app, length_delete by (by apply lookup_lt_is_Some_2). simpl. lia.
Qed.

Lemma compute_needs_empty_pairs_witness :
  [mkDevicePair 7 8] ≠ [] ∧
  is_Ok (compute ex_rt [0; 1] []) ∧
  ¬ is_Ok (compute ex_rt [0; 1] [mkDevicePair 7 8]).
Proof.
  assert ([mkDevicePair 7 8] ≠ []) as Hne by discriminate.
  split; [exact Hne|]. split; [eexists; vm_compute; reflexivity|].
  exact (compute_needs_empty_pairs ex_rt [0; 1] [mkDevicePair 7 8] Hne).
Defined.

(** ** When the planner returns *)

Lemma for_loop_idle {St} (fuel : nat) (cond : nat → St → bool)
    (body : nat → St → result (St * bool)) (i : nat) (s : St) (bound : nat) :
  (∀ j, (i ≤ j)%nat → cond j s = true →
        (j < bound)%nat ∧ body j s = Ok (s, false)) →
  (bound - i < fuel)%nat →
  for_loop fuel cond body i s = Ok s.
Proof.
  revert i. induction fuel as [|fuel IH]; intros i Hbody Hfuel; [lia|].
  simpl. destruct (cond i s) eqn:Ec; [|done].
  destruct (Hbody i ltac:(lia) Ec) as [Hi ->]. simpl.
  apply IH; [|lia]. intros j Hj. apply Hbody. lia.
Qed.

Lemma CHECK_pairs_complete (ps : list DevicePair) :
  Forall (λ p, parent p ≠ device p) ps → NoDup (device <$> ps) →
  CHECK_pairs ps = Ok tt.
Proof.
  induction ps as [|p ps IH]; intros Hpar Hnd; [done|].
  apply Forall_cons in Hpar as [Hp Hpar]. simpl in Hnd.
  apply NoDup_cons in Hnd as [Hnot Hnd].
  simpl. rewrite bool_decide_eq_true_2 by done. simpl.
  assert (forallb (λ q, bool_decide (device p ≠ device q)) ps = true) as ->.
  { apply forallb_forall. intros q Hq. apply bool_decide_eq_true.
    intros Heq. apply Hnot. rewrite Heq. apply list_elem_of_fmap.
    exists q. split; [done|]. by apply list_elem_of_In. }
  simpl. by apply IH.
Qed.

Lemma remaining_depth_pow2 (k : nat) : remaining_depth (2 ^ k) = k.
Proof.
  unfold remaining_depth. rewrite Nat2Z.inj_pow. simpl (Z.of_nat 2).
  rewrite Z.log2_up_pow2 by lia. lia.
Qed.

Lemma remaining_depth_bound (n : nat) :
  (1 ≤ n)%nat → (n ≤ 2 ^ remaining_depth n)%nat.
Proof.
  intros Hn. unfold remaining_depth.
  destruct (decide (n = 1)%nat) as [->|Hne]; [simpl; lia|].
  pose proof (Z.log2_up_spec (Z.of_nat n) ltac:(lia)) as [_ Hle].
  pose proof (Z.log2_up_nonneg (Z.of_nat n)) as Hnn.
  apply Nat2Z.inj_le. rewrite Nat2Z.inj_pow. simpl (Z.of_nat 2).
  by rewrite Z2Nat.id.
Qed.

Section PlannerOutcome.

Variable rt : HipRuntime.
Variable devices : list Z.
Hypothesis Hprops : ∀ d, d ∈ devices → hipGetDeviceProperties rt d = true.

(** What the phases keep of a duplicate-free device list. *)
#[local] Abbreviation tidy := (λ s : plan,
  NoDup s.1 ∧ s.1 ⊆ devices ∧ Forall (λ p, parent p ≠ device p) s.2).

Lemma tidy_emit (s : plan) i j a b :
  tidy s → (i < j)%nat → s.1 !! i = Some a → s.1 !! j = Some b →
  tidy (delete j s.1, s.2 ++ [mkDevicePair a b]).
Proof.
  intros (Hnd & Hsub & Hpar) Hij Ha Hb. simpl. split; [|split].
  - eapply sublist_NoDup; [done|apply sublist_delete].
  - intros x Hx. apply Hsub. eapply elem_of_sublist; [done|apply sublist_delete].
  - apply Forall_app. split; [done|]. constructor; [|constructor]. simpl.
    intros ->. assert (i = j) by (by eapply NoDup_lookup). lia.
Qed.

Lemma board_pass_idle (s : plan) : s.1 ⊆ devices → board_pass rt s = Ok s.
Proof.
  intros Hsub. unfold board_pass.
  apply (for_loop_idle _ _ _ _ _ (length s.1)); [|lia].
  intros i _ Hi. apply bool_decide_eq_true in Hi. split; [done|].
  rewrite (for_loop_idle _ _ _ _ _ (length s.1)); [done| |lia].
  intros j _ Hj. apply bool_decide_eq_true in Hj. split; [done|].
  destruct (lookup_lt_is_Some_2 s.1 i Hi) as [a Ha].
  destruct (lookup_lt_is_Some_2 s.1 j Hj) as [b Hb].
  unfold vec_at, HIP_CHECK_properties. rewrite Ha, Hb. simpl.
  rewrite !Hprops; [done|..]; apply Hsub; by eapply list_elem_of_lookup_2.
Qed.

Lemma depth_loop_idle depth (pass : plan → result plan) (s : plan) :
  pass s = Ok s → depth_loop depth pass s = Ok s.
Proof.
  intros Hpass. unfold depth_loop.
  apply (for_loop_idle _ _ _ _ _ depth); [|lia].
  intros d _ Hd. apply bool_decide_eq_true in Hd. split; [done|].
  by rewrite Hpass.
Qed.

(** The passes of a phase from pass [k] on. *)
#[local] Abbreviation passes := (λ (pass : plan → result plan) fuel depth k s,
  for_loop fuel (λ d (_ : plan), bool_decide (d < depth)%nat)
    (λ _ s, s' ← pass s; Ok (s', false)) k s).

Lemma passes_done pass fuel depth k s :
  (depth ≤ k)%nat → passes pass (S fuel) depth k s = Ok s.
Proof. intros Hk. simpl. by rewrite bool_decide_eq_false_2 by lia. Qed.

Lemma passes_step pass fuel depth k s s' :
  (k < depth)%nat → pass s = Ok s' →
  passes pass (S fuel) depth k s = passes pass fuel depth (S k) s'.
Proof. intros Hk Hpass. simpl. rewrite bool_decide_eq_true_2 by lia. by rewrite Hpass. Qed.

Lemma passes_fail pass fuel depth k s e :
  (k < depth)%nat → pass s = Err e → passes pass (S fuel) depth k s = Err e.
Proof. intros Hk Hpass. simpl. rewrite bool_decide_eq_true_2 by lia. by rewrite Hpass. Qed.

(** The fallback phase brings a power of two of devices down to one ... *)
Lemma fallback_phase_pow2 (e fuel depth k : nat) (s : plan) :
  (depth - k = e)%nat → (e < fuel)%nat → (length s.1 = 2 ^ e)%nat →
  ∃ s', passes fallback_pass fuel depth k s = Ok s' ∧ length s'.1 = 1%nat.
Proof.
  revert fuel k s. induction e as [|e IH]; intros fuel k s He Hfuel Hlen;
    (destruct fuel as [|fuel]; [lia|]).
  - exists s. split; [apply passes_done; lia|done].
  - destruct s as [rem ps]. simpl in Hlen.
    destruct (fallback_pass_parity rem ps) as [Heven _].
    destruct Heven as (s1 & Hs1 & Hhalf).
    { rewrite Hlen. replace (2 ^ e + (2 ^ e + 0))%nat with (2 ^ e * 2)%nat by lia.
      apply Nat.Div0.mod_mul. }
    rewrite (passes_step _ _ _ _ _ s1) by (done || lia).
    apply IH; lia.
Qed.

(** ... and ends in an access past the end on any other number. *)
Lemma fallback_phase_not_pow2 (e fuel depth k : nat) (s : plan) :
  (depth - k = e)%nat → (e < fuel)%nat → (1 ≤ length s.1 < 2 ^ e)%nat →
  passes fallback_pass fuel depth k s = Err OutOfRange.
Proof.
  revert fuel k s. induction e as [|e IH]; intros fuel k s He Hfuel Hlen;
    (destruct fuel as [|fuel]; [lia|]); [simpl in Hlen; lia|].
  destruct s as [rem ps]. simpl in Hlen.
  destruct (fallback_pass_parity rem ps) as [Heven Hodd].
  destruct (decide (length rem mod 2 = 0)%nat) as [H0|H1].
  - destruct (Heven H0) as (s1 & Hs1 & Hhalf).
    rewrite (passes_step _ _ _ _ _ s1) by (done || lia).
    apply IH; [lia|lia|]. simpl in Hhalf. lia.
  - apply passes_fail; [lia|]. apply Hodd.
    pose proof (Nat.mod_upper_bound (length rem) 2 ltac:(lia)). lia.
Qed.


Lemma p2p_pass_idle (s : plan) :
  (∀ a b, a ∈ devices → b ∈ devices → hipDeviceCanAccessPeer rt a b = Some false) →
  s.1 ⊆ devices → p2p_pass rt s = Ok s.
Proof.
  intros Hno Hsub. unfold p2p_pass.
  apply (for_loop_idle _ _ _ _ _ (length s.1)); [|lia].
  intros i _ Hi. apply bool_decide_eq_true in Hi. split; [done|].
  rewrite (for_loop_idle _ _ _ _ _ (length s.1)); [done| |lia].
  intros j _ Hj. apply bool_decide_eq_true in Hj. split; [done|].
  destruct (lookup_lt_is_Some_2 s.1 i Hi) as [a Ha].
  destruct (lookup_lt_is_Some_2 s.1 j Hj) as [b Hb].
  unfold vec_at, HIP_CHECK_access. rewrite Ha, Hb. simpl.
  rewrite Hno; [done|..]; apply Hsub; by eapply list_elem_of_lookup_2.
Qed.

(** A pass of the P2P phase that has reached index [i], every two
    devices being linked: each device from [i] on is paired with its
    right neighbour, which is erased. *)
Lemma p2p_loop_full (fuel i : nat) (s : plan) :
  (∀ a b, a ∈ devices → b ∈ devices → a ≠ b →
          hipDeviceCanAccessPeer rt a b = Some true) →
  NoDup s.1 → s.1 ⊆ devices →
  (length s.1 - i < fuel)%nat → (i ≤ length s.1)%nat →
  ∃ s',
    for_loop fuel
      (λ i (s : plan), bool_decide (i < length s.1)%nat)
      (λ i (s : plan),
         s' ← for_loop (S (length s.1))
                (λ j (s : plan), bool_decide (j < length s.1)%nat)
                (λ j (s : plan),
                   a ← vec_at s.1 i;
                   b ← vec_at s.1 j;
                   access ← HIP_CHECK_access rt a b;
                   if access : bool then
                     remaining' ← vec_erase s.1 j;
                     Ok ((remaining', s.2 ++ [mkDevicePair a b]), true)
                   else Ok (s, false))
                (S i) s;
         Ok (s', false))
      i s = Ok s' ∧
    (2 * length s'.1 = length s.1 + i ∨ 2 * length s'.1 = length s.1 + i + 1)%nat.
Proof.
  intros Hall. revert i s.
  induction fuel as [|fuel IH]; intros i s Hnd Hsub Hfuel Hi; [lia|].
  cbn [for_loop].
  destruct (decide (i < length s.1)%nat) as [Hlt|Hge].
  2:{ rewrite bool_decide_eq_false_2 by done. exists s. split; [done|]. lia. }
  rewrite bool_decide_eq_true_2 by done.
  destruct (lookup_lt_is_Some_2 s.1 i Hlt) as [a Ha].
  destruct (decide (S i < length s.1)%nat) as [Hlt'|Hge].
  - destruct (lookup_lt_is_Some_2 s.1 (S i) Hlt') as [b Hb].
    assert (a ≠ b) as Hab.
    { intros ->. assert (i = S i) by (by eapply NoDup_lookup). lia. }
    rewrite bool_decide_eq_true_2 by done.
    assert (HIP_CHECK_access rt a b = Ok true) as Hacc.
    { unfold HIP_CHECK_access.
      rewrite Hall; [done|apply Hsub; by eapply list_elem_of_lookup_2..|done]. }
    rewrite (proj2 (vec_at_Ok s.1 i a) Ha). cbn [mbind result_bind].
    rewrite (proj2 (vec_at_Ok s.1 (S i) b) Hb). cbn [mbind result_bind].
    rewrite Hacc. cbn [mbind result_bind].
    rewrite (proj2 (vec_erase_Ok s.1 _ (S i)) (conj Hlt' eq_refl)).
    cbn [mbind result_bind].
    destruct (IH (S i) (delete (S i) s.1, s.2 ++ [mkDevicePair a b]))
      as (s' & Hs' & Hlen).
    + eapply sublist_NoDup; [done|apply sublist_delete].
    + intros x Hx. apply Hsub. eapply elem_of_sublist; [done|apply sublist_delete].
    + cbn [fst]. rewrite length_delete by (by exists b). lia.
    + cbn [fst]. rewrite length_delete by (by exists b). lia.
    + exists s'. split; [done|]. cbn [fst] in Hlen.
      rewrite length_delete in Hlen by (by exists b). lia.
  - rewrite bool_decide_eq_false_2 by done. cbn [mbind result_bind].
    destruct (IH (S i) s) as (s' & Hs' & Hlen); [done|done|lia|lia|].
    exists s'. split; [done|]. lia.
Qed.

Lemma p2p_pass_full (s : plan) :
  (∀ a b, a ∈ devices → b ∈ devices → a ≠ b →
          hipDeviceCanAccessPeer rt a b = Some true) →
  NoDup s.1 → s.1 ⊆ devices →
  ∃ s', p2p_pass rt s = Ok s' ∧
        (2 * length s'.1 = length s.1 ∨ 2 * length s'.1 = length s.1 + 1)%nat.
Proof.
  intros Hall Hnd Hsub.
  destruct (p2p_loop_full (S (length s.1)) 0 s Hall Hnd Hsub) as (s' & Hs' & Hlen);
    [lia|lia|].
  exists s'. split; [exact Hs'|]. lia.
Qed.

(** With every two devices linked, the P2P phase brings any number of
    devices down to one. *)
Lemma p2p_phase_full (e fuel depth k : nat) (s : plan) :
  (∀ a b, a ∈ devices → b ∈ devices → a ≠ b →
          hipDeviceCanAccessPeer rt a b = Some true) →
  tidy s →
  (depth - k = e)%nat → (e < fuel)%nat → (1 ≤ length s.1 ≤ 2 ^ e)%nat →
  ∃ s', passes (p2p_pass rt) fuel depth k s = Ok s' ∧ length s'.1 = 1%nat.
Proof.
  intros Hall. revert fuel k s.
  induction e as [|e IH]; intros fuel k s Htidy He Hfuel Hlen;
    (destruct fuel as [|fuel]; [lia|]).
  - exists s. split; [apply passes_done; lia|]. simpl in Hlen. lia.
  - destruct Htidy as (Hnd & Hsub & Hpar).
    destruct (p2p_pass_full s Hall Hnd Hsub) as (s1 & Hs1 & Hhalf).
    rewrite (passes_step _ _ _ _ _ s1) by (done || lia).
    apply IH; [|lia|lia|simpl in Hlen; lia].
    apply (p2p_pass_keeps rt tidy tidy_emit s s1); done.
Qed.

(** The closing checks pass on what the phases leave of a
    duplicate-free list of device ids. *)
Lemma compute_closing_checks (root : Z) (rest : list DevicePair) :
  NoDup devices → -1 ∉ devices →
  plan_inv devices ([root], rest) →
  Forall (λ p, parent p ≠ device p) rest →
  (_ ← CHECK (bool_decide (length [root] = 1%nat));
   root' ← vec_at [root] 0;
   let pairs := mkDevicePair (-1) root' :: rest in
   _ ← CHECK (bool_decide (length pairs = length devices));
   _ ← CHECK_pairs pairs;
   Ok pairs) = Ok (mkDevicePair (-1) root :: rest).
Proof.
  intros Hnd Hneg [Hperm _] Hpar. simpl in Hperm.
  assert (device <$> mkDevicePair (-1) root :: rest ≡ₚ devices) as Hdev.
  { simpl. rewrite <- Hperm. apply Permutation_cons_append. }
  change (length [root]) with 1%nat.
  rewrite bool_decide_eq_true_2 by done.
  change (vec_at [root] 0) with (Ok root : result Z).
  cbn [CHECK mbind result_bind]. cbv zeta.
  rewrite bool_decide_eq_true_2; cycle 1.
  { rewrite <- (length_fmap device), Hdev. done. }
  cbn [CHECK mbind result_bind].
  rewrite CHECK_pairs_complete; [done| |by rewrite Hdev].
  constructor; [|done]. simpl. intros Heq. apply Hneg. rewrite <- Hdev, Heq.
  simpl. apply elem_of_cons. by left.
Qed.

End PlannerOutcome.

(** X13. Without any peer-to-peer link between the listed devices, the
    planner returns exactly for a power of two of them: the fallback
    phase halves an even number of devices per pass, so a duplicate-free
    list of 2^k device ids is planned, while on any other number of
    devices (three, five, six, ...) the phase reads [remaining[i + 1]]
    past the end. *)
Theorem compute_without_peer_access (rt : HipRuntime) (devices : list Z) :
  (∀ a b, a ∈ devices → b ∈ devices → hipDeviceCanAccessPeer rt a b = Some false) →
  (∀ d, d ∈ devices → hipGetDeviceProperties rt d = true) →
  ((∃ k : nat, length devices = (2 ^ k)%nat) → NoDup devices → -1 ∉ devices →
   is_Ok (compute rt devices [])) ∧
  (devices ≠ [] → (¬ ∃ k : nat, length devices = (2 ^ k)%nat) →
   compute rt devices [] = Err OutOfRange).
Proof.
  intros Hno Hprops.
  assert (depth_loop (remaining_depth (length devices)) (board_pass rt) (devices, [])
          = Ok (devices, [])) as Hboard.
  { apply depth_loop_idle, (board_pass_idle rt devices Hprops). done. }
  assert (depth_loop (remaining_depth (length devices)) (p2p_pass rt) (devices, [])
          = Ok (devices, [])) as Hp2p.
  { apply depth_loop_idle, (p2p_pass_idle rt devices); done. }
  split.
  - intros [k Hk] Hnd Hneg.
    destruct (fallback_phase_pow2 k (S k) k 0 (devices, []))
      as (s3 & Hs3 & Hone); [lia|lia|done|].
    assert (depth_loop (remaining_depth (length devices)) fallback_pass (devices, [])
            = Ok s3) as Hfall.
    { rewrite Hk, remaining_depth_pow2. exact Hs3. }
    pose proof Hfall as Hinv.
    apply (depth_loop_inv devices) in Hinv;
      [|apply fallback_pass_inv|split; simpl; [done|constructor]].
    pose proof Hfall as Htidy.
    apply (depth_loop_invariant
             (λ s : plan, NoDup s.1 ∧ s.1 ⊆ devices ∧
                          Forall (λ p, parent p ≠ device p) s.2)) in Htidy;
      [|exact (fallback_pass_keeps _ (tidy_emit devices))
       |simpl; split; [done|split; [done|constructor]]].
    destruct s3 as [[|root [|??]] rest]; try done.
    exists (mkDevicePair (-1) root :: rest).
    unfold compute. cbn [fst snd]. rewrite Hboard. cbn [mbind result_bind fst snd].
    rewrite Hp2p. cbn [mbind result_bind fst snd].
    rewrite Hfall. cbn [mbind result_bind fst snd].
    apply compute_closing_checks; try done. by destruct Htidy as (_ & _ & ?).
  - intros Hne Hnot.
    unfold compute. cbn [fst snd]. rewrite Hboard. cbn [mbind result_bind fst snd].
    rewrite Hp2p. cbn [mbind result_bind fst snd].
    assert (1 ≤ length devices)%nat as Hpos by (destruct devices; [done|simpl; lia]).
    pose proof (remaining_depth_bound _ Hpos) as Hle.
    assert (length devices ≠ 2 ^ remaining_depth (length devices))%nat as Hneq
      by (intros Heq; apply Hnot; by eexists).
    unfold depth_loop.
    rewrite (fallback_phase_not_pow2 (remaining_depth (length devices))); [done|lia|lia|].
    simpl. lia.
Qed.

Lemma compute_without_peer_access_witness :
  (∀ a b, hipDeviceCanAccessPeer ex_rt_no_p2p a b = Some false) ∧
  (∀ d, hipGetDeviceProperties ex_rt_no_p2p d = true) ∧
  is_Ok (compute ex_rt_no_p2p [0; 1; 2; 3] []) ∧
  compute ex_rt_no_p2p [0; 1; 2; 3; 4; 5] [] = Err OutOfRange.
Proof.
  split; [reflexivity|]. split; [reflexivity|]. split.
  - apply (compute_without_peer_access ex_rt_no_p2p [0; 1; 2; 3]).
    + reflexivity.
    + reflexivity.
    + by exists 2%nat.
    + apply (bool_decide_unpack _). vm_compute. exact I.
    + apply (bool_decide_unpack _). vm_compute. exact I.
  - apply (compute_without_peer_access ex_rt_no_p2p [0; 1; 2; 3; 4; 5]).
    + reflexivity.
    + reflexivity.
    + discriminate.
    + intros [k Hk]. simpl in Hk.
      destruct k as [|[|[|k]]]; simpl in Hk; lia.
Defined.

(** X14. With a peer-to-peer link between every two of the listed
    devices, the planner returns for every non-empty, duplicate-free list
    of device ids, of any length: the P2P phase, whose second index is
    guarded, pairs each device with its right neighbour and leaves one
    device after [ceil(log2 N)] passes, so the fallback phase has
    nothing to do. *)
Theorem compute_with_full_peer_access (rt : HipRuntime) (devices : list Z) :
  (∀ a b, a ∈ devices → b ∈ devices → a ≠ b →
          hipDeviceCanAccessPeer rt a b = Some true) →
  (∀ d, d ∈ devices → hipGetDeviceProperties rt d = true) →
  devices ≠ [] → NoDup devices → -1 ∉ devices →
  is_Ok (compute rt devices []).
Proof.
  intros Hall Hprops Hne Hnd Hneg.
  assert (depth_loop (remaining_depth (length devices)) (board_pass rt) (devices, [])
          = Ok (devices, [])) as Hboard.
  { apply depth_loop_idle, (board_pass_idle rt devices Hprops). done. }
  assert (1 ≤ length devices)%nat as Hpos by (destruct devices; [done|simpl; lia]).
  pose proof (remaining_depth_bound _ Hpos) as Hle.
  destruct (p2p_phase_full rt devices (remaining_depth (length devices))
              (S (remaining_depth (length devices)))
              (remaining_depth (length devices)) 0 (devices, []) Hall)
    as (s2 & Hs2 & Hone); [simpl; split; [done|split; [done|constructor]]|lia|lia|simpl; lia|].
  assert (depth_loop (remaining_depth (length devices)) (p2p_pass rt) (devices, [])
          = Ok s2) as Hp2p by exact Hs2.
  pose proof Hp2p as Hinv.
  apply (depth_loop_inv devices) in Hinv;
    [|apply p2p_pass_inv|split; simpl; [done|constructor]].
  pose proof Hp2p as Htidy.
  apply (depth_loop_invariant
           (λ s : plan, NoDup s.1 ∧ s.1 ⊆ devices ∧
                        Forall (λ p, parent p ≠ device p) s.2)) in Htidy;
    [|exact (p2p_pass_keeps rt _ (tidy_emit devices))
     |simpl; split; [done|split; [done|constructor]]].
  destruct s2 as [[|root [|??]] rest]; try done.
  exists (mkDevicePair (-1) root :: rest).
  unfold compute. cbn [fst snd]. rewrite Hboard. cbn [mbind result_bind fst snd].
  rewrite Hp2p. cbn [mbind result_bind fst snd].
  change (remaining_depth (length [root])) with 0%nat.
  change (depth_loop 0 fallback_pass ([root], rest)) with (Ok ([root], rest) : result plan).
  cbn [mbind result_bind fst snd].
  apply compute_closing_checks; try done. by destruct Htidy as (_ & _ & ?).
Qed.

Lemma compute_with_full_peer_access_witness :
  (∀ a b, a ≠ b → hipDeviceCanAccessPeer ex_rt a b = Some true) ∧
  compute ex_rt [0; 1; 2] []
  = Ok [mkDevicePair (-1) 0; mkDevicePair 0 1; mkDevicePair 0 2] ∧
  is_Ok (compute ex_rt [0; 1; 2] []).
Proof.
  assert (∀ a b, a ≠ b → hipDeviceCanAccessPeer ex_rt a b = Some true) as Hall.
  { intros a b Hab. simpl. by rewrite bool_decide_eq_true_2. }
  split; [exact Hall|]. split; [vm_compute; reflexivity|].
  apply (compute_with_full_peer_access ex_rt [0; 1; 2]).
  - intros a b _ _. apply Hall.
  - reflexivity.
  - discriminate.
  - apply (bool_decide_unpack _). vm_compute. exact I.
  - apply (bool_decide_unpack _). vm_compute. exact I.
Defined.

Lemma remaining_depth_pos (n : nat) : (2 ≤ n)%nat → (1 ≤ remaining_depth n)%nat.
Proof.
  intros Hn. unfold remaining_depth.
  pose proof (Z.log2_up_pos (Z.of_nat n) ltac:(lia)). lia.
Qed.

Section UnknownDevice.

Variable rt : HipRuntime.

(** The inner loop of the board phase from [j0] on, when one of the
    two devices queried at some [j] is not known to the runtime. *)
Lemma board_inner_fails (fuel i j0 j : nat) (s : plan) (a b : Z) :
  s.1 !! i = Some a → s.1 !! j = Some b → (j0 ≤ j)%nat →
  hipGetDeviceProperties rt a = false ∨ hipGetDeviceProperties rt b = false →
  (length s.1 - j0 < fuel)%nat →
  for_loop fuel
    (λ j (s : plan), bool_decide (j < length s.1)%nat)
    (λ j (s : plan),
       a ← vec_at s.1 i;
       b ← vec_at s.1 j;
       _ ← HIP_CHECK_properties rt a;
       _ ← HIP_CHECK_properties rt b;
       Ok (s, false))
    j0 s = Err HipError.
Proof.
  intros Ha Hb Hj Hbad. revert j0 Hj.
  induction fuel as [|fuel IH]; intros j0 Hj Hfuel; [lia|].
  pose proof (lookup_lt_Some _ _ _ Hb) as Hjlt.
  cbn [for_loop]. rewrite bool_decide_eq_true_2 by lia.
  destruct (lookup_lt_is_Some_2 s.1 j0 ltac:(lia)) as [b0 Hb0].
  rewrite (proj2 (vec_at_Ok s.1 i a) Ha). cbn [mbind result_bind].
  rewrite (proj2 (vec_at_Ok s.1 j0 b0) Hb0). cbn [mbind result_bind].
  assert (∀ x, HIP_CHECK_properties rt x =
               if hipGetDeviceProperties rt x then Ok tt else Err HipError) as Hq
    by done.
  rewrite (Hq a).
  destruct (hipGetDeviceProperties rt a) eqn:Epa; [|reflexivity]. cbn [mbind result_bind].
  rewrite (Hq b0).
  destruct (hipGetDeviceProperties rt b0) eqn:Epb; [|reflexivity]. cbn [mbind result_bind].
  apply IH; [|lia].
  destruct (decide (j = j0)) as [->|]; [|lia].
  assert (b0 = b) as -> by congruence. destruct Hbad; congruence.
Qed.

Lemma for_loop_fails {St} (fuel : nat) (cond : nat → St → bool)
    (body : nat → St → result (St * bool)) (i : nat) (s : St) (e : error) :
  cond i s = true → body i s = Err e → for_loop (S fuel) cond body i s = Err e.
Proof. intros Hc Hb. simpl. by rewrite Hc, Hb. Qed.

Lemma board_pass_fails (s : plan) (d : Z) :
  (2 ≤ length s.1)%nat → d ∈ s.1 → hipGetDeviceProperties rt d = false →
  board_pass rt s = Err HipError.
Proof.
  intros Hlen Hd Hbad. unfold board_pass.
  apply for_loop_fails; [apply bool_decide_eq_true_2; lia|].
  apply list_elem_of_lookup in Hd as [k Hk].
  destruct (lookup_lt_is_Some_2 s.1 0 ltac:(lia)) as [a Ha].
  destruct (lookup_lt_is_Some_2 s.1 1 ltac:(lia)) as [b Hb].
  destruct k as [|k].
  - assert (a = d) as -> by congruence.
    rewrite (board_inner_fails _ 0 1 1 s d b); [done|done|done|lia|by left|lia].
  - rewrite (board_inner_fails _ 0 1 (S k) s a d); [done|done|done|lia|by right|lia].
Qed.

End UnknownDevice.

(** X15. A device the runtime does not know stops the planner, for two
    or more devices: the board phase, whose pairing is switched off,
    still queries the properties of every listed device, and [compute]
    aborts on the first query that fails.  (A single device is never
    queried.) *)
Theorem compute_rejects_unknown_device (rt : HipRuntime) (devices : list Z) (d : Z) :
  (2 ≤ length devices)%nat →
  d ∈ devices →
  hipGetDeviceProperties rt d = false →
  compute rt devices [] = Err HipError.
Proof.
  intros Hlen Hd Hbad.
  pose proof (remaining_depth_pos _ Hlen) as Hdepth.
  assert (depth_loop (remaining_depth (length devices)) (board_pass rt) (devices, [])
          = Err HipError) as Hboard.
  { unfold depth_loop. apply for_loop_fails; [apply bool_decide_eq_true_2; lia|].
    by rewrite (board_pass_fails rt (devices, []) d). }
  unfold compute. cbn [fst snd]. by rewrite Hboard.
Qed.

Lemma compute_rejects_unknown_device_witness :
  let rt := {| device_count := 4; heap_limit := 4096;
               hipDeviceCanAccessPeer := λ a b, Some (bool_decide (a ≠ b));
               hipGetDeviceProperties := λ d, bool_decide (d < 4) |} in
  (2 ≤ length [0; 1; 9])%nat ∧ 9 ∈ [0; 1; 9] ∧
  hipGetDeviceProperties rt 9 = false ∧
  compute rt [0; 1; 9] [] = Err HipError.
Proof.
  intros rt.
  assert (2 ≤ length [0; 1; 9])%nat as Hlen by (simpl; lia).
  assert (9 ∈ [0; 1; 9]) as Hin by (apply (bool_decide_unpack _); vm_compute; exact I).
  assert (hipGetDeviceProperties rt 9 = false) as Hbad by reflexivity.
  split; [exact Hlen|]. split; [exact Hin|]. split; [exact Hbad|].
  exact (compute_rejects_unknown_device rt [0; 1; 9] 9 Hlen Hin Hbad).
Defined.

(** ** More about the coordinator *)

Section CoordinatorLoops.

Implicit Types (st : Coordinator) (body : nat → Coordinator → outcome).

Lemma for_range_keeps (P : Coordinator → Prop) n lo body st st' :
  (∀ i st st', (lo ≤ i)%nat → P st → body i st = Done st' → P st') →
  P st → for_range n lo body st = Done st' → P st'.
Proof.
  revert lo st. induction n as [|n IH]; intros lo st Hbody Hst; simpl.
  - by intros [= <-].
  - destruct (body lo st) as [st1|e st1] eqn:E; simpl; [|done].
    apply IH; [|by eapply (Hbody lo)]. intros i ?? Hi. apply Hbody. lia.
Qed.

Lemma for_range_total (P : Coordinator → Prop) n lo body st :
  (∀ i st, (lo ≤ i < lo + n)%nat → P st → ∃ st', body i st = Done st' ∧ P st') →
  P st → ∃ st', for_range n lo body st = Done st' ∧ P st'.
Proof.
  revert lo st. induction n as [|n IH]; intros lo st Hbody Hst; simpl.
  - by exists st.
  - destruct (Hbody lo st ltac:(lia) Hst) as (st1 & -> & Hst1). simpl.
    apply IH; [|done]. intros i st2 Hi. apply Hbody. lia.
Qed.

Lemma Prepare_build_keeps (P : Coordinator → Prop) pairs st st' :
  (∀ i st st', (1 ≤ i)%nat → P st → Prepare_slot pairs i st = Done st' → P st') →
  P st → Prepare_build pairs st = Done st' → P st'.
Proof.
  intros Hslot. unfold Prepare_build. apply for_range_keeps.
  intros _ st1 st2 _. unfold Prepare_sweep. by apply for_range_keeps.
Qed.

Lemma Prepare_build_total (P : Coordinator → Prop) pairs st :
  (∀ i st, (1 ≤ i < length pairs)%nat → P st →
           ∃ st', Prepare_slot pairs i st = Done st' ∧ P st') →
  P st → ∃ st', Prepare_build pairs st = Done st' ∧ P st'.
Proof.
  intros Hslot. unfold Prepare_build. apply for_range_total.
  intros _ st1 _. unfold Prepare_sweep. apply for_range_total.
  intros i st2 Hi. apply Hslot. lia.
Qed.

(** The three ways a slot of a sweep can go. *)
Lemma Prepare_slot_cases pairs i st :
  (Prepare_slot pairs i st = Abort OutOfRange st ∧
   (syncs st !! i = None ∨ pairs !! i = None)) ∨
  Prepare_slot pairs i st = Done st ∨
  ∃ pr p pn,
    syncs st !! i = Some None ∧ pairs !! i = Some pr ∧
    find_parent st (parent pr) = Some p ∧
    sync_at st p = Some pn ∧ device_ pn = parent pr ∧
    Prepare_slot pairs i st =
      Done (add_child p i
              (reset_slot i {| device_ := device pr; parent_ := Some p;
                               children_ := [] |} st)).
Proof.
  unfold Prepare_slot.
  destruct (syncs st !! i) as [[n|]|] eqn:Hi; [by right; left| |by left; split; [|left]].
  destruct (pairs !! i) as [pr|] eqn:Hpr; [|by left; split; [|right]].
  destruct (find_parent st (parent pr)) as [p|] eqn:Hfind; [|by right; left].
  right. right. pose proof (find_parent_Some _ _ _ Hfind) as (_ & pn & Hpn & Hdev).
  by exists pr, p, pn.
Qed.

Lemma trace_add_child p c st : trace (add_child p c st) = trace st.
Proof. by destruct p. Qed.

(** A filled slot stays filled, and the one slot a step fills is the
    slot it is at. *)
Lemma fill_is_Some st i p n j :
  (1 ≤ i < length (syncs st))%nat →
  is_Some (sync_at (add_child p i (reset_slot i n st)) j) ↔
  j = i ∨ is_Some (sync_at st j).
Proof.
  intros Hi. rewrite sync_at_add_child, sync_at_reset_slot by done.
  destruct (decide (j = p)) as [->|?]; rewrite ?fmap_is_Some;
    (destruct (decide (_ = i)) as [->|?]; [split; [by left|by eexists]|]);
    split; [by right|by intros [?|?]|by right|by intros [?|?]].
Qed.

(** [syncs[i]->StartInternalThread()] for [i = lo ..], all slots being
    filled. *)
Lemma call_slots_run (ev : nat → event) k lo st :
  (∀ i, (lo ≤ i < lo + k)%nat → is_Some (sync_at st i)) →
  for_range k lo (call_slot ev) st =
  Done {| this := this st; syncs := syncs st;
          trace := trace st ++ (ev <$> seq lo k) |}.
Proof.
  revert lo st. induction k as [|k IH]; intros lo st Hfull; simpl.
  - rewrite app_nil_r. by destruct st.
  - unfold call_slot at 1. destruct (Hfull lo ltac:(lia)) as [n ->]. simpl.
    rewrite IH.
    + simpl. by rewrite <- app_assoc.
    + intros i Hi. destruct i as [|i]; [lia|]. simpl. apply (Hfull (S i)). lia.
Qed.

(** The same loop when a slot is null: the call through it is reached. *)
Lemma call_slots_null (ev : nat → event) k lo st i :
  (lo ≤ i < lo + k)%nat → sync_at st i = None →
  ∃ m, for_range k lo (call_slot ev) st =
       Abort NullPointer {| this := this st; syncs := syncs st;
                            trace := trace st ++ (ev <$> seq lo m) |}.
Proof.
  revert lo st. induction k as [|k IH]; intros lo st Hi Hnull; [lia|].
  simpl. unfold call_slot at 1.
  destruct (sync_at st lo) as [n|] eqn:Hlo; simpl.
  - destruct (IH (S lo) {| this := this st; syncs := syncs st;
                           trace := trace st ++ [ev lo] |}) as [m Hm].
    + destruct (decide (i = lo)) as [->|]; [congruence|lia].
    + destruct i as [|i]; [by simpl in *|done].
    + exists (S m). rewrite Hm. simpl. by rewrite <- app_assoc.
  - exists 0%nat. simpl. rewrite app_nil_r. by destruct st.
Qed.

End CoordinatorLoops.

Section PrepareTrace.

Variable pairs : list DevicePair.

(** The replicas constructed so far are those of the filled slots, each
    constructed once. *)
#[local] Abbreviation logged := (λ st : Coordinator,
  NoDup (trace st) ∧
  ∀ e, e ∈ trace st ↔
       ∃ i, (1 ≤ i < length (syncs st))%nat ∧ e = NewP2PSync i ∧
            is_Some (sync_at st i)).

Lemma Prepare_slot_logged i st st' :
  (1 ≤ i)%nat → logged st → Prepare_slot pairs i st = Done st' → logged st'.
Proof.
  intros Hi [Hnd Hlog] H.
  destruct (Prepare_slot_cases pairs i st)
    as [[H' _]|[H'|(pr & p & pn & Hsl & Hpr & Hfind & Hp & Hdev & H')]];
    rewrite H' in H; [done|by injection H as <-|]. injection H as <-.
  pose proof (lookup_lt_Some _ _ _ Hsl) as Hlt.
  assert (sync_at st i = None) as Hempty.
  { destruct i as [|i]; [lia|]. simpl. by rewrite Hsl. }
  rewrite trace_add_child, length_add_child, length_reset_slot. simpl. split.
  - apply NoDup_app. split; [done|]. split; [|apply NoDup_singleton].
    intros e He ->%list_elem_of_singleton.
    apply Hlog in He as (i' & _ & [= <-] & Hsome). rewrite Hempty in Hsome.
    by destruct Hsome.
  - intros e. rewrite elem_of_app, list_elem_of_singleton, Hlog. split.
    + intros [(j & Hj & -> & Hsome)| ->].
      * exists j. split; [done|]. split; [done|]. apply fill_is_Some; [lia|by right].
      * exists i. split; [lia|]. split; [done|]. apply fill_is_Some; [lia|by left].
    + intros (j & Hj & -> & Hsome).
      apply (fill_is_Some st i p _ j ltac:(lia)) in Hsome as [->|Hsome].
      * by right.
      * left. by exists j.
Qed.

Lemma Prepare_build_logged st st' :
  logged st → Prepare_build pairs st = Done st' → logged st'.
Proof. apply Prepare_build_keeps. intros i ???. by apply Prepare_slot_logged. Qed.

End PrepareTrace.

Section WrongRoot.

Variable pairs : list DevicePair.
Variable d0 : Z.
Variable k : nat.
Variable prk : DevicePair.
Hypothesis Hnd : NoDup (device <$> pairs).
Hypothesis H0 : pairs !! 0%nat = Some (mkDevicePair (-1) d0).
Hypothesis Hk : (1 ≤ k)%nat.
Hypothesis Hprk : pairs !! k = Some prk.
Hypothesis Hpark : parent prk = d0.

(** No replica is on the root device of the plan, so that the slot of
    a child of that device stays empty. *)
#[local] Abbreviation rootless := (λ st : Coordinator,
  length (syncs st) = length pairs ∧
  device_ (this st) ≠ d0 ∧
  (∀ j n, (1 ≤ j)%nat → sync_at st j = Some n →
          ∃ pr, pairs !! j = Some pr ∧ device_ n = device pr) ∧
  sync_at st k = None ∧
  Forall (λ e, ∃ i, e = NewP2PSync i) (trace st)).

Lemma rootless_absent st : rootless st → find_parent st d0 = None.
Proof.
  intros (Hlen & Hroot & Hslots & _).
  destruct (find_parent st d0) as [p|] eqn:Hfind; [|done]. exfalso.
  apply find_parent_Some in Hfind as (_ & pn & Hpn & Hdev).
  destruct p as [|p].
  - simpl in Hpn. injection Hpn as <-. done.
  - destruct (Hslots (S p) pn ltac:(lia) Hpn) as (pr & Hpr & Hd).
    assert ((device <$> pairs) !! 0%nat = Some d0) as Ha
      by (by rewrite list_lookup_fmap, H0).
    assert ((device <$> pairs) !! S p = Some d0) as Hb
      by (rewrite list_lookup_fmap, Hpr; simpl; congruence).
    pose proof (NoDup_lookup _ _ _ _ Hnd Ha Hb). lia.
Qed.

Lemma rootless_slot i st :
  (1 ≤ i < length pairs)%nat → rootless st →
  ∃ st', Prepare_slot pairs i st = Done st' ∧ rootless st'.
Proof.
  intros Hi Hst. pose proof (rootless_absent st Hst) as Habsent.
  destruct Hst as (Hlen & Hroot & Hslots & Hempty & Htrace).
  destruct (Prepare_slot_cases pairs i st)
    as [[_ [H|H]]|[H|(pr & p & pn & Hsl & Hpr & Hfind & Hp & Hdev & H)]].
  - apply lookup_ge_None in H. lia.
  - apply lookup_ge_None in H. lia.
  - by exists st.
  - eexists. split; [exact H|].
    assert (i ≠ k) as Hik.
    { intros ->. assert (pr = prk) as -> by congruence.
      rewrite Hpark in Hfind. congruence. }
    assert (sync_at st i = None) as Hnone.
    { destruct i as [|i]; [lia|]. simpl. by rewrite Hsl. }
    assert (p ≠ i) as Hpi by (intros ->; congruence).
    split; [by rewrite length_add_child, length_reset_slot|].
    split; [by destruct p|]. split; [|split].
    + intros j n Hj. rewrite sync_at_add_child, sync_at_reset_slot by lia.
      destruct (decide (j = i)) as [->|Hji].
      * rewrite decide_False by done. intros [= <-]. by exists pr.
      * case_decide as Hjp.
        -- subst j. rewrite Hp. intros [= <-]. simpl. by apply Hslots.
        -- by apply Hslots.
    + rewrite sync_at_add_child, sync_at_reset_slot by lia.
      rewrite (decide_False (P := k = i)) by done. rewrite Hempty. by case_decide.
    + rewrite trace_add_child. simpl. apply Forall_app. split; [done|].
      constructor; [by eexists|constructor].
Qed.

Lemma rootless_build st :
  rootless st → ∃ st', Prepare_build pairs st = Done st' ∧ rootless st'.
Proof. apply Prepare_build_total. apply rootless_slot. Qed.

End WrongRoot.

Lemma dev_reaches_root_child (pairs : list DevicePair) (root d : Z) :
  dev_reaches pairs root d → d ≠ root →
  ∃ i pr, (1 ≤ i)%nat ∧ pairs !! i = Some pr ∧ parent pr = root.
Proof.
  induction 1 as [|i pr Hi Hpr _ IH]; intros Hne; [done|].
  destruct (decide (parent pr = root)) as [Heq|Hneq]; [by exists i, pr|].
  by apply IH.
Qed.

(** X16. A single device.  [Run] on a list of one device id makes no
    call to the runtime, constructs no replica and starts no thread: the
    planner returns the one pair [(-1, d)] and the root solver runs, on
    whatever device the root replica is and whatever the runtime would
    have answered. *)
Theorem Run_single_device (rt : HipRuntime) (root : P2PSync) (d : Z) :
  d ≠ -1 →
  compute rt [d] [] = Ok [mkDevicePair (-1) d] ∧
  Run rt root [d] = Done {| this := root; syncs := [None]; trace := [Solve] |}.
Proof.
  intros Hd.
  assert (compute rt [d] [] = Ok [mkDevicePair (-1) d]) as Hc.
  { unfold compute. simpl. rewrite bool_decide_eq_true_2 by done. done. }
  split; [done|]. unfold Run, Prepare. by rewrite Hc.
Qed.

Lemma Run_single_device_witness :
  3 ≠ -1 ∧
  Run {| device_count := 0; heap_limit := 0;
         hipDeviceCanAccessPeer := λ _ _, None;
         hipGetDeviceProperties := λ _, false |} ex_root [3]
  = Done {| this := ex_root; syncs := [None]; trace := [Solve] |}.
Proof.
  assert (3 ≠ -1) as Hd by discriminate.
  split; [exact Hd|].
  exact (proj2 (Run_single_device _ ex_root 3 Hd)).
Defined.





(** ** From the planner to the two rounds *)

(** X19. What the planner returns is a tree.  In every pair list
    [compute] returns, the first pair is the root [(-1, root)], no device
    occurs twice, and every pair's device reaches the root device by
    following the parents named by the pairs after the first: the
    parent links have no cycle and leave no device out. *)
Theorem compute_returns_in_tree (rt : HipRuntime) (devices : list Z)
    (pairs : list DevicePair) :
  compute rt devices [] = Ok pairs →
  ∃ root, pairs !! 0%nat = Some (mkDevicePair (-1) root) ∧
          NoDup (device <$> pairs) ∧
          ∀ i pr, pairs !! i = Some pr → dev_reaches pairs root (device pr).
Proof.
  intros H. destruct (compute_in_tree rt devices pairs H)
    as (root & H0 & _ & Hnd & Hreach).
  by exists root.
Qed.

Lemma compute_returns_in_tree_witness :
  let pairs := [mkDevicePair (-1) 0; mkDevicePair 0 1;
                mkDevicePair 2 3; mkDevicePair 0 2] in
  compute ex_rt [0; 1; 2; 3] [] = Ok pairs ∧
  ∃ root, pairs !! 0%nat = Some (mkDevicePair (-1) root) ∧
          NoDup (device <$> pairs) ∧
          ∀ i pr, pairs !! i = Some pr → dev_reaches pairs root (device pr).
Proof.
  intros pairs.
  assert (compute ex_rt [0; 1; 2; 3] [] = Ok pairs) as H by (vm_compute; reflexivity).
  split; [exact H|].
  exact (compute_returns_in_tree ex_rt [0; 1; 2; 3] pairs H).
Defined.



(** ** More about the gather round *)

Section GatherRuns.

Context {Dtype : Type}.
Variable add : Dtype → Dtype → Dtype.
Variable mul : Dtype → Dtype → Dtype.
Variable recip : Z → Dtype.
Variable solver_count : Z.
Variable tree : list P2PSync.
Variable size_ : nat.
Variable root : nat.
Hypothesis Htree : in_tree tree root.

Implicit Types (cfg : list (@Replica Dtype)) (me : @Replica Dtype).

#[local] Abbreviation Inv := (Gather_inv tree size_).
#[local] Abbreviation ogr := (on_gradients_ready add mul recip solver_count tree size_).
#[local] Abbreviation run' := (run add mul recip solver_count tree size_).

Lemma run_keeps (P : list (@Replica Dtype) → Prop) schedule cfg :
  (∀ r cfg cfg', P cfg → ogr r cfg = Some cfg' → P cfg') →
  P cfg → P (run' schedule cfg).
Proof.
  intros Hstep. revert cfg.
  induction schedule as [|r schedule IH]; intros cfg Hcfg; [done|].
  simpl. apply IH. unfold step.
  destruct (ogr r cfg) as [cfg1|] eqn:E; [|done]. simpl. by eapply Hstep.
Qed.

Lemma run_inv schedule cfg : Inv cfg → Inv (run' schedule cfg).
Proof.
  apply run_keeps. intros r cfg1 cfg2.
  apply (on_gradients_ready_inv add mul recip solver_count tree size_ root Htree).
Qed.

Lemma run_app schedule more cfg :
  run' (schedule ++ more) cfg = run' more (run' schedule cfg).
Proof. unfold run. apply foldl_app. Qed.

(** A replica that has sent holds in its receive buffer what it holds
    in [diff_]. *)
#[local] Abbreviation delivered := (λ cfg,
  Inv cfg ∧
  ∀ r me node p, cfg !! r = Some me → tree !! r = Some node →
    parent_ node = Some p → progress me = Returned →
    parent_grads_ me = diff_ me).

Lemma on_gradients_ready_delivered r cfg cfg' :
  delivered cfg → ogr r cfg = Some cfg' → delivered cfg'.
Proof.
  intros [Hinv Hdel] Hstep.
  split; [by eapply (on_gradients_ready_inv add mul recip solver_count tree size_ root)|].
  apply on_gradients_ready_cases in Hstep
    as (node & me & i & Hnode & Hme & Hprog &
        [(Hi & child & q & ch & Hq & Hch & ->)|[(Hi & p & Hp & ->)|(Hi & Hp & ->)]]).
  - intros r' me' node' p' Hme' Hnode' Hp' Hret.
    destruct (decide (r' = r)) as [->|Hne].
    + rewrite list_lookup_insert_eq in Hme' by (by eapply lookup_lt_Some).
      injection Hme' as <-. done.
    + rewrite list_lookup_insert_ne in Hme' by done. by eapply Hdel.
  - pose proof (parent_ne tree root Htree r node p Hnode Hp) as Hne.
    pose proof (lookup_lt_Some _ _ _ Hme) as Hr.
    destruct (ginv_buffers _ _ _ Hinv r me Hme) as [Hd Hg].
    intros r' me' node' p' Hme' Hnode' Hp' Hret.
    destruct (decide (r' = p)) as [->|Hnp].
    + rewrite list_lookup_alter_eq, list_lookup_insert_ne in Hme' by done.
      destruct (cfg !! p) as [pm|] eqn:Hpm; [|done]. injection Hme' as <-.
      simpl in *. by eapply (Hdel p pm).
    + rewrite list_lookup_alter_ne in Hme' by done.
      destruct (decide (r' = r)) as [->|Hnr].
      * rewrite list_lookup_insert_eq in Hme' by done. injection Hme' as <-.
        simpl. by apply hipMemcpy_full.
      * rewrite list_lookup_insert_ne in Hme' by done. by eapply Hdel.
  - intros r' me' node' p' Hme' Hnode' Hp' Hret.
    destruct (decide (r' = r)) as [->|Hne].
    + congruence.
    + rewrite list_lookup_insert_ne in Hme' by done. by eapply Hdel.
Qed.

Lemma enters_delivered cfg0 :
  length cfg0 = length tree → Forall (enters size_) cfg0 → delivered cfg0.
Proof.
  intros Hlen Henter. split; [by apply enters_inv|].
  intros r me node p Hme _ _ Hret. rewrite Forall_lookup in Henter.
  destruct (Henter r me Hme) as (_ & Hp & _). congruence.
Qed.

End GatherRuns.

(** X21. The gather round cannot get stuck.  From the entry of the
    round and after any interleaving so far, either every replica has
    returned or some replica can take its next action; and whatever has
    been scheduled so far can be continued to a complete round. *)
Theorem gather_round_never_stuck {Dtype : Type}
    (add mul : Dtype → Dtype → Dtype) (recip : Z → Dtype) (solver_count : Z)
    (tree : list P2PSync) (size_ : nat) (root : nat)
    (cfg0 : list (@Replica Dtype)) (schedule : list nat) :
  in_tree tree root →
  length cfg0 = length tree →
  Forall (enters size_) cfg0 →
  let cfg := run add mul recip solver_count tree size_ schedule cfg0 in
  (round_complete cfg ∨
   ∃ r cfg', on_gradients_ready add mul recip solver_count tree size_ r cfg
             = Some cfg') ∧
  ∃ more, round_complete
            (run add mul recip solver_count tree size_ (schedule ++ more) cfg0).
Proof.
  intros Htree Hlen Henter cfg.
  assert (Gather_inv tree size_ cfg) as Hinv.
  { apply (run_inv add mul recip solver_count tree size_ root Htree).
    by apply enters_inv. }
  split; [by apply (gather_progress add mul recip solver_count tree size_ root)|].
  destruct (gather_completes_within add mul recip solver_count tree size_ root Htree
              (work tree cfg) cfg Hinv ltac:(done)) as [more Hmore].
  exists more. by rewrite run_app.
Qed.

Lemma gather_round_never_stuck_witness :
  in_tree ex_tree 0 ∧
  length ex_cfg0 = length ex_tree ∧
  Forall (enters 2) ex_cfg0 ∧
  ¬ round_complete (run Qcplus Qcmult qc_recip 4 ex_tree 2 [0; 2; 0]%nat ex_cfg0) ∧
  ∃ more, round_complete
            (run Qcplus Qcmult qc_recip 4 ex_tree 2 ([0; 2; 0]%nat ++ more) ex_cfg0).
Proof.
  assert (Forall (enters 2) ex_cfg0) as Henter by (repeat constructor).
  split; [exact ex_tree_in_tree|]. split; [reflexivity|]. split; [exact Henter|].
  split.
  - intros H. unfold round_complete in H. rewrite Forall_lookup in H.
    specialize (H 1%nat _ eq_refl). discriminate H.
  - exact (proj2 (gather_round_never_stuck Qcplus Qcmult qc_recip 4 ex_tree 2 0
                    ex_cfg0 [0; 2; 0]%nat ex_tree_in_tree eq_refl Henter)).
Defined.

(** X22. What a complete gather round leaves behind.  Under every
    interleaving, when all replicas have returned, every mailbox is
    empty (each push has been popped), and every replica but the root
    holds in its receive buffer [parent_grads_] a copy of its own
    [diff_]. *)
Theorem gather_round_drains_mailboxes {Dtype : Type}
    (add mul : Dtype → Dtype → Dtype) (recip : Z → Dtype) (solver_count : Z)
    (tree : list P2PSync) (size_ : nat) (root : nat)
    (cfg0 : list (@Replica Dtype)) (schedule : list nat) :
  in_tree tree root →
  length cfg0 = length tree →
  Forall (enters size_) cfg0 →
  let cfg := run add mul recip solver_count tree size_ schedule cfg0 in
  round_complete cfg →
  ∀ r me, cfg !! r = Some me →
    queue_ me = [] ∧ (r ≠ root → parent_grads_ me = diff_ me).
Proof.
  intros Htree Hlen Henter cfg Hcomplete r me Hme.
  assert (Gather_inv tree size_ cfg ∧
          ∀ r me node p, cfg !! r = Some me → tree !! r = Some node →
            parent_ node = Some p → progress me = Returned →
            parent_grads_ me = diff_ me) as [Hinv Hdel].
  { apply (run_keeps add mul recip solver_count tree size_
             (λ cfg, Gather_inv tree size_ cfg ∧
                     ∀ r me node p, cfg !! r = Some me → tree !! r = Some node →
                       parent_ node = Some p → progress me = Returned →
                       parent_grads_ me = diff_ me)).
    - intros r1 cfg1 cfg2.
      apply (on_gradients_ready_delivered add mul recip solver_count tree size_ root Htree).
    - by apply enters_delivered. }
  unfold round_complete in Hcomplete. rewrite Forall_lookup in Hcomplete.
  pose proof (Hcomplete r me Hme) as Hret.
  destruct (lookup_lt_is_Some_2 tree r) as [node Hnode];
    [rewrite <- (ginv_length _ _ _ Hinv); by eapply lookup_lt_Some|].
  split.
  - by destruct (ginv_returned _ _ _ Hinv r me node Hme Hnode Hret).
  - intros Hne. destruct (parent_ node) as [p|] eqn:Hp.
    + by eapply Hdel.
    + by destruct (Hne (root_unique tree root Htree r node Hnode Hp)).
Qed.

Lemma gather_round_drains_mailboxes_witness :
  let cfg := run Qcplus Qcmult qc_recip 4 ex_tree 2 ex_schedule ex_cfg0 in
  in_tree ex_tree 0 ∧
  length ex_cfg0 = length ex_tree ∧
  Forall (enters 2) ex_cfg0 ∧
  round_complete cfg ∧
  ∀ r me, cfg !! r = Some me →
    queue_ me = [] ∧ (r ≠ 0%nat → parent_grads_ me = diff_ me).
Proof.
  intros cfg.
  assert (Forall (enters 2) ex_cfg0) as Henter by (repeat constructor).
  assert (round_complete cfg) as Hcomplete.
  { unfold round_complete, cfg. apply Forall_forall. intros me Hme.
    apply list_elem_of_In in Hme. vm_compute in Hme.
    repeat (destruct Hme as [<-|Hme]; [reflexivity|]). destruct Hme. }
  split; [exact ex_tree_in_tree|]. split; [reflexivity|]. split; [exact Henter|].
  split; [exact Hcomplete|].
  exact (gather_round_drains_mailboxes Qcplus Qcmult qc_recip 4 ex_tree 2 0 ex_cfg0
           ex_schedule ex_tree_in_tree eq_refl Henter Hcomplete).
Defined.

(** ** Part 5: the broadcast round *)

Lemma to_int_small (x : Z) : - 2 ^ 31 ≤ x < 2 ^ 31 → to_int x = x.
Proof. intros Hx. unfold to_int. rewrite Z.mod_small by lia. lia. Qed.

Lemma first_index_small (node : P2PSync) :
  Z.of_nat (length (children_ node)) ≤ INT_MAX →
  Broadcast.first_index node = Z.of_nat (length (children_ node)) - 1.
Proof.
  unfold Broadcast.first_index, INT_MAX. intros Hlen.
  destruct (decide (length (children_ node) = 0)%nat) as [->|Hne].
  - reflexivity.
  - unfold to_size_t, SIZE_MODULUS. rewrite Z.mod_small by lia.
    apply to_int_small. lia.
Qed.

Section StartSteps.

Context {Dtype : Type}.
Variable tree : list P2PSync.
Variable size_ : nat.
Variable root : nat.
Hypothesis Htree : in_tree tree root.
Hypothesis Hsmall : Z.of_nat (length tree) ≤ INT_MAX.

Implicit Types (cfg : list (@Broadcast.Replica Dtype)) (me : @Broadcast.Replica Dtype).

#[local] Abbreviation on_start := (Broadcast.on_start tree size_).
#[local] Abbreviation Inv := (Broadcast.Start_inv tree size_).
#[local] Abbreviation mk := (@Broadcast.mkReplica Dtype).

Lemma children_bound (p : nat) (node : P2PSync) :
  tree !! p = Some node → (length (children_ node) ≤ length tree)%nat.
Proof.
  intros Hnode. destruct (children_spec tree root Htree p node Hnode) as [Hnd Hin].
  rewrite <- (length_seq (length tree) 0%nat). apply submseteq_length, NoDup_submseteq; [done|].
  intros c Hc. apply Hin in Hc as (m & Hm & _). apply elem_of_seq.
  apply lookup_lt_Some in Hm. lia.
Qed.

Lemma first_index_node (p : nat) (node : P2PSync) :
  tree !! p = Some node →
  Broadcast.first_index node = Z.of_nat (length (children_ node)) - 1.
Proof.
  intros Hnode. apply first_index_small.
  pose proof (children_bound p node Hnode). lia.
Qed.

(** The actions of a replica. *)
Lemma on_start_cases r cfg cfg' :
  on_start r cfg = Ok (Some cfg') →
  ∃ node me,
    tree !! r = Some node ∧ cfg !! r = Some me ∧
    ((Broadcast.progress me = Broadcast.Waiting ∧
      ∃ p q, parent_ node = Some p ∧ Broadcast.queue_ me = p :: q ∧
             cfg' = <[r := mk q (Broadcast.data_ me)
                             (Broadcast.Updating (Broadcast.first_index node))]> cfg) ∨
     (Broadcast.progress me = Broadcast.Waiting ∧ parent_ node = None ∧
      cfg' = <[r := mk (Broadcast.queue_ me) (Broadcast.data_ me)
                      (Broadcast.Updating (Broadcast.first_index node))]> cfg) ∨
     (∃ i c ch,
        Broadcast.progress me = Broadcast.Updating i ∧ 0 ≤ i ∧
        children_ node !! Z.to_nat i = Some c ∧ cfg !! c = Some ch ∧
        cfg' = alter (Broadcast.receive size_ r (Broadcast.data_ me)) c
                 (<[r := mk (Broadcast.queue_ me) (Broadcast.data_ me)
                           (Broadcast.Updating (i - 1))]> cfg)) ∨
     (∃ i, Broadcast.progress me = Broadcast.Updating i ∧ i < 0 ∧
           cfg' = <[r := mk (Broadcast.queue_ me) (Broadcast.data_ me)
                           Broadcast.Returned]> cfg)).
Proof.
  unfold Broadcast.on_start. intros H.
  destruct (tree !! r) as [node|] eqn:Hnode; [|done].
  destruct (cfg !! r) as [me|] eqn:Hme; [|done].
  exists node, me. split; [done|]. split; [done|].
  destruct (Broadcast.progress me) as [|i|] eqn:Hprog; [| |done].
  - destruct (parent_ node) as [p|] eqn:Hp.
    + left. split; [done|].
      destruct (Broadcast.queue_ me) as [|parent q] eqn:Hq; [done|].
      apply bind_Ok in H as (? & Hchk & [= <-]).
      apply CHECK_Ok, bool_decide_eq_true in Hchk as ->. by exists p, q.
    + right. left. injection H as <-. done.
  - right. right. case_bool_decide as Hi.
    + left. apply bind_Ok in H as (c & Hc & H). apply vec_at_Ok in Hc.
      destruct (cfg !! c) as [ch|] eqn:Hch; [|done]. injection H as <-.
      by exists i, c, ch.
    + right. injection H as <-. exists i. split; [done|]. split; [lia|done].
Qed.

(** A replica is not its own child, and a child has one parent. *)
Lemma child_ne (p : nat) (node : P2PSync) (j c : nat) :
  tree !! p = Some node → children_ node !! j = Some c → c ≠ p.
Proof.
  intros Hnode Hc ->.
  destruct (children_spec tree root Htree p node Hnode) as [_ Hin].
  apply list_elem_of_lookup_2, Hin in Hc as (m & Hm & Hpar).
  assert (m = node) as -> by congruence.
  by apply (parent_ne tree root Htree p node p).
Qed.

Lemma child_parent (p : nat) (node : P2PSync) (j c : nat) (cn : P2PSync) :
  tree !! p = Some node → children_ node !! j = Some c → tree !! c = Some cn →
  parent_ cn = Some p.
Proof.
  intros Hnode Hc Hcn.
  destruct (children_spec tree root Htree p node Hnode) as [_ Hin].
  apply list_elem_of_lookup_2, Hin in Hc as (m & Hm & Hpar). congruence.
Qed.

Lemma child_slot (p : nat) (node : P2PSync) (c : nat) (cn : P2PSync) :
  tree !! p = Some node → tree !! c = Some cn → parent_ cn = Some p →
  ∃ j, children_ node !! j = Some c.
Proof.
  intros Hnode Hcn Hpar. apply list_elem_of_lookup.
  by apply (child_of_parent tree root Htree c cn p node).
Qed.


(** A replica that has heard from its parent, or has none, takes a
    step of its own. *)
Lemma local_inv D cfg r me node h' :
  Inv D cfg → cfg !! r = Some me → tree !! r = Some node →
  parent_ node = None ∨ Broadcast.progress me ≠ Broadcast.Waiting
    ∨ Broadcast.queue_ me ≠ [] →
  h' ≠ Broadcast.Waiting →
  (∀ i, h' = Broadcast.Updating i → -1 ≤ i < Z.of_nat (length (children_ node))) →
  (∀ j, (j < length (children_ node))%nat →
        Broadcast.served (mk [] (Broadcast.data_ me) h') j = Broadcast.served me j) →
  Inv D (<[r := mk [] (Broadcast.data_ me) h']> cfg).
Proof.
  intros Hinv Hme Hnode Hheard Hh' Hidx Hserved.
  pose proof (lookup_lt_Some _ _ _ Hme) as Hr.
  assert (∀ x, <[r := mk [] (Broadcast.data_ me) h']> cfg !! x =
               if decide (x = r) then Some (mk [] (Broadcast.data_ me) h')
               else cfg !! x) as Hlook.
  { intros x. case_decide as Hx.
    - subst x. by rewrite list_lookup_insert_eq.
    - by rewrite list_lookup_insert_ne. }
  split.
  - rewrite length_insert. apply (Broadcast.sinv_length _ _ _ _ Hinv).
  - intros x xm. rewrite Hlook. case_decide; [intros [= <-]; simpl|];
      by eapply (Broadcast.sinv_buffers _ _ _ _ Hinv).
  - intros x xm xn. rewrite Hlook. case_decide as Hx.
    + subst x. intros [= <-] Hxn _. simpl. assert (xn = node) as -> by congruence.
      by eapply (Broadcast.sinv_data _ _ _ _ Hinv).
    + by eapply (Broadcast.sinv_data _ _ _ _ Hinv).
  - intros x xm xn. rewrite Hlook. case_decide as Hx.
    + intros [= <-] _. by left.
    + by eapply (Broadcast.sinv_queue _ _ _ _ Hinv).
  - intros x xm xn i. rewrite Hlook. case_decide as Hx.
    + subst x. intros [= <-] Hxn Hp. simpl in Hp.
      assert (xn = node) as -> by congruence. by apply Hidx.
    + by eapply (Broadcast.sinv_index _ _ _ _ Hinv).
  - intros p pm pnode j c cm. rewrite !Hlook.
    destruct (decide (p = r)) as [->|Hpr].
    + intros [= <-] Hpn Hc. assert (pnode = node) as -> by congruence.
      rewrite decide_False by (by eapply child_ne). intros Hcm.
      rewrite Hserved by (by eapply lookup_lt_Some).
      by eapply (Broadcast.sinv_child _ _ _ _ Hinv r me node j c cm).
    + intros Hpm Hpn Hc. destruct (decide (c = r)) as [->|Hcr].
      * intros [= <-]. simpl.
        pose proof (Broadcast.sinv_child _ _ _ _ Hinv p pm pnode j r me
                      Hpm Hpn Hc Hme) as Hold.
        destruct (Broadcast.served pm j); [by left|].
        destruct Hold as [Hw Hq].
        pose proof (child_parent p pnode j r node Hpn Hc Hnode) as Hpar.
        destruct Hheard as [?|[?|?]]; congruence.
      * intros Hcm.
        by eapply (Broadcast.sinv_child _ _ _ _ Hinv p pm pnode j c cm).
Qed.

(** One iteration of the loop over the children. *)
Lemma push_inv D cfg r me node i c ch :
  Inv D cfg → cfg !! r = Some me → tree !! r = Some node →
  Broadcast.progress me = Broadcast.Updating i → 0 ≤ i →
  children_ node !! Z.to_nat i = Some c → cfg !! c = Some ch →
  Inv D (alter (Broadcast.receive size_ r (Broadcast.data_ me)) c
           (<[r := mk (Broadcast.queue_ me) (Broadcast.data_ me)
                     (Broadcast.Updating (i - 1))]> cfg)).
Proof.
  intros Hinv Hme Hnode Hprog Hi Hc Hch.
  pose proof (lookup_lt_Some _ _ _ Hme) as Hr.
  pose proof (child_ne r node _ c Hnode Hc) as Hcr.
  destruct (children_spec tree root Htree r node Hnode) as [Hnd _].
  assert (Broadcast.data_ me = D) as HD.
  { eapply (Broadcast.sinv_data _ _ _ _ Hinv); [done|done|]. right. left. congruence. }
  assert (Broadcast.queue_ me = []) as Hq.
  { destruct (Broadcast.sinv_queue _ _ _ _ Hinv r me node Hme Hnode) as [?|[? _]];
      [done|congruence]. }
  pose proof (Broadcast.sinv_index _ _ _ _ Hinv r me node i Hme Hnode Hprog) as Hidx.
  pose proof (Broadcast.sinv_child _ _ _ _ Hinv r me node _ c ch Hme Hnode Hc Hch)
    as Hchild.
  unfold Broadcast.served in Hchild. rewrite Hprog in Hchild.
  rewrite bool_decide_eq_false_2 in Hchild by lia. destruct Hchild as [Hchw Hchq].
  pose proof (Broadcast.sinv_buffers _ _ _ _ Hinv r me Hme) as Hlm.
  pose proof (Broadcast.sinv_buffers _ _ _ _ Hinv c ch Hch) as Hlc.
  set (me1 := mk (Broadcast.queue_ me) (Broadcast.data_ me) (Broadcast.Updating (i - 1))).
  set (ch1 := Broadcast.receive size_ r (Broadcast.data_ me) ch).
  assert (Broadcast.data_ ch1 = D) as HD1.
  { unfold ch1. simpl. rewrite hipMemcpy_full by done. done. }
  assert (Broadcast.queue_ ch1 = [r]) as Hq1 by (unfold ch1; simpl; by rewrite Hchq).
  assert (Broadcast.progress ch1 = Broadcast.Waiting) as Hp1 by done.
  assert (∀ x, alter (Broadcast.receive size_ r (Broadcast.data_ me)) c
                 (<[r := me1]> cfg) !! x =
               if decide (x = c) then Some ch1
               else if decide (x = r) then Some me1 else cfg !! x) as Hlook.
  { intros x. case_decide as Hx.
    - subst x. by rewrite list_lookup_alter_eq, list_lookup_insert_ne, Hch.
    - rewrite list_lookup_alter_ne by done. case_decide as Hx'.
      + subst x. by rewrite list_lookup_insert_eq.
      + by rewrite list_lookup_insert_ne. }
  destruct (lookup_lt_is_Some_2 tree c) as [cn Hcn].
  { rewrite <- (Broadcast.sinv_length _ _ _ _ Hinv). by eapply lookup_lt_Some. }
  pose proof (child_parent r node _ c cn Hnode Hc Hcn) as Hcpar.
  split.
  - rewrite length_alter, length_insert. apply (Broadcast.sinv_length _ _ _ _ Hinv).
  - intros x xm. rewrite Hlook. repeat case_decide.
    + intros [= <-]. rewrite HD1, <- HD. done.
    + intros [= <-]. done.
    + by eapply (Broadcast.sinv_buffers _ _ _ _ Hinv).
  - intros x xm xn. rewrite Hlook. repeat case_decide.
    + by intros [= <-].
    + by intros [= <-].
    + by eapply (Broadcast.sinv_data _ _ _ _ Hinv).
  - intros x xm xn. rewrite Hlook. repeat case_decide.
    + subst x. intros [= <-] Hxn. assert (xn = cn) as -> by congruence.
      right. split; [done|]. by exists r.
    + intros [= <-] _. by left.
    + by eapply (Broadcast.sinv_queue _ _ _ _ Hinv).
  - intros x xm xn i0. rewrite Hlook. repeat case_decide.
    + intros [= <-]. by rewrite Hp1.
    + subst x. intros [= <-] Hxn [= <-]. assert (xn = node) as -> by congruence. lia.
    + by eapply (Broadcast.sinv_index _ _ _ _ Hinv).
  - intros p pm pnode j c' cm. rewrite !Hlook.
    destruct (decide (p = c)) as [->|Hpc].
    + (* the child as a parent: it is still waiting *)
      intros [= <-] Hpn Hc'. assert (pnode = cn) as -> by congruence.
      rewrite decide_False by (by eapply child_ne).
      assert (Broadcast.served ch1 j = false) as ->
        by (unfold Broadcast.served; by rewrite Hp1).
      assert (Broadcast.served ch j = false) as Hsf
        by (unfold Broadcast.served; by rewrite Hchw).
      case_decide as Hc'r.
      * subst c'. intros _.
        pose proof (Broadcast.sinv_child _ _ _ _ Hinv c ch cn j r me Hch Hcn Hc' Hme)
          as Hold. rewrite Hsf in Hold. destruct Hold as [Hw _]. congruence.
      * intros Hcm.
        pose proof (Broadcast.sinv_child _ _ _ _ Hinv c ch cn j c' cm Hch Hcn Hc' Hcm)
          as Hold. by rewrite Hsf in Hold.
    + destruct (decide (p = r)) as [->|Hpr].
      * (* the replica that pushes *)
        intros [= <-] Hpn Hc'. assert (pnode = node) as -> by congruence.
        destruct (decide (c' = c)) as [->|Hc'c].
        -- intros [= <-].
           assert (j = Z.to_nat i) as -> by (by eapply NoDup_lookup).
           unfold Broadcast.served. simpl. rewrite bool_decide_eq_true_2 by lia.
           by right.
        -- rewrite decide_False by (by eapply child_ne). intros Hcm.
           assert (j ≠ Z.to_nat i) as Hj by (intros ->; congruence).
           pose proof (Broadcast.sinv_child _ _ _ _ Hinv r me node j c' cm
                         Hme Hnode Hc' Hcm) as Hold.
           assert (Broadcast.served me1 j = Broadcast.served me j) as ->; [|done].
           unfold Broadcast.served. simpl. rewrite Hprog.
           apply bool_decide_ext. lia.
      * intros Hpm Hpn Hc'.
        destruct (decide (c' = c)) as [->|Hc'c].
        { pose proof (child_parent p pnode j c cn Hpn Hc' Hcn). congruence. }
        destruct (decide (c' = r)) as [->|Hc'r].
        -- intros [= <-]. simpl.
           pose proof (Broadcast.sinv_child _ _ _ _ Hinv p pm pnode j r me
                         Hpm Hpn Hc' Hme) as Hold.
           destruct (Broadcast.served pm j); [by left|].
           destruct Hold as [Hw _]. congruence.
        -- intros Hcm.
           by eapply (Broadcast.sinv_child _ _ _ _ Hinv p pm pnode j c' cm).
Qed.

(** Every action keeps the invariant. *)
Lemma on_start_inv D cfg r cfg' :
  Inv D cfg → on_start r cfg = Ok (Some cfg') → Inv D cfg'.
Proof.
  intros Hinv H.
  apply on_start_cases in H
    as (node & me & Hnode & Hme &
        [(Hw & p & q & Hp & Hq & ->)|[(Hw & Hp & ->)|
         [(i & c & ch & Hprog & Hi & Hc & Hch & ->)|(i & Hprog & Hi & ->)]]]).
  - assert (q = []) as ->.
    { destruct (Broadcast.sinv_queue _ _ _ _ Hinv r me node Hme Hnode)
        as [?|(_ & p' & _ & ?)]; congruence. }
    rewrite (first_index_node r node Hnode).
    apply (local_inv D cfg r me node); try done.
    + right. right. by rewrite Hq.
    + intros i [= <-]. lia.
    + intros j Hj. unfold Broadcast.served. simpl. rewrite Hw.
      apply bool_decide_eq_false_2. lia.
  - assert (Broadcast.queue_ me = []) as ->.
    { destruct (Broadcast.sinv_queue _ _ _ _ Hinv r me node Hme Hnode)
        as [?|(_ & p' & ? & _)]; congruence. }
    rewrite (first_index_node r node Hnode).
    apply (local_inv D cfg r me node); try done.
    + by left.
    + intros i [= <-]. lia.
    + intros j Hj. unfold Broadcast.served. simpl. rewrite Hw.
      apply bool_decide_eq_false_2. lia.
  - by apply (push_inv D cfg r me node i c ch).
  - assert (Broadcast.queue_ me = []) as ->.
    { destruct (Broadcast.sinv_queue _ _ _ _ Hinv r me node Hme Hnode)
        as [?|(? & _)]; congruence. }
    apply (local_inv D cfg r me node); try done.
    + right. left. congruence.
    + intros j Hj. unfold Broadcast.served. simpl. rewrite Hprog.
      symmetry. apply bool_decide_eq_true_2. lia.
Qed.

(** No action fails: the parent popped is the parent, and the child
    indexed is there. *)
Lemma on_start_total D cfg r : Inv D cfg → ∃ o, on_start r cfg = Ok o.
Proof.
  intros Hinv. unfold Broadcast.on_start.
  destruct (tree !! r) as [node|] eqn:Hnode; [|by eexists].
  destruct (cfg !! r) as [me|] eqn:Hme; [|by eexists].
  destruct (Broadcast.progress me) as [|i|] eqn:Hprog; [| |by eexists].
  - destruct (parent_ node) as [p|] eqn:Hp; [|by eexists].
    destruct (Broadcast.queue_ me) as [|parent q] eqn:Hq; [by eexists|].
    destruct (Broadcast.sinv_queue _ _ _ _ Hinv r me node Hme Hnode)
      as [?|(_ & p' & Hp' & Hq')]; [congruence|].
    assert (parent = p) as -> by congruence.
    rewrite bool_decide_eq_true_2 by done. by eexists.
  - case_bool_decide as Hi; [|by eexists].
    pose proof (Broadcast.sinv_index _ _ _ _ Hinv r me node i Hme Hnode Hprog) as Hidx.
    destruct (lookup_lt_is_Some_2 (children_ node) (Z.to_nat i)) as [c Hc]; [lia|].
    rewrite (proj2 (vec_at_Ok _ _ _) Hc). simpl.
    destruct (children_spec tree root Htree r node Hnode) as [_ Hin].
    apply list_elem_of_lookup_2, Hin in Hc as (cn & Hcn & _).
    destruct (lookup_lt_is_Some_2 cfg c) as [ch ->].
    { rewrite (Broadcast.sinv_length _ _ _ _ Hinv). by eapply lookup_lt_Some. }
    by eexists.
Qed.

Lemma start_run_inv D schedule cfg :
  Inv D cfg → ∃ cfg', Broadcast.run tree size_ schedule cfg = Ok cfg' ∧ Inv D cfg'.
Proof.
  revert cfg. induction schedule as [|r schedule IH]; intros cfg Hinv; [by exists cfg|].
  simpl. unfold Broadcast.step.
  destruct (on_start_total D cfg r Hinv) as [o Ho]. rewrite Ho. simpl.
  apply IH. destruct o as [cfg1|]; simpl; [by eapply on_start_inv|done].
Qed.

Lemma start_enters_inv cfg0 root_me :
  length cfg0 = length tree → Forall (Broadcast.enters size_) cfg0 →
  cfg0 !! root = Some root_me →
  Inv (Broadcast.data_ root_me) cfg0.
Proof.
  intros Hlen Henter Hroot. rewrite Forall_lookup in Henter.
  split.
  - done.
  - intros r me Hme. by destruct (Henter r me Hme) as (_ & _ & ?).
  - intros r me node Hme Hnode [Hp|[Hw|Hq]].
    + pose proof (root_unique tree root Htree r node Hnode Hp) as ->. congruence.
    + by destruct (Henter r me Hme) as (_ & ? & _).
    + by destruct (Henter r me Hme) as (? & _).
  - intros r me node Hme _. left. by destruct (Henter r me Hme) as (? & _).
  - intros r me node i Hme _ Hp. destruct (Henter r me Hme) as (_ & ? & _). congruence.
  - intros p pm pnode j c cm Hpm _ _ Hcm.
    destruct (Henter p pm Hpm) as (_ & Hw & _).
    destruct (Henter c cm Hcm) as (Hq & Hw' & _).
    unfold Broadcast.served. by rewrite Hw.
Qed.


(** *** The round comes to an end *)

#[local] Abbreviation depth := (depth_is tree root).

(** Among finitely many replicas one is nearest to the root. *)
Lemma shallowest (L : list nat) :
  L ≠ [] → (∀ r, r ∈ L → reaches tree root r) →
  ∃ r k, r ∈ L ∧ depth r k ∧ ∀ r' k', r' ∈ L → depth r' k' → (k ≤ k')%nat.
Proof.
  induction L as [|x L IH]; intros Hne Hreach; [done|].
  destruct (depth_total tree root x (Hreach x ltac:(apply elem_of_cons; by left)))
    as [kx Hkx].
  destruct L as [|y L].
  - exists x, kx. split; [apply elem_of_cons; by left|]. split; [done|].
    intros r' k' Hr' Hk'. apply list_elem_of_singleton in Hr' as ->.
    by rewrite (depth_functional tree root Htree x k' kx).
  - destruct IH as (r & k & Hr & Hk & Hmin); [done| |].
    { intros r Hr. apply Hreach. apply elem_of_cons. by right. }
    destruct (decide (k ≤ kx)%nat) as [Hle|Hgt].
    + exists r, k. split; [apply elem_of_cons; by right|]. split; [done|].
      intros r' k' Hr' Hk'. apply elem_of_cons in Hr' as [->|Hr']; [|by eapply Hmin].
      by rewrite (depth_functional tree root Htree x k' kx).
    + exists x, kx. split; [apply elem_of_cons; by left|]. split; [done|].
      intros r' k' Hr' Hk'. apply elem_of_cons in Hr' as [->|Hr'].
      * by rewrite (depth_functional tree root Htree x k' kx).
      * specialize (Hmin r' k' Hr' Hk'). lia.
Qed.

(** No deadlock: while a replica has not returned, some replica can
    move. *)
Lemma start_progress D cfg :
  Inv D cfg →
  Broadcast.round_complete cfg ∨ ∃ r cfg', on_start r cfg = Ok (Some cfg').
Proof.
  intros Hinv. pose proof (Broadcast.sinv_length _ _ _ _ Hinv) as Hlen.
  set (busy := λ r : nat,
         match cfg !! r with
         | Some me => match Broadcast.progress me with
                      | Broadcast.Returned => false
                      | _ => true
                      end
         | None => false
         end).
  assert (∀ r me, cfg !! r = Some me →
                  Broadcast.progress me ≠ Broadcast.Returned → busy r = true) as Hbusy1.
  { intros r me Hme Hp. unfold busy. rewrite Hme.
    by destruct (Broadcast.progress me). }
  assert (∀ r, busy r = true →
               ∃ me, cfg !! r = Some me ∧
                     Broadcast.progress me ≠ Broadcast.Returned) as Hbusy2.
  { intros r. unfold busy. destruct (cfg !! r) as [me|]; [|done].
    intros Hb. exists me. split; [done|]. intros Hp. by rewrite Hp in Hb. }
  set (L := filter (λ r, busy r = true) (seq 0 (length cfg))).
  destruct (decide (L = [])) as [Hnil|Hne].
  { left. apply Forall_lookup. intros j x Hx.
    pose proof (lookup_lt_Some _ _ _ Hx) as Hj.
    destruct (Broadcast.progress x) eqn:Ep; [| |done].
    all: assert (j ∈ L) as Hin
      by (apply list_elem_of_filter; split;
          [apply (Hbusy1 j x Hx); congruence|apply elem_of_seq; lia]).
    all: rewrite Hnil in Hin; by apply elem_of_nil in Hin. }
  right.
  assert (∀ r, r ∈ L → (r < length tree)%nat ∧ busy r = true) as HL.
  { intros r Hr. apply list_elem_of_filter in Hr as [Hr1 Hr2].
    apply elem_of_seq in Hr2. split; [lia|done]. }
  destruct (shallowest L Hne) as (r & k & Hr & Hk & Hmin).
  { intros r Hr. destruct Htree as (_ & Hreach & _). apply Hreach. by apply HL. }
  destruct (HL r Hr) as [Hrlt Hrb]. destruct (Hbusy2 r Hrb) as (me & Hme & Hbusy).
  destruct (lookup_lt_is_Some_2 tree r Hrlt) as [node Hnode].
  exists r. unfold Broadcast.on_start. rewrite Hnode, Hme.
  destruct (Broadcast.progress me) as [|i|] eqn:Hprog; [| |done].
  - destruct (parent_ node) as [p|] eqn:Hp; [|by eexists].
    assert (∃ k', depth p k' ∧ k = S k') as (k' & Hk' & ->).
    { destruct (root_node tree root Htree) as (rn & Hrn & Hnone).
      inversion Hk as [Heq|c n p' k' Hc Hp' Hd Heq1 Heq2].
      - rewrite Heq in Hrn. congruence.
      - assert (n = node) as -> by congruence.
        assert (p' = p) as -> by congruence. by exists k'. }
    destruct (parent_node tree root Htree r node p Hnode Hp) as [pnode Hpnode].
    destruct (lookup_lt_is_Some_2 cfg p) as [pm Hpm];
      [rewrite Hlen; by eapply lookup_lt_Some|].
    assert (Broadcast.progress pm = Broadcast.Returned) as Hpret.
    { destruct (Broadcast.progress pm) eqn:Epm; [| |done].
      all: assert (p ∈ L) as Hin
        by (apply list_elem_of_filter; split;
            [apply (Hbusy1 p pm Hpm); congruence
            |apply elem_of_seq; apply lookup_lt_Some in Hpm; lia]).
      all: specialize (Hmin p k' Hin Hk'); lia. }
    destruct (child_slot p pnode r node Hpnode Hnode Hp) as [j Hj].
    pose proof (Broadcast.sinv_child _ _ _ _ Hinv p pm pnode j r me Hpm Hpnode Hj Hme)
      as Hchild.
    unfold Broadcast.served in Hchild. rewrite Hpret in Hchild.
    destruct Hchild as [?|Hq]; [done|]. rewrite Hq.
    rewrite bool_decide_eq_true_2 by done. by eexists.
  - case_bool_decide as Hi; [|by eexists].
    pose proof (Broadcast.sinv_index _ _ _ _ Hinv r me node i Hme Hnode Hprog) as Hidx.
    destruct (lookup_lt_is_Some_2 (children_ node) (Z.to_nat i)) as [c Hc]; [lia|].
    rewrite (proj2 (vec_at_Ok _ _ _) Hc). simpl.
    destruct (children_spec tree root Htree r node Hnode) as [_ Hin].
    apply list_elem_of_lookup_2, Hin in Hc as (cn & Hcn & _).
    destruct (lookup_lt_is_Some_2 cfg c) as [ch ->].
    { rewrite Hlen. by eapply lookup_lt_Some. }
    by eexists.
Qed.

(** Replacing a replica changes the work left by that replica's share. *)
Lemma start_work_insert cfg r node x y :
  tree !! r = Some node → cfg !! r = Some x →
  (Broadcast.work tree (<[r := y]> cfg) + Broadcast.work_of node x
   = Broadcast.work tree cfg + Broadcast.work_of node y)%nat.
Proof.
  unfold Broadcast.work. clear Htree Hsmall. revert cfg r.
  induction tree as [|n t IH]; intros cfg r Hn Hx; [done|].
  destruct cfg as [|z cfg]; [done|]. destruct r as [|r]; simpl in *.
  - injection Hn as ->. injection Hx as ->. lia.
  - specialize (IH cfg r Hn Hx). lia.
Qed.

(** Every action is one action less to take. *)
Lemma on_start_work D cfg r cfg' :
  Inv D cfg → on_start r cfg = Ok (Some cfg') →
  (Broadcast.work tree cfg' < Broadcast.work tree cfg)%nat.
Proof.
  intros Hinv H. pose proof (Broadcast.sinv_length _ _ _ _ Hinv) as Hlen.
  apply on_start_cases in H
    as (node & me & Hnode & Hme &
        [(Hw & p & q & Hp & Hq & ->)|[(Hw & Hp & ->)|
         [(i & c & ch & Hprog & Hi & Hc & Hch & ->)|(i & Hprog & Hi & ->)]]]).
  - pose proof (start_work_insert cfg r node me
                  (mk q (Broadcast.data_ me)
                     (Broadcast.Updating (Broadcast.first_index node))) Hnode Hme) as H.
    unfold Broadcast.work_of in H. rewrite Hw in H. simpl in H.
    rewrite (first_index_node r node Hnode) in H |- *. lia.
  - pose proof (start_work_insert cfg r node me
                  (mk (Broadcast.queue_ me) (Broadcast.data_ me)
                     (Broadcast.Updating (Broadcast.first_index node))) Hnode Hme) as H.
    unfold Broadcast.work_of in H. rewrite Hw in H. simpl in H.
    rewrite (first_index_node r node Hnode) in H |- *. lia.
  - pose proof (child_ne r node _ c Hnode Hc) as Hcr.
    set (me1 := mk (Broadcast.queue_ me) (Broadcast.data_ me)
                  (Broadcast.Updating (i - 1))).
    assert (<[r := me1]> cfg !! c = Some ch) as HchA
      by (by rewrite list_lookup_insert_ne).
    rewrite (list_alter_as_insert _ _ c ch HchA).
    destruct (lookup_lt_is_Some_2 tree c) as [cn Hcn];
      [rewrite <- Hlen; by eapply lookup_lt_Some|].
    pose proof (start_work_insert cfg r node me me1 Hnode Hme) as H1.
    pose proof (start_work_insert _ c cn ch
                  (Broadcast.receive size_ r (Broadcast.data_ me) ch) Hcn HchA) as H2.
    unfold Broadcast.work_of in H1, H2. rewrite Hprog in H1. simpl in H1, H2. lia.
  - pose proof (Broadcast.sinv_index _ _ _ _ Hinv r me node i Hme Hnode Hprog) as Hidx.
    pose proof (start_work_insert cfg r node me
                  (mk (Broadcast.queue_ me) (Broadcast.data_ me) Broadcast.Returned)
                  Hnode Hme) as H.
    unfold Broadcast.work_of in H. rewrite Hprog in H. simpl in H. lia.
Qed.

Lemma start_completes_within D n cfg :
  Inv D cfg → (Broadcast.work tree cfg ≤ n)%nat →
  ∃ schedule cfg', Broadcast.run tree size_ schedule cfg = Ok cfg' ∧
                   Inv D cfg' ∧ Broadcast.round_complete cfg'.
Proof.
  revert cfg. induction n as [|n IH]; intros cfg Hinv Hwork;
    (destruct (start_progress D cfg Hinv) as [Hdone|(r & cfg' & Hstep)];
     [by exists [], cfg|]);
    pose proof (on_start_work D cfg r cfg' Hinv Hstep) as Hless; [lia|].
  destruct (IH cfg') as (schedule & cfg'' & Hrun & Hinv'' & Hdone);
    [by eapply on_start_inv|lia|].
  exists (r :: schedule), cfg''. split; [|done].
  simpl. unfold Broadcast.step. rewrite Hstep. done.
Qed.

Lemma start_run_app schedule more cfg :
  Broadcast.run tree size_ (schedule ++ more) cfg
  = Broadcast.run tree size_ schedule cfg ≫= Broadcast.run tree size_ more.
Proof.
  revert cfg. induction schedule as [|r schedule IH]; intros cfg; [done|].
  simpl. destruct (Broadcast.step tree size_ cfg r) as [cfg1|e]; simpl; [apply IH|done].
Qed.

End StartSteps.

(** X23. The broadcast round hands the root's parameters to every
    replica.  For every in-tree and every interleaving of the replicas
    running [on_start] from empty mailboxes: no [CHECK(parent == parent_)]
    fails and no child index is out of range; a replica that has got past
    its wait holds the root's [data_]; and when all replicas have
    returned, every [data_] is the root's and every mailbox is empty. *)
Theorem broadcast_round_distributes {Dtype : Type} (tree : list P2PSync)
    (size_ : nat) (root : nat) (cfg0 : list (@Broadcast.Replica Dtype))
    (root_me : Broadcast.Replica) (schedule : list nat) :
  in_tree tree root →
  Z.of_nat (length tree) ≤ INT_MAX →
  length cfg0 = length tree →
  Forall (Broadcast.enters size_) cfg0 →
  cfg0 !! root = Some root_me →
  ∃ cfg,
    Broadcast.run tree size_ schedule cfg0 = Ok cfg ∧
    (∀ r me, cfg !! r = Some me →
       Broadcast.progress me ≠ Broadcast.Waiting →
       Broadcast.data_ me = Broadcast.data_ root_me) ∧
    (Broadcast.round_complete cfg →
     ∀ r me, cfg !! r = Some me →
       Broadcast.data_ me = Broadcast.data_ root_me ∧ Broadcast.queue_ me = []).
Proof.
  intros Htree Hsmall Hlen Henter Hroot.
  pose proof (start_enters_inv tree size_ root Htree cfg0 root_me Hlen Henter Hroot) as Hinv0.
  destruct (start_run_inv tree size_ root Htree Hsmall _ schedule cfg0 Hinv0)
    as (cfg & Hrun & Hinv).
  assert (∀ r me, cfg !! r = Some me →
            Broadcast.progress me ≠ Broadcast.Waiting →
            Broadcast.data_ me = Broadcast.data_ root_me) as Hdata.
  { intros r me Hme Hp.
    destruct (lookup_lt_is_Some_2 tree r) as [node Hnode];
      [rewrite <- (Broadcast.sinv_length _ _ _ _ Hinv); by eapply lookup_lt_Some|].
    eapply (Broadcast.sinv_data _ _ _ _ Hinv); [done|done|]. right. by left. }
  exists cfg. split; [done|]. split; [done|].
  intros Hcomplete r me Hme.
  unfold Broadcast.round_complete in Hcomplete. rewrite Forall_lookup in Hcomplete.
  pose proof (Hcomplete r me Hme) as Hret.
  split; [apply (Hdata r me Hme); congruence|].
  destruct (lookup_lt_is_Some_2 tree r) as [node Hnode];
    [rewrite <- (Broadcast.sinv_length _ _ _ _ Hinv); by eapply lookup_lt_Some|].
  destruct (Broadcast.sinv_queue _ _ _ _ Hinv r me node Hme Hnode) as [?|[? _]];
    [done|congruence].
Qed.

Lemma broadcast_round_distributes_witness :
  in_tree ex_tree 0 ∧
  Z.of_nat (length ex_tree) ≤ INT_MAX ∧
  length ex_start_cfg0 = length ex_tree ∧
  Forall (Broadcast.enters 2) ex_start_cfg0 ∧
  ∃ cfg,
    Broadcast.run ex_tree 2 ex_start_schedule ex_start_cfg0 = Ok cfg ∧
    Broadcast.round_complete cfg ∧
    ∀ r me, cfg !! r = Some me →
      Broadcast.data_ me = [1; 2] ∧ Broadcast.queue_ me = [].
Proof.
  assert (Z.of_nat (length ex_tree) ≤ INT_MAX) as Hsmall by (vm_compute; congruence).
  assert (Forall (Broadcast.enters 2) ex_start_cfg0) as Henter by (repeat constructor).
  split; [exact ex_tree_in_tree|]. split; [exact Hsmall|]. split; [reflexivity|].
  split; [exact Henter|].
  destruct (broadcast_round_distributes ex_tree 2 0 ex_start_cfg0
              (ex_start_replica [1; 2]) ex_start_schedule
              ex_tree_in_tree Hsmall eq_refl Henter eq_refl)
    as (cfg & Hrun & _ & Hdone).
  exists cfg. split; [exact Hrun|].
  assert (Broadcast.round_complete cfg) as Hcomplete.
  { vm_compute in Hrun. injection Hrun as <-. repeat constructor. }
  split; [exact Hcomplete|]. exact (Hdone Hcomplete).
Defined.

(** X24. The broadcast round cannot get stuck.  From empty mailboxes
    and after any interleaving so far, either every replica has returned
    from [on_start] or some replica can take its next action; and
    whatever has been scheduled so far can be continued to a complete
    round. *)
Theorem broadcast_round_never_stuck {Dtype : Type} (tree : list P2PSync)
    (size_ : nat) (root : nat) (cfg0 : list (@Broadcast.Replica Dtype))
    (schedule : list nat) :
  in_tree tree root →
  Z.of_nat (length tree) ≤ INT_MAX →
  length cfg0 = length tree →
  Forall (Broadcast.enters size_) cfg0 →
  ∃ cfg,
    Broadcast.run tree size_ schedule cfg0 = Ok cfg ∧
    (Broadcast.round_complete cfg ∨
     ∃ r cfg', Broadcast.on_start tree size_ r cfg = Ok (Some cfg')) ∧
    ∃ more cfg',
      Broadcast.run tree size_ (schedule ++ more) cfg0 = Ok cfg' ∧
      Broadcast.round_complete cfg'.
Proof.
  intros Htree Hsmall Hlen Henter.
  destruct (root_node tree root Htree) as (rn & Hrn & _).
  destruct (lookup_lt_is_Some_2 cfg0 root) as [root_me Hroot];
    [rewrite Hlen; by eapply lookup_lt_Some|].
  pose proof (start_enters_inv tree size_ root Htree cfg0 root_me Hlen Henter Hroot) as Hinv0.
  destruct (start_run_inv tree size_ root Htree Hsmall _ schedule cfg0 Hinv0)
    as (cfg & Hrun & Hinv).
  exists cfg. split; [done|].
  split; [by eapply (start_progress tree size_ root Htree)|].
  destruct (start_completes_within tree size_ root Htree Hsmall _
              (Broadcast.work tree cfg) cfg Hinv ltac:(done))
    as (more & cfg' & Hmore & _ & Hdone).
  exists more, cfg'. split; [|done].
  rewrite start_run_app, Hrun. done.
Qed.

Lemma broadcast_round_never_stuck_witness :
  in_tree ex_tree 0 ∧
  Z.of_nat (length ex_tree) ≤ INT_MAX ∧
  length ex_start_cfg0 = length ex_tree ∧
  Forall (Broadcast.enters 2) ex_start_cfg0 ∧
  ∃ cfg,
    Broadcast.run ex_tree 2 [1; 0; 0]%nat ex_start_cfg0 = Ok cfg ∧
    ¬ Broadcast.round_complete cfg ∧
    ∃ more cfg',
      Broadcast.run ex_tree 2 ([1; 0; 0]%nat ++ more) ex_start_cfg0 = Ok cfg' ∧
      Broadcast.round_complete cfg'.
Proof.
  assert (Z.of_nat (length ex_tree) ≤ INT_MAX) as Hsmall by (vm_compute; congruence).
  assert (Forall (Broadcast.enters 2) ex_start_cfg0) as Henter by (repeat constructor).
  split; [exact ex_tree_in_tree|]. split; [exact Hsmall|]. split; [reflexivity|].
  split; [exact Henter|].
  destruct (broadcast_round_never_stuck ex_tree 2 0 ex_start_cfg0 [1; 0; 0]%nat
              ex_tree_in_tree Hsmall eq_refl Henter)
    as (cfg & Hrun & _ & Hmore).
  exists cfg. split; [exact Hrun|]. split; [|exact Hmore].
  vm_compute in Hrun. injection Hrun as <-.
  intros H. unfold Broadcast.round_complete in H. rewrite Forall_lookup in H.
  specialize (H 1%nat _ eq_refl). discriminate H.
Defined.
